(** * The pf2e damage-formula compiler

    A shallow embedding of [src/module/system/damage/formula.ts] and the
    properties of its specification.

    Conventions of the embedding:
    - JavaScript numbers that the compiler handles are dice counts, die
      faces and flat modifiers; they are modelled as [Z].
    - Strings are [string]; a template literal is a chain of [+:+].
    - [T | null] is [option T]; [boolean | null] is [option bool].
    - A JavaScript [Map] is an association list in insertion order,
      because [Map.prototype.entries] iterates in that order and the
      compiler depends on it.
    - The ambient [game] object (settings and localisation) is a
      parameter of the section that holds the compiler.
    - The compiler is a function on immutable values; the assignments
      that it makes to its copy of the definition are modelled a second
      time on a store of objects, and the two are proved to agree. *)

From Stdlib Require Import ZArith List String Ascii Lia Bool DecimalString
  Permutation Sorted.
From stdpp Require Import gmap strings list.
Import ListNotations.

Local Open Scope string_scope.
Local Open Scope list_scope.
Local Open Scope Z_scope.

(** ** Values shared with the rest of the system *)

(** Modelled from the spec: [DEGREE_OF_SUCCESS] of
    [@system/degree-of-success.ts] is absent from the sources; the four
    outcome tiers are numbered 0 to 3 from critical failure to critical
    success. *)
Inductive DegreeOfSuccessIndex : Type :=
  | CRITICAL_FAILURE
  | FAILURE
  | SUCCESS
  | CRITICAL_SUCCESS.

Definition degreeIndex (d : DegreeOfSuccessIndex) : Z :=
  match d with
  | CRITICAL_FAILURE => 0
  | FAILURE => 1
  | SUCCESS => 2
  | CRITICAL_SUCCESS => 3
  end.

Definition degree_eqb (a b : DegreeOfSuccessIndex) : bool :=
  degreeIndex a =? degreeIndex b.

(** Truthiness of a degree used as a condition: only index 0 is falsy. *)
Definition degreeTruthy (d : DegreeOfSuccessIndex) : bool :=
  negb (degreeIndex d =? 0).

(** [DamageCategoryUnique] of [./types.ts]. *)
Inductive DamageCategoryUnique : Type :=
  | persistent
  | precision
  | splash.

Definition categoryName (c : DamageCategoryUnique) : string :=
  match c with
  | persistent => "persistent"
  | precision => "precision"
  | splash => "splash"
  end.

Definition DamageCategory : Type := option DamageCategoryUnique.

Definition category_eqb (a b : DamageCategory) : bool :=
  match a, b with
  | None, None => true
  | Some persistent, Some persistent => true
  | Some precision, Some precision => true
  | Some splash, Some splash => true
  | _, _ => false
  end.

(** [DamageDieSize] of [./types.ts]: the literal strings "d4" to "d12". *)
Inductive DamageDieSize : Type := d4 | d6 | d8 | d10 | d12.

Definition dieSizeString (s : DamageDieSize) : string :=
  match s with
  | d4 => "d4"
  | d6 => "d6"
  | d8 => "d8"
  | d10 => "d10"
  | d12 => "d12"
  end.

(** [Number(dieSize.replace("d", ""))]. *)
Definition dieSizeFaces (s : DamageDieSize) : Z :=
  match s with
  | d4 => 4
  | d6 => 6
  | d8 => 8
  | d10 => 10
  | d12 => 12
  end.

Definition DamageType : Type := string.
Definition MaterialDamageEffect : Type := string.

(** [CriticalInclusion] and the table [CRITICAL_INCLUSION] of
    [./values.ts]: the compiler itself tests [includes(null)] for the
    doubled entries, so [DOUBLE_ON_CRIT] is [null]; critical-only is
    [true] and never-doubled is [false]. *)
Definition CriticalInclusion : Type := option bool.
Definition DOUBLE_ON_CRIT : CriticalInclusion := None.
Definition CRITICAL_ONLY : CriticalInclusion := Some true.
Definition DONT_DOUBLE_ON_CRIT : CriticalInclusion := Some false.

Definition inclusion_eqb (a b : CriticalInclusion) : bool :=
  match a, b with
  | None, None => true
  | Some x, Some y => Bool.eqb x y
  | _, _ => false
  end.

(** [Array.prototype.includes] on a list of inclusions. *)
Definition includes (l : list CriticalInclusion) (x : CriticalInclusion) : bool :=
  existsb (inclusion_eqb x) l.

(** ** The damage definition *)

Record BaseDamageData : Type := mkBase {
  base_damageType : DamageType;
  base_diceNumber : Z;
  base_dieSize : option DamageDieSize;
  base_modifier : Z;
  base_category : DamageCategory;
  base_materials : option (list MaterialDamageEffect)
}.

Record DamageDicePF2e : Type := mkDice {
  dice_label : string;
  dice_diceNumber : Z;
  dice_dieSize : option DamageDieSize;
  dice_damageType : option DamageType;
  dice_category : DamageCategory;
  dice_critical : option bool;
  dice_enabled : bool
}.

Record ModifierPF2e : Type := mkModifier {
  mod_label : string;
  mod_value : Z;
  mod_damageType : option DamageType;
  mod_damageCategory : DamageCategory;
  mod_critical : option bool;
  mod_enabled : bool
}.

Record DamageFormulaData : Type := mkDamage {
  dmg_base : BaseDamageData;
  dmg_dice : list DamageDicePF2e;
  dmg_modifiers : list ModifierPF2e
}.

(** ** Partial terms *)

Record DiceSpec : Type := mkDiceSpec {
  number : Z;
  faces : Z
}.

Record DamagePartialTerm : Type := mkTerm {
  term_modifier : Z;
  term_dice : option DiceSpec
}.

Record DamagePartial : Type := mkPartial {
  label : string;
  dice : option DiceSpec;
  modifier : Z;
  category : DamageCategory;
  critical : option bool;
  materials : option (list MaterialDamageEffect)
}.

(** A [DamagePartial] extends [DamagePartialTerm]. *)
Definition partialTerm (p : DamagePartial) : DamagePartialTerm :=
  {| term_modifier := modifier p; term_dice := dice p |}.

Record AssembledFormula : Type := mkAssembled {
  formula : string;
  breakdown : list string
}.

(** ** Strings and numbers *)

(** [String(n)] for an integer [n]. *)
Definition numberToString (z : Z) : string :=
  NilZero.string_of_int (Z.to_int z).

(** [Array.prototype.join]. *)
Definition join (sep : string) (l : list string) : string :=
  String.concat sep l.

(** Truthiness of a string. *)
Definition nonEmpty (s : string) : bool :=
  match s with
  | EmptyString => false
  | String _ _ => true
  end.

Fixpoint existsbString (f : ascii -> bool) (s : string) : bool :=
  match s with
  | EmptyString => false
  | String c s' => f c || existsbString f s'
  end.

Fixpoint forallbString (f : ascii -> bool) (s : string) : bool :=
  match s with
  | EmptyString => true
  | String c s' => f c && forallbString f s'
  end.

Definition isOperatorChar (c : ascii) : bool :=
  (c =? "-")%char || (c =? "+")%char || (c =? "*")%char || (c =? "/")%char.

Definition isDigit (c : ascii) : bool :=
  let n := nat_of_ascii c in (48 <=? n)%nat && (n <=? 57)%nat.

(** Line terminators, which [.] of a regular expression does not match. *)
Definition isLineTerminator (c : ascii) : bool :=
  let n := nat_of_ascii c in (n =? 10)%nat || (n =? 13)%nat.

(** The class [\s] restricted to one-byte characters. *)
Definition isWhitespace (c : ascii) : bool :=
  let n := nat_of_ascii c in
  ((9 <=? n)%nat && (n <=? 13)%nat) || (n =? 32)%nat || (n =? 160)%nat.

(** Helper for helpers: [/[-+*/]/.test(formula ?? "")]. *)
Definition hasOperators (formula : option string) : bool :=
  existsbString isOperatorChar (default "" formula).

(** The last character of a string, when there is one. *)
Fixpoint lastChar (s : string) : option ascii :=
  match s with
  | EmptyString => None
  | String c EmptyString => Some c
  | String _ s' => lastChar s'
  end.

(** [/^\(.*\)$/.test(formula)]: an opening parenthesis, any run of
    characters other than line terminators, a closing parenthesis. *)
Definition isWrapped (formula : string) : bool :=
  match formula with
  | String "("%char rest =>
      match lastChar rest with
      | Some ")"%char => negb (existsbString isLineTerminator formula)
      | _ => false
      end
  | _ => false
  end.

(** Splits off the longest prefix of characters satisfying [f]. *)
Fixpoint spanString (f : ascii -> bool) (s : string) : string * string :=
  match s with
  | EmptyString => (EmptyString, EmptyString)
  | String c s' =>
      if f c then let '(a, b) := spanString f s' in (String c a, b)
      else (EmptyString, s)
  end.

(** [/^\d+(d\d+)?$/.test(formula)]. *)
Definition isSimple (formula : string) : bool :=
  let '(n, rest) := spanString isDigit formula in
  nonEmpty n &&
  match rest with
  | EmptyString => true
  | String "d"%char f => nonEmpty f && forallbString isDigit f
  | _ => false
  end.

(** [s.replace(/^\s+\+/, "")]: a leading run of whitespace followed by a
    plus sign is removed. *)
Definition stripLeadingPlus (s : string) : string :=
  let '(ws, rest) := spanString isWhitespace s in
  match ws, rest with
  | String _ _, String "+"%char rest' => rest'
  | _, _ => s
  end.

(** ** Collections of [@util] *)

(** Modelled from the spec: [sum] of [@util] is absent from the sources;
    it adds up a list of numbers ("within a face count, sum dice
    counts"). *)
Definition sum (values : list Z) : Z :=
  fold_left Z.add values 0.

(** A JavaScript [Map] with its insertion order. *)
Definition JsMap (K V : Type) : Type := list (K * V).

Section JsMap.
Context {K V : Type} (eqb : K -> K -> bool).

(** [Map.prototype.get]. *)
Fixpoint mapGet (k : K) (m : JsMap K V) : option V :=
  match m with
  | [] => None
  | (k', v) :: m' => if eqb k' k then Some v else mapGet k m'
  end.

(** [Map.prototype.set]: an existing key keeps its position. *)
Fixpoint mapSet (k : K) (v : V) (m : JsMap K V) : JsMap K V :=
  match m with
  | [] => [(k, v)]
  | (k', v') :: m' =>
      if eqb k' k then (k', v) :: m' else (k', v') :: mapSet k v m'
  end.
End JsMap.

(** Modelled from the spec: [groupBy] of [@util] is absent from the
    sources; it groups the elements of an array under the value of a
    criterion ("group dice partials by face count"), into a [Map] whose
    groups keep the order of the array.  [groupStep] is one turn of its
    loop. *)
Definition groupStep {T R : Type} (eqb : R -> R -> bool) (criterion : T -> R)
    (result : JsMap R (list T)) (elem : T) : JsMap R (list T) :=
  let key := criterion elem in
  match mapGet eqb key result with
  | Some group => mapSet eqb key (group ++ [elem]) result
  | None => mapSet eqb key [elem] result
  end.

Definition groupBy {T R : Type} (eqb : R -> R -> bool)
    (array : list T) (criterion : T -> R) : JsMap R (list T) :=
  fold_left (groupStep eqb criterion) array [].

(** Modelled from the spec: [sortBy] of [@util] is absent from the
    sources; it builds the comparator of a key ("sort by descending face
    count" for the key [-faces]).  [Array.prototype.sort] is stable, so
    the sorted array is the one a stable insertion sort yields. *)
Fixpoint insertBy {T : Type} (key : T -> Z) (x : T) (l : list T) : list T :=
  match l with
  | [] => [x]
  | y :: l' => if key x <=? key y then x :: l else y :: insertBy key x l'
  end.

Definition sortBy {T : Type} (key : T -> Z) (l : list T) : list T :=
  fold_right (insertBy key) [] l.

(** ** The dice/modifier combiner *)

(** A term whose [dice] field has passed the type guard of the filter. *)
Definition diceOf (t : DamagePartialTerm) : DiceSpec :=
  default {| number := 0; faces := 0 |} (term_dice t).

(** The two entries of the array from which the final term is joined: the
    joined dice terms, and the absolute constant. *)
Inductive TermPiece : Type :=
  | PieceString (s : string)
  | PieceNumber (n : Z).

Definition pieceTruthy (e : TermPiece) : bool :=
  match e with
  | PieceString s => nonEmpty s
  | PieceNumber n => negb (n =? 0)
  end.

Definition renderPiece (doubleDice : bool) (e : TermPiece) : string :=
  match e with
  | PieceString s => s
  | PieceNumber n =>
      if doubleDice then "2 * " +:+ numberToString n else numberToString n
  end.

(** The type guard of the dice filter: the partial has dice, and their
    number is positive. *)
Definition hasPositiveDice (p : DamagePartialTerm) : bool :=
  match term_dice p with
  | Some d => 0 <? number d
  | None => false
  end.

(** The term that stands for a group of terms with the same faces: the
    first term of the group, with the sum of the dice numbers. *)
Definition combineGroup (terms : list DamagePartialTerm) : DamagePartialTerm :=
  match terms with
  | t0 :: _ =>
      {| term_modifier := term_modifier t0;
         term_dice :=
           Some {| number := sum (map (fun d => number (diceOf d)) terms);
                   faces := faces (diceOf t0) |} |}
  | [] => {| term_modifier := 0; term_dice := None |}
  end.

(** The dice-expression string of a combined term. *)
Definition renderDice (doubleDice : bool) (term : DamagePartialTerm) : string :=
  let number :=
    if doubleDice then number (diceOf term) * 2 else number (diceOf term) in
  let faces := faces (diceOf term) in
  if doubleDice
  then "(" +:+ numberToString number +:+ "d" +:+ numberToString faces
       +:+ "[doubled])"
  else numberToString number +:+ "d" +:+ numberToString faces.

(** The combined dice of a list of terms, one term for each number of
    faces: the constant [positiveDice] of [combinePartialTerms]. *)
Definition positiveDice (terms : list DamagePartialTerm)
    : list DamagePartialTerm :=
  (* Group dice by number of faces *)
  let dice :=
    sortBy (fun t => - faces (diceOf t)) (List.filter hasPositiveDice terms) in
  (* Combine dice into dice-expression strings *)
  let byFace := map snd (groupBy Z.eqb dice (fun t => faces (diceOf t))) in
  let combinedDice := map combineGroup byFace in
  List.filter (fun t => 0 <? number (diceOf t)) combinedDice.

(** Combines damage dice and modifiers into a single formula, ignoring the
    damage type and category. *)
Definition combinePartialTerms (terms : list DamagePartialTerm)
    (doubleDice : bool) : string :=
  let constant := fold_left (fun total p => total + term_modifier p) terms 0 in
  let diceTerms := map (renderDice doubleDice) (positiveDice terms) in
  (* Create the final term. Double the modifier here if dice doubling is
     enabled *)
  join (if 0 <? constant then " + " else " - ")
    (map (renderPiece doubleDice)
       (List.filter pieceTruthy
          [PieceString (join " + " diceTerms); PieceNumber (Z.abs constant)])).

(** ** Summing and enclosing expressions *)

Definition sumExpression (terms : list (option string)) (double : bool)
    : option string :=
  if forallb (fun t => negb (nonEmpty (default "" t))) terms then None
  else
    let summed :=
      let joined :=
        join " + "
          (flat_map (fun p => match p with
                              | Some s => if nonEmpty s then [s] else []
                              | None => []
                              end) terms) in
      if nonEmpty joined then Some joined else None in
    let enclosed :=
      if double && hasOperators summed
      then Some ("(" +:+ default "null" summed +:+ ")")
      else summed in
    if double then Some ("2 * " +:+ default "null" enclosed) else enclosed.

(** Ensures the formula is valid as a damage instance formula before
    flavor is attached. *)
Definition ensureValidFormulaHead (formula : option string) : option string :=
  match formula with
  | None => None
  | Some f =>
      if negb (nonEmpty f) then None
      else if isWrapped f || isSimple f then Some f
      else Some ("(" +:+ f +:+ ")")
  end.

(** ** The category assembler *)

(** The fixed processing order of the categories. *)
Definition categories : list DamageCategory :=
  [None; Some persistent; Some precision; Some splash].

(** [category ?? ""]. *)
Definition categoryString (c : DamageCategory) : string :=
  match c with
  | Some u => categoryName u
  | None => ""
  end.

(** The partials of one category that the inclusion list lets through. *)
Definition requestedPartials
    (partials : JsMap DamageCategory (list DamagePartial))
    (criticalInclusion : list CriticalInclusion)
    (category : DamageCategory) : list DamagePartial :=
  List.filter (fun p => includes criticalInclusion (critical p))
    (default [] (mapGet category_eqb category partials)).

(** The fragment that one category contributes; the empty string when it
    contributes nothing. *)
Definition categoryFragment
    (partials : JsMap DamageCategory (list DamagePartial))
    (criticalInclusion : list CriticalInclusion) (doubleDice : bool)
    (category : DamageCategory) : string :=
  let term :=
    let expression :=
      combinePartialTerms
        (map partialTerm (requestedPartials partials criticalInclusion category))
        doubleDice in
    if existsb (String.eqb (categoryString category)) ["precision"; "splash"]
       && hasOperators (Some expression)
    then "(" +:+ expression +:+ ")"
    else expression in
  if nonEmpty term && nonEmpty (categoryString category)
     && negb (String.eqb (categoryString category) "persistent")
  then term +:+ "[" +:+ categoryString category +:+ "]"
  else term.

Definition createPartialFormulas
    (partials : JsMap DamageCategory (list DamagePartial))
    (criticalInclusion : list CriticalInclusion) (doubleDice : bool)
    : list string :=
  flat_map
    (fun category =>
       let flavored :=
         categoryFragment partials criticalInclusion doubleDice category in
       if nonEmpty flavored then [flavored] else [])
    categories.

(** A pool of damage dice and modifiers, grouped by damage type. *)
Definition DamageTypeMap : Type := JsMap DamageType (list DamagePartial).

Section Compiler.

(** [game.settings.get("pf2e", "critRule")]. *)
Variable critRule : string.

(** [game.i18n.localize(CONFIG.PF2E.damageTypes[damageType] ?? damageType)]. *)
Variable localizeDamageType : DamageType -> string.

(** [game.i18n.format("PF2E.Damage.PersistentTooltip", { damageType })]. *)
Variable formatPersistentTooltip : string -> string.

(** The inclusion list of the non-critical sub-expression. *)
Definition nonCriticalInclusion (degree : DegreeOfSuccessIndex)
    : list CriticalInclusion :=
  if degree_eqb degree CRITICAL_SUCCESS
  then [DOUBLE_ON_CRIT]
  else [DOUBLE_ON_CRIT; DONT_DOUBLE_ON_CRIT].

(** Whether to double the dice of these partials. *)
Definition doubleDice (degree : DegreeOfSuccessIndex) : bool :=
  degree_eqb degree CRITICAL_SUCCESS
  && includes (nonCriticalInclusion degree) None
  && String.eqb critRule "doubledice".

(** If dice doubling is enabled, any doubling of dice or constants is
    handled by [createPartialFormulas]. *)
Definition double (degree : DegreeOfSuccessIndex) : bool :=
  degree_eqb degree CRITICAL_SUCCESS && negb (doubleDice degree).

Definition nonCriticalDamage
    (groups : JsMap DamageCategory (list DamagePartial))
    (degree : DegreeOfSuccessIndex) : option string :=
  sumExpression
    (map Some
       (createPartialFormulas groups (nonCriticalInclusion degree)
          (doubleDice degree)))
    (double degree).

Definition criticalDamage
    (groups : JsMap DamageCategory (list DamagePartial))
    (degree : DegreeOfSuccessIndex) : option string :=
  if negb (degree_eqb degree CRITICAL_SUCCESS) then None
  else
    sumExpression
      (map Some
         (createPartialFormulas groups [CRITICAL_ONLY; DONT_DOUBLE_ON_CRIT]
            false))
      false.

Definition summedDamage
    (groups : JsMap DamageCategory (list DamagePartial))
    (degree : DegreeOfSuccessIndex) : option string :=
  sumExpression
    (if degreeTruthy degree
     then [nonCriticalDamage groups degree; criticalDamage groups degree]
     else [nonCriticalDamage groups degree])
    false.

Definition flavor (damageType : DamageType)
    (typePartials : list DamagePartial) (persistent' : bool) : string :=
  let typeFlavor :=
    if String.eqb damageType "untyped" && negb persistent' then []
    else [damageType] in
  let persistentFlavor := if persistent' then ["persistent"] else [] in
  let materialFlavor :=
    flat_map (fun p => default [] (materials p)) typePartials in
  let allFlavor :=
    join "," (typeFlavor ++ persistentFlavor ++ materialFlavor) in
  if nonEmpty allFlavor then "[" +:+ allFlavor +:+ "]" else "".

Definition isCriticalOnly (d : DamagePartial) : bool :=
  inclusion_eqb (critical d) (Some true).

(** The partials of all categories, one category after the other. *)
Definition flattenedDamage
    (groups : JsMap DamageCategory (list DamagePartial))
    : list DamagePartial :=
  flat_map (fun c => default [] (mapGet category_eqb c groups)) categories.

Definition breakdownDamage
    (groups : JsMap DamageCategory (list DamagePartial))
    (degree : DegreeOfSuccessIndex) : list DamagePartial :=
  List.filter (fun d => negb (isCriticalOnly d)) (flattenedDamage groups)
  ++ (if degree_eqb degree CRITICAL_SUCCESS
      then List.filter isCriticalOnly (flattenedDamage groups)
      else []).

Definition breakdownOf (damageType : DamageType)
    (groups : JsMap DamageCategory (list DamagePartial))
    (degree : DegreeOfSuccessIndex) : list string :=
  match breakdownDamage groups degree with
  | [] => []
  | first :: rest =>
      let damageTypeLabel :=
        if category_eqb (category first) (Some persistent)
        then formatPersistentTooltip (localizeDamageType damageType)
        else localizeDamageType damageType in
      (stripLeadingPlus (label first) +:+ " " +:+ damageTypeLabel)
      :: map label rest
  end.

(** The instance of one damage type in one of the two runs, when one
    survives. *)
Definition instanceOf (degree : DegreeOfSuccessIndex) (persistent' : bool)
    (entry : DamageType * list DamagePartial) : list AssembledFormula :=
  let '(damageType, typePartials) := entry in
  (* Filter persistent (or filter out) based on persistent option *)
  let partials :=
    List.filter
      (fun p =>
         Bool.eqb (category_eqb (category p) (Some persistent)) persistent')
      typePartials in
  if (length partials =? 0)%nat then []
  else
    (* Split into categories, which must be processed in a specific order *)
    let groups := groupBy category_eqb partials category in
    let enclosed := ensureValidFormulaHead (summedDamage groups degree) in
    let flavor := flavor damageType typePartials persistent' in
    let breakdown := breakdownOf damageType groups degree in
    let formula :=
      match enclosed with
      | Some e =>
          if nonEmpty e && nonEmpty flavor then Some (e +:+ flavor)
          else enclosed
      | None => None
      end in
    match formula with
    | Some f =>
        if nonEmpty f then [{| formula := f; breakdown := breakdown |}]
        else []
    | None => []
    end.

(** Convert a damage type map to a final string formula. *)
Definition instancesFromTypeMap (typeMap : DamageTypeMap)
    (degree : DegreeOfSuccessIndex) (persistent' : bool)
    : list AssembledFormula :=
  flat_map (instanceOf degree persistent') typeMap.

End Compiler.

(** ** The type partitioner *)

(** Truthiness of a number. *)
Definition truthy (n : Z) : bool := negb (n =? 0).

(** The label of the base damage. *)
Definition baseLabel (base : BaseDamageData) : string :=
  let diceSection :=
    if truthy (base_diceNumber base)
    then Some (numberToString (base_diceNumber base)
               +:+ match base_dieSize base with
                   | Some s => dieSizeString s
                   | None => "null"
                   end)
    else None in
  match diceSection with
  | None => numberToString (base_modifier base)
  | Some section =>
      let modifier :=
        if truthy (base_modifier base)
        then [numberToString (Z.abs (base_modifier base))]
        else [] in
      let operator := if base_modifier base <? 0 then " - " else " + " in
      join operator (section :: modifier)
  end.

Definition basePartial (base : BaseDamageData) : DamagePartial :=
  {| label := baseLabel base;
     dice :=
       match base_dieSize base with
       | Some s =>
           if truthy (base_diceNumber base)
           then Some {| number := base_diceNumber base;
                        faces := dieSizeFaces s |}
           else None
       | None => None
       end;
     modifier := base_modifier base;
     critical := None;
     category := base_category base;
     materials := Some (default [] (base_materials base)) |}.

(** The type map after the base damage has been entered. *)
Definition baseTypeMap (base : BaseDamageData) : DamageTypeMap :=
  if (truthy (base_diceNumber base) && bool_decide (is_Some (base_dieSize base)))
     || truthy (base_modifier base)
  then mapSet String.eqb (base_damageType base) [basePartial base] []
  else [].

(** [list.push(partial); typeMap.set(damageType, list)] for the list
    [typeMap.get(damageType) ?? []]. *)
Definition pushPartial (damageType : DamageType) (partial : DamagePartial)
    (typeMap : DamageTypeMap) : DamageTypeMap :=
  let list := default [] (mapGet String.eqb damageType typeMap) in
  mapSet String.eqb damageType (list ++ [partial]) typeMap.

Definition dicePartial (dice : DamageDicePF2e) (dieSize : DamageDieSize)
    : DamagePartial :=
  {| label := dice_label dice;
     dice := Some {| number := dice_diceNumber dice;
                     faces := dieSizeFaces dieSize |};
     modifier := 0;
     category := dice_category dice;
     critical := dice_critical dice;
     materials := None |}.

(** [dice.dieSize || base.dieSize || null]. *)
Definition resolvedDieSize (base : BaseDamageData) (dice : DamageDicePF2e)
    : option DamageDieSize :=
  match dice_dieSize dice with
  | Some s => Some s
  | None => base_dieSize base
  end.

(** One turn of the loop over the enabled dice: dice always stack. *)
Definition addDice (base : BaseDamageData) (typeMap : DamageTypeMap)
    (dice : DamageDicePF2e) : DamageTypeMap :=
  let dieSize := resolvedDieSize base dice in
  match dieSize with
  | Some s =>
      if 0 <? dice_diceNumber dice
      then
        let damageType := default (base_damageType base) (dice_damageType dice) in
        pushPartial damageType (dicePartial dice s) typeMap
      else typeMap
  | None => typeMap
  end.

(** Test that a damage modifier or dice partial is compatible with the
    prior check result. *)
Definition outcomeMatches (critical : bool) (m : option bool) : bool :=
  critical || negb (inclusion_eqb m (Some true)).

(** [modifier.damageType ??= base.damageType]. *)
Definition withDamageType (base : BaseDamageData) (modifier : ModifierPF2e)
    : ModifierPF2e :=
  {| mod_label := mod_label modifier;
     mod_value := mod_value modifier;
     mod_damageType :=
       Some (default (base_damageType base) (mod_damageType modifier));
     mod_damageCategory := mod_damageCategory modifier;
     mod_critical := mod_critical modifier;
     mod_enabled := mod_enabled modifier |}.

(** The enabled modifiers that are compatible with the outcome. *)
Definition selectModifiers (critical : bool) (base : BaseDamageData)
    (modifiers : list ModifierPF2e) : list ModifierPF2e :=
  flat_map
    (fun modifier =>
       let modifier := withDamageType base modifier in
       if outcomeMatches critical (mod_critical modifier) then [modifier]
       else [])
    (List.filter mod_enabled modifiers).

Definition modifierPartial (modifier : ModifierPF2e) : DamagePartial :=
  {| label :=
       mod_label modifier +:+ " "
       +:+ (if mod_value modifier <? 0 then "" else "+")
       +:+ numberToString (mod_value modifier);
     dice := None;
     modifier := mod_value modifier;
     category := mod_damageCategory modifier;
     critical := mod_critical modifier;
     materials := None |}.

(** One turn of the loop over the selected modifiers. *)
Definition addModifier (base : BaseDamageData) (typeMap : DamageTypeMap)
    (modifier : ModifierPF2e) : DamageTypeMap :=
  let damageType := default (base_damageType base) (mod_damageType modifier) in
  pushPartial damageType (modifierPartial modifier) typeMap.

(** The type map of a definition: the base damage, then the enabled dice,
    then the selected modifiers. *)
Definition buildTypeMap (critical : bool) (damage : DamageFormulaData)
    : DamageTypeMap :=
  let base := dmg_base damage in
  let typeMap := baseTypeMap base in
  let typeMap :=
    fold_left (addDice base) (List.filter dice_enabled (dmg_dice damage))
      typeMap in
  fold_left (addModifier base)
    (selectModifiers critical base (dmg_modifiers damage)) typeMap.

(** ** The compiler *)

(** Modelled from the spec: [deepClone] is a global of the host
    application and absent from the sources; it yields "an independent
    copy" of the definition.  On immutable values the copy is the value
    itself; the store in which the copy is a new object is modelled in
    the section on repeated compilation. *)
Definition deepClone (damage : DamageFormulaData) : DamageFormulaData :=
  damage.

(** The definition that an ordinary failure compiles: splash still
    applies on a failure. *)
Definition splashOnly (damage : DamageFormulaData) : DamageFormulaData :=
  {| dmg_base := dmg_base damage;
     dmg_dice :=
       List.filter (fun d => category_eqb (dice_category d) (Some splash))
         (dmg_dice damage);
     dmg_modifiers :=
       List.filter (fun m => category_eqb (mod_damageCategory m) (Some splash))
         (dmg_modifiers damage) |}.

Section CreateDamageFormula.

Variable critRule : string.
Variable localizeDamageType : DamageType -> string.
Variable formatPersistentTooltip : string -> string.

(** The two runs over the type map, and the pooled formula. *)
Definition assemble (typeMap : DamageTypeMap) (degree : DegreeOfSuccessIndex)
    : AssembledFormula :=
  let instances :=
    instancesFromTypeMap critRule localizeDamageType formatPersistentTooltip
      typeMap degree false
    ++ instancesFromTypeMap critRule localizeDamageType
         formatPersistentTooltip typeMap degree true in
  let commaSeparated := join "," (map formula instances) in
  let breakdown := flat_map breakdown instances in
  {| formula := "{" +:+ commaSeparated +:+ "}"; breakdown := breakdown |}.

(** Convert the damage definition into a final formula, depending on
    whether the hit is a critical or not.  An absent [degree] is
    [DEGREE_OF_SUCCESS.SUCCESS]. *)
Definition createDamageFormula (damage : DamageFormulaData)
    (degree : option DegreeOfSuccessIndex) : option AssembledFormula :=
  let degree := default SUCCESS degree in
  let damage := deepClone damage in
  (* Handle critical failure not dealing damage, and splash still
     applying on a failure *)
  if degree_eqb degree CRITICAL_FAILURE then None
  else
    let damage :=
      if degree_eqb degree FAILURE then splashOnly damage else damage in
    let critical := degree_eqb degree CRITICAL_SUCCESS in
    Some (assemble (buildTypeMap critical damage) degree).

End CreateDamageFormula.

(** ** The store: a definition as an object with modifier objects *)

(** The compiler assigns to fields of the definition it works on and to
    the [damageType] field of its modifiers.  In the store a definition
    is an object that refers to its modifier objects by location, so
    that an assignment to a modifier is seen through every reference to
    it. *)
Definition loc : Type := positive.

Record DamageObject : Type := mkObject {
  obj_base : BaseDamageData;
  obj_dice : list DamageDicePF2e;
  obj_modifiers : list loc
}.

Record Store : Type := mkStore {
  definitions : gmap loc DamageObject;
  modifierObjects : gmap loc ModifierPF2e
}.

(** A computation on the store; [None] is a reference to no object. *)
Definition Run (A : Type) : Type := Store -> option (A * Store).

Definition ret {A : Type} (a : A) : Run A := fun s => Some (a, s).

Definition bind {A B : Type} (m : Run A) (k : A -> Run B) : Run B :=
  fun s =>
    match m s with
    | Some (a, s') => k a s'
    | None => None
    end.

Notation "x <- m ;; k" := (bind m (fun x => k))
  (at level 100, m at next level, right associativity).

Definition loadDefinition (r : loc) : Run DamageObject :=
  fun s =>
    match definitions s !! r with
    | Some o => Some (o, s)
    | None => None
    end.

Definition storeDefinition (r : loc) (o : DamageObject) : Run unit :=
  fun s =>
    Some (tt, {| definitions := <[r:=o]> (definitions s);
                 modifierObjects := modifierObjects s |}).

Definition newDefinition (o : DamageObject) : Run loc :=
  fun s =>
    let r := fresh (dom (definitions s)) in
    Some (r, {| definitions := <[r:=o]> (definitions s);
                modifierObjects := modifierObjects s |}).

Definition loadModifier (l : loc) : Run ModifierPF2e :=
  fun s =>
    match modifierObjects s !! l with
    | Some m => Some (m, s)
    | None => None
    end.

Definition storeModifier (l : loc) (m : ModifierPF2e) : Run unit :=
  fun s =>
    Some (tt, {| definitions := definitions s;
                 modifierObjects := <[l:=m]> (modifierObjects s) |}).

Definition newModifier (m : ModifierPF2e) : Run loc :=
  fun s =>
    let l := fresh (dom (modifierObjects s)) in
    Some (l, {| definitions := definitions s;
                modifierObjects := <[l:=m]> (modifierObjects s) |}).

(** [Array.prototype.flatMap] with a callback that runs on the store;
    [map] and [filter] are the cases of a callback that returns one
    element, or one or none. *)
Fixpoint flatMapRun {A B : Type} (f : A -> Run (list B)) (l : list A)
    : Run (list B) :=
  match l with
  | [] => ret []
  | x :: l' =>
      ys <- f x ;;
      rest <- flatMapRun f l' ;;
      ret (ys ++ rest)
  end.

(** A [for ... of] loop that threads a value. *)
Fixpoint foldRun {A B : Type} (f : B -> A -> Run B) (l : list A) (b : B)
    : Run B :=
  match l with
  | [] => ret b
  | x :: l' => b' <- f b x ;; foldRun f l' b'
  end.

(** Modelled from the spec: [deepClone] is a global of the host
    application and absent from the sources; the compiler "must work on
    an independent copy": a new definition object whose modifiers are
    new objects with the fields of the original ones. *)
Definition deepCloneRun (damage : loc) : Run loc :=
  o <- loadDefinition damage ;;
  modifiers <-
    flatMapRun (fun l => m <- loadModifier l ;;
                         l' <- newModifier m ;;
                         ret [l'])
      (obj_modifiers o) ;;
  newDefinition {| obj_base := obj_base o;
                   obj_dice := obj_dice o;
                   obj_modifiers := modifiers |}.

Section CreateDamageFormulaRun.

Variable critRule : string.
Variable localizeDamageType : DamageType -> string.
Variable formatPersistentTooltip : string -> string.

(** [createDamageFormula] on the store, assignment by assignment. *)
Definition createDamageFormulaRun (damage : loc)
    (degree : option DegreeOfSuccessIndex) : Run (option AssembledFormula) :=
  let degree := default SUCCESS degree in
  damage <- deepCloneRun damage ;;
  if degree_eqb degree CRITICAL_FAILURE then ret None
  else
    _ <- (if degree_eqb degree FAILURE
          then
            o <- loadDefinition damage ;;
            modifiers <-
              flatMapRun
                (fun l =>
                   m <- loadModifier l ;;
                   ret (if category_eqb (mod_damageCategory m) (Some splash)
                        then [l] else []))
                (obj_modifiers o) ;;
            storeDefinition damage
              {| obj_base := obj_base o;
                 obj_dice :=
                   List.filter
                     (fun d => category_eqb (dice_category d) (Some splash))
                     (obj_dice o);
                 obj_modifiers := modifiers |}
          else ret tt) ;;
    let critical := degree_eqb degree CRITICAL_SUCCESS in
    o <- loadDefinition damage ;;
    let base := obj_base o in
    (* Group dice by damage type *)
    let typeMap := baseTypeMap base in
    (* Dice always stack *)
    let typeMap :=
      fold_left (addDice base) (List.filter dice_enabled (obj_dice o)) typeMap in
    enabled <-
      flatMapRun
        (fun l => m <- loadModifier l ;;
                  ret (if mod_enabled m then [l] else []))
        (obj_modifiers o) ;;
    modifiers <-
      flatMapRun
        (fun l =>
           m <- loadModifier l ;;
           _ <- storeModifier l (withDamageType base m) ;;
           m <- loadModifier l ;;
           ret (if outcomeMatches critical (mod_critical m) then [l] else []))
        enabled ;;
    typeMap <-
      foldRun
        (fun typeMap l => m <- loadModifier l ;;
                          ret (addModifier base typeMap m))
        modifiers typeMap ;;
    ret (Some (assemble critRule localizeDamageType formatPersistentTooltip
                 typeMap degree)).

End CreateDamageFormulaRun.

(** The definition that a location of the store stands for. *)
Definition snapshot (s : Store) (damage : loc) : option DamageFormulaData :=
  match definitions s !! damage with
  | Some o =>
      match mapM (fun l => modifierObjects s !! l) (obj_modifiers o) with
      | Some modifiers =>
          Some {| dmg_base := obj_base o;
                  dmg_dice := obj_dice o;
                  dmg_modifiers := modifiers |}
      | None => None
      end
  | None => None
  end.

(** ** The terms of a simple formula *)

(** What [parseTermsFromSimpleFormula] reads of a term of a roll: its
    [expression], and whether it is a [NumericTerm] with a [number] or a
    [Die] with [faces] and a [number].  [Roll], its terms and its parser
    are of the host application. *)
Inductive RollTermKind : Type :=
  | NumericTermKind (number : Z)
  | DieKind (faces number : Z)
  | OtherTermKind.

Record RollTerm : Type := mkRollTerm {
  roll_expression : string;
  roll_kind : RollTermKind
}.

(** The partial term that stands for a term of a roll. *)
Definition termPartial (term : RollTerm) : DamagePartialTerm :=
  {| term_modifier :=
       match roll_kind term with
       | NumericTermKind number => number
       | _ => 0
       end;
     term_dice :=
       match roll_kind term with
       | DieKind faces number => Some {| number := number; faces := faces |}
       | _ => None
       end |}.

(** [if (termToModify.modifier) termToModify.modifier *= -1;
     if (termToModify.dice) termToModify.dice.number *= -1]. *)
Definition negateTerm (termToModify : DamagePartialTerm) : DamagePartialTerm :=
  {| term_modifier :=
       if truthy (term_modifier termToModify)
       then term_modifier termToModify * -1
       else term_modifier termToModify;
     term_dice :=
       match term_dice termToModify with
       | Some d => Some {| number := number d * -1; faces := faces d |}
       | None => None
       end |}.

(** The callback of [reduceRight]: parse from right to left so that when
    we hit an operator, we already have the term. *)
Definition parseStep (term : RollTerm) (result : list DamagePartialTerm)
    : list DamagePartialTerm :=
  (* Ignore + terms, we assume + by default *)
  if String.eqb (roll_expression term) " + " then result
  (* - terms modify the last term we parsed *)
  else if String.eqb (roll_expression term) " - " then
    match result with
    | termToModify :: rest => negateTerm termToModify :: rest
    | [] => result
    end
  else termPartial term :: result.

(** Given the terms of a simple flavor-less formula with only +/-
    operators, returns a list of damage partial terms.  All subtracted
    terms become negative terms. *)
Definition parseTermsFromSimpleFormula (terms : list RollTerm)
    : list DamagePartialTerm :=
  fold_right parseStep [] terms.

(** * The migration of crafting entries *)

(** Convert crafting entry [requiredTraits] properties to be predicates. *)

(** ** Predicates *)

(** A statement of a predicate, as the migration writes them: a string,
    or the conjunction [{ and: [...] }] of strings. *)
Inductive PredicateStatement : Type :=
  | Atom (statement : string)
  | Conjunction (and : list string).

(** [RawPredicate], with the two fields that the migration fills. *)
Record RawPredicate : Type := mkRawPredicate {
  pred_all : option (list PredicateStatement);
  pred_any : option (list PredicateStatement)
}.

Definition munitionsCrafterPredicate : RawPredicate :=
  {| pred_all := Some [Atom "item:trait:alchemical"];
     pred_any := Some [Atom "item:trait:bomb"; Atom "item:subtype:ammo"] |}.

Definition generatePredicateFromRequiredTraits
    (requiredTraits : list (list string)) : RawPredicate :=
  if (length requiredTraits =? 1)%nat
  then
    {| pred_all :=
         Some (map (fun trait => Atom ("item:trait:" +:+ trait))
                 (nth 0 requiredTraits []));
       pred_any := None |}
  else
    {| pred_all := None;
       pred_any :=
         Some (map (fun traits =>
                      Conjunction
                        (map (fun trait => "item:trait:" +:+ trait) traits))
                 requiredTraits) |}.

(** ** Rule elements *)

(** The value of the [requiredTraits] property of a rule, when it has
    one: an array of arrays of traits, or anything that [Array.isArray]
    rejects. *)
Inductive RequiredTraitsValue : Type :=
  | TraitLists (lists : list (list string))
  | NotAnArray.

(** [PreparedFormulaData], which [ActorPreparedFormula] repeats. *)
Record PreparedFormulaData : Type := mkPreparedFormula {
  itemUUID : string;
  quantity : option Z;
  expended : option bool;
  isSignatureItem : option bool
}.

(** The source of a rule element, with the properties that the migration
    reads or writes.  [rule_path] is the [path] when it is a string;
    an absent property is [None]. *)
Record RuleSource : Type := mkRule {
  rule_key : string;
  rule_selector : option string;
  rule_requiredTraits : option RequiredTraitsValue;
  rule_craftableItems : option RawPredicate;
  rule_preparedFormulas : option (list PreparedFormulaData);
  rule_path : option string;
  rule_phase : option string
}.

(** ** [updateItem]: the rules of an item *)

(** The rules of an item are objects: the array [itemSource.system.rules]
    holds references, and the migration assigns to properties of the
    objects and replaces elements of the array. *)
Record ItemSource : Type := mkItemSource {
  item_objects : gmap loc RuleSource;
  item_rules : list loc
}.

(** [rule.key === "CraftingEntry" && Array.isArray(rule.requiredTraits)]. *)
Definition isCraftingEntryRule (rule : RuleSource) : bool :=
  String.eqb (rule_key rule) "CraftingEntry"
  && match rule_requiredTraits rule with
     | Some (TraitLists _) => true
     | _ => false
     end.

(** [r.key === "ActiveEffectLike" && typeof r.path === "string" &&
    r.path.startsWith("system.crafting.entries.")]. *)
Definition isCraftingEntryAELike (r : RuleSource) : bool :=
  String.eqb (rule_key r) "ActiveEffectLike"
  && match rule_path r with
     | Some path => String.prefix "system.crafting.entries." path
     | None => false
     end.

(** [rules.filter(test)], where the test reads the objects. *)
Fixpoint filterRules (test : RuleSource -> bool) (objects : gmap loc RuleSource)
    (rules : list loc) : option (list loc) :=
  match rules with
  | [] => Some []
  | l :: rest =>
      rule ← objects !! l;
      kept ← filterRules test objects rest;
      Some (if test rule then l :: kept else kept)
  end.

(** The value assigned to [craftableItems].  The operand
    [craftingEntryRule.requiredTraits || []] is an array or absent where
    it is read: the filter lets through arrays only, and the property is
    only ever deleted afterwards; no result stands for another value. *)
Definition craftableItemsOf (craftingEntryRule : RuleSource)
    : option RawPredicate :=
  if bool_decide (rule_selector craftingEntryRule = Some "munitionsCrafter")
  then Some munitionsCrafterPredicate
  else
    match rule_requiredTraits craftingEntryRule with
    | Some (TraitLists requiredTraits) =>
        Some (generatePredicateFromRequiredTraits requiredTraits)
    | None => Some (generatePredicateFromRequiredTraits [])
    | Some NotAnArray => None
    end.

(** [delete craftingEntryRule.requiredTraits]. *)
Definition deleteRequiredTraits (craftingEntryRule : RuleSource) : RuleSource :=
  {| rule_key := rule_key craftingEntryRule;
     rule_selector := rule_selector craftingEntryRule;
     rule_requiredTraits := None;
     rule_craftableItems := rule_craftableItems craftingEntryRule;
     rule_preparedFormulas := rule_preparedFormulas craftingEntryRule;
     rule_path := rule_path craftingEntryRule;
     rule_phase := rule_phase craftingEntryRule |}.

(** The callback of the first [map]. *)
Definition assignCraftableItems (craftingEntryRule : RuleSource)
    : option RuleSource :=
  craftableItems ← craftableItemsOf craftingEntryRule;
  Some (deleteRequiredTraits
          {| rule_key := rule_key craftingEntryRule;
             rule_selector := rule_selector craftingEntryRule;
             rule_requiredTraits := rule_requiredTraits craftingEntryRule;
             rule_craftableItems := Some craftableItems;
             rule_preparedFormulas := rule_preparedFormulas craftingEntryRule;
             rule_path := rule_path craftingEntryRule;
             rule_phase := rule_phase craftingEntryRule |}).

(** The callback of the second [map]:
    [craftingEntryAELike.phase = "afterDerived"]. *)
Definition assignPhase (craftingEntryAELike : RuleSource) : RuleSource :=
  {| rule_key := rule_key craftingEntryAELike;
     rule_selector := rule_selector craftingEntryAELike;
     rule_requiredTraits := rule_requiredTraits craftingEntryAELike;
     rule_craftableItems := rule_craftableItems craftingEntryAELike;
     rule_preparedFormulas := rule_preparedFormulas craftingEntryAELike;
     rule_path := rule_path craftingEntryAELike;
     rule_phase := Some "afterDerived" |}.

(** An assignment to the object at a location. *)
Definition modifyRule (f : RuleSource -> option RuleSource) (l : loc)
    (objects : gmap loc RuleSource) : option (gmap loc RuleSource) :=
  rule ← objects !! l;
  rule' ← f rule;
  Some (<[l := rule']> objects).

(** [rules.map(callback)] for a callback that assigns to its argument
    and returns it: the new array, and the objects after the
    assignments. *)
Fixpoint mapRules (f : RuleSource -> option RuleSource) (rules : list loc)
    (objects : gmap loc RuleSource)
    : option (list loc * gmap loc RuleSource) :=
  match rules with
  | [] => Some ([], objects)
  | l :: rest =>
      objects ← modifyRule f l objects;
      '(mapped, objects) ← mapRules f rest objects;
      Some (l :: mapped, objects)
  end.

(** [rules.indexOf(rule)]: the first index of the reference, or [-1]. *)
Fixpoint indexFrom (rule : loc) (rules : list loc) (index : Z) : Z :=
  match rules with
  | [] => -1
  | l :: rest =>
      if Pos.eqb l rule then index else indexFrom rule rest (index + 1)
  end.

Definition indexOf (rules : list loc) (rule : loc) : Z :=
  indexFrom rule rules 0.

(** [rules.splice(start, 1, item)]: a negative start counts from the end
    of the array. *)
Definition splice (rules : list loc) (start : Z) (item : loc) : list loc :=
  let len := Z.of_nat (length rules) in
  let actualStart :=
    if start <? 0 then Z.max (len + start) 0 else Z.min start len in
  take (Z.to_nat actualStart) rules
  ++ item :: drop (Z.to_nat actualStart + 1) rules.

(** The loop that puts the mapped rules back:
    [for (const rule of matching) { const index = rules.indexOf(rule);
    rules.splice(index, 1, mapped.shift()!); after(rule) }].  [shift]
    finds an element at every turn, the two arrays being of one length;
    no result stands for an empty [mapped]. *)
Fixpoint replaceRules (after : RuleSource -> option RuleSource)
    (matching mapped : list loc) (itemSource : ItemSource)
    : option ItemSource :=
  match matching with
  | [] => Some itemSource
  | rule :: rest =>
      match mapped with
      | [] => None
      | shifted :: mapped =>
          let index := indexOf (item_rules itemSource) rule in
          let rules := splice (item_rules itemSource) index shifted in
          objects ← modifyRule after rule (item_objects itemSource);
          replaceRules after rest mapped
            {| item_objects := objects; item_rules := rules |}
      end
  end.

Definition updateItem (itemSource : ItemSource) : option ItemSource :=
  let rules := item_rules itemSource in
  (* Change requiredTraits property to craftableItems predicate *)
  craftingEntryRules ←
    filterRules isCraftingEntryRule (item_objects itemSource) rules;
  '(newCraftingEntryRules, objects) ←
    mapRules assignCraftableItems craftingEntryRules
      (item_objects itemSource);
  itemSource ←
    replaceRules (fun rule => Some (deleteRequiredTraits rule))
      craftingEntryRules newCraftingEntryRules
      {| item_objects := objects; item_rules := rules |};
  (* Add "phase":"afterDerived" property to any AE-Likes targeting
     "system.crafting.entries" *)
  craftingEntryAELikes ←
    filterRules isCraftingEntryAELike (item_objects itemSource)
      (item_rules itemSource);
  '(newCraftingEntryAELikes, objects) ←
    mapRules (fun rule => Some (assignPhase rule)) craftingEntryAELikes
      (item_objects itemSource);
  replaceRules Some craftingEntryAELikes newCraftingEntryAELikes
    {| item_objects := objects; item_rules := item_rules itemSource |}.

(** ** [updateActor]: the crafting entries of a character *)

(** An entry of [actorData.system.crafting.entries], of which the
    migration reads [actorPreparedFormulas]. *)
Record CraftingEntryData : Type := mkCraftingEntry {
  actorPreparedFormulas : option (list PreparedFormulaData)
}.

(** The source of an actor: its type, the rules of its items, and
    [system.crafting] with the properties [entries] and ["-=entries"].
    The assignment to a rule depends on the selector of the rule and on
    the entries alone, and these are not assigned to while the rules are
    visited: the rules are values here. *)
Record ActorSource : Type := mkActorSource {
  actor_type : string;
  actor_items : list (list RuleSource);
  crafting_entries : option (gmap string CraftingEntryData);
  crafting_removeEntries : bool
}.

(** The names that every object answers, from [Object.prototype]; what
    they yield has no [actorPreparedFormulas]. *)
Definition inheritedProperty (name : string) : bool :=
  existsb (String.eqb name)
    ["constructor"; "hasOwnProperty"; "isPrototypeOf"; "propertyIsEnumerable";
     "toLocaleString"; "toString"; "valueOf"; "__proto__";
     "__defineGetter__"; "__defineSetter__"; "__lookupGetter__";
     "__lookupSetter__"].

(** [craftingEntries[selector].actorPreparedFormulas]: a [TypeError]
    when there are no entries, or nothing under this name. *)
Definition preparedFormulasOf
    (craftingEntries : option (gmap string CraftingEntryData))
    (selector : string) : option (option (list PreparedFormulaData)) :=
  entries ← craftingEntries;
  match entries !! selector with
  | Some entry => Some (actorPreparedFormulas entry)
  | None => if inheritedProperty selector then Some None else None
  end.

(** The callback of the inner [map]. *)
Definition assignPreparedFormulas
    (craftingEntries : option (gmap string CraftingEntryData))
    (rule : RuleSource) : option RuleSource :=
  match negb (String.eqb (rule_key rule) "CraftingEntry"),
        rule_selector rule with
  | false, Some selector =>
      preparedFormulas ← preparedFormulasOf craftingEntries selector;
      Some {| rule_key := rule_key rule;
              rule_selector := rule_selector rule;
              rule_requiredTraits := rule_requiredTraits rule;
              rule_craftableItems := rule_craftableItems rule;
              rule_preparedFormulas := preparedFormulas;
              rule_path := rule_path rule;
              rule_phase := rule_phase rule |}
  | _, _ => Some rule
  end.

Definition updateActor (actorData : ActorSource) : option ActorSource :=
  if String.eqb (actor_type actorData) "character"
  then
    let craftingEntries := crafting_entries actorData in
    items ←
      mapM (fun rules => mapM (assignPreparedFormulas craftingEntries) rules)
        (actor_items actorData);
    Some {| actor_type := actor_type actorData;
            actor_items := items;
            crafting_entries := None;
            crafting_removeEntries := true |}
  else Some actorData.

(** * The vocabulary of the properties *)

(** ** Type maps and categories *)

(** Every partial of a type map, type after type. *)
Definition allPartials (typeMap : DamageTypeMap) : list DamagePartial :=
  flat_map snd typeMap.

(** A partial is listed under a damage type. *)
Definition listedUnder (damageType : DamageType) (partial : DamagePartial)
    (typeMap : DamageTypeMap) : Prop :=
  exists l, mapGet String.eqb damageType typeMap = Some l /\ In partial l.

(** The definition without the enabled modifiers that apply on a critical
    success only. *)
Definition withoutCriticalOnlyModifiers (damage : DamageFormulaData)
    : DamageFormulaData :=
  {| dmg_base := dmg_base damage;
     dmg_dice := dmg_dice damage;
     dmg_modifiers :=
       List.filter (fun m => negb (inclusion_eqb (mod_critical m) (Some true)))
         (dmg_modifiers damage) |}.





(** A term has dice of a given number of faces. *)
Definition hasFaces (f : Z) (t : DamagePartialTerm) : bool :=
  match term_dice t with
  | Some d => faces d =? f
  | None => false
  end.

(** The sum of the dice numbers of the terms with dice of a given number
    of faces. *)
Definition summedCount (f : Z) (terms : list DamagePartialTerm) : Z :=
  sum (map (fun t => number (diceOf t)) (List.filter (hasFaces f) terms)).

(** A term without its dice when their number is not positive. *)
Definition withoutNonPositiveDice (t : DamagePartialTerm) : DamagePartialTerm :=
  if hasPositiveDice t then t
  else {| term_modifier := term_modifier t; term_dice := None |}.

(** The partials of one category, in the order of the list. *)
Definition ofCategory (c : DamageCategory) (partials : list DamagePartial)
    : list DamagePartial :=
  List.filter (fun p => category_eqb (category p) c) partials.

(** ** The grammar of the pooled formula *)

(** An expression of the dice-rolling engine, as the compiler writes it:
    dice [NdF], doubled dice [(NdF[doubled])], integer constants, sums
    and differences, a product by two, parenthesized sub-expressions, and
    the tags of precision and splash damage. *)
Inductive Expression : string -> Prop :=
  | ExprDice n f :
      0 < n -> 0 < f ->
      Expression (numberToString n +:+ "d" +:+ numberToString f)
  | ExprDoubled n f :
      0 < n -> 0 < f ->
      Expression ("(" +:+ numberToString n +:+ "d" +:+ numberToString f
                  +:+ "[doubled])")
  | ExprConstant n :
      0 <= n -> Expression (numberToString n)
  | ExprTwice e :
      Expression e -> Expression ("2 * " +:+ e)
  | ExprPlus a b :
      Expression a -> Expression b -> Expression (a +:+ " + " +:+ b)
  | ExprMinus a b :
      Expression a -> Expression b -> Expression (a +:+ " - " +:+ b)
  | ExprParen e :
      Expression e -> Expression ("(" +:+ e +:+ ")")
  | ExprTagged e c :
      Expression e -> c = precision \/ c = splash ->
      Expression (e +:+ "[" +:+ categoryName c +:+ "]").

(** A term of the pooled formula: an expression, optionally followed by a
    bracketed list of flavor tags separated by commas. *)
Inductive Term : string -> Prop :=
  | TermBare e : Expression e -> Term e
  | TermFlavored e tags :
      Expression e -> Term (e +:+ "[" +:+ join "," tags +:+ "]").

(** A pooled formula: terms separated by commas, between braces. *)
Definition PooledFormula (s : string) : Prop :=
  exists terms, Forall Term terms /\ s = "{" +:+ join "," terms +:+ "}".

(** A pooled formula with at least one term between the braces. *)
Definition InhabitedPooledFormula (s : string) : Prop :=
  exists term terms,
    Forall Term (term :: terms)
    /\ s = "{" +:+ join "," (term :: terms) +:+ "}".

(** The die of a term, when it has one, has a positive number of faces. *)
Definition facesPositive (t : DamagePartialTerm) : Prop :=
  match term_dice t with
  | Some d => 0 < faces d
  | None => True
  end.

(** A term that has passed the dice filter of the combiner. *)
Definition hasPositiveDie (t : DamagePartialTerm) : Prop :=
  match term_dice t with
  | Some d => 0 < faces d
  | None => False
  end.

(** A sub-expression that is absent or an expression. *)
Definition absentOrExpression (t : option string) : Prop :=
  match t with
  | Some s => Expression s
  | None => True
  end.

(** ** Stores *)

(** The modifier objects at a list of locations hold a list of values. *)
Definition holds (s : Store) (ls : list loc) (ms : list ModifierPF2e) : Prop :=
  Forall2 (fun l m => modifierObjects s !! l = Some m) ls ms.

(** Every object of a store is in another store, as it is. *)
Definition extends (s s' : Store) : Prop :=
  definitions s ⊆ definitions s' /\ modifierObjects s ⊆ modifierObjects s'.

(** ** Sample definitions *)

Module Examples.

(** A longsword with a deadly die and a bonus that applies on a
    critical hit only. *)
Definition deadly : DamageDicePF2e :=
  {| dice_label := "Deadly"; dice_diceNumber := 1; dice_dieSize := Some d10;
     dice_damageType := None; dice_category := None;
     dice_critical := Some true; dice_enabled := true |}.

Definition criticalBonus : ModifierPF2e :=
  {| mod_label := "Critical Specialization"; mod_value := 2;
     mod_damageType := None; mod_damageCategory := None;
     mod_critical := Some true; mod_enabled := true |}.

Definition longsword : DamageFormulaData :=
  {| dmg_base :=
       {| base_damageType := "slashing"; base_diceNumber := 1;
          base_dieSize := Some d8; base_modifier := 4;
          base_category := None; base_materials := None |};
     dmg_dice := [deadly];
     dmg_modifiers := [criticalBonus] |}.

Definition splashPartial : DamagePartial :=
  {| label := "Splash"; dice := None; modifier := 1;
     category := Some splash; critical := None; materials := None |}.

Definition plainPartial : DamagePartial :=
  {| label := "1d6"; dice := Some {| number := 1; faces := 6 |};
     modifier := 0; category := None; critical := None;
     materials := None |}.

(** Two dice of fire damage, a die of splash damage and a bonus. *)
Definition alchemistsFire : DamageFormulaData :=
  {| dmg_base :=
       {| base_damageType := "fire"; base_diceNumber := 2;
          base_dieSize := Some d6; base_modifier := 0;
          base_category := None; base_materials := None |};
     dmg_dice :=
       [ {| dice_label := "Splash"; dice_diceNumber := 1;
            dice_dieSize := Some d4; dice_damageType := Some "fire";
            dice_category := Some splash; dice_critical := None;
            dice_enabled := true |} ];
     dmg_modifiers :=
       [ {| mod_label := "Bonus"; mod_value := 3;
            mod_damageType := Some "fire"; mod_damageCategory := None;
            mod_critical := None; mod_enabled := true |} ] |}.

(** A store that holds the longsword at location 1, its modifier at
    location 1 of the modifier objects. *)
Definition store : Store :=
  {| definitions :=
       {[ 1%positive :=
            {| obj_base := dmg_base longsword;
               obj_dice := dmg_dice longsword;
               obj_modifiers := [1%positive] |} ]};
     modifierObjects := {[ 1%positive := criticalBonus ]} |}.

End Examples.

(** ** Dice groups and their order *)

(** The number of faces and the number of dice of a combined term. *)
Definition diceGroup (t : DamagePartialTerm) : Z * Z :=
  (faces (diceOf t), number (diceOf t)).

(** The constant of a list of terms: the total of their modifiers. *)
Definition constantOf (terms : list DamagePartialTerm) : Z :=
  fold_left (fun total p => total + term_modifier p) terms 0.

(** A term of a roll is one of the two operators that the parser reads. *)
Definition isSignOperator (term : RollTerm) : bool :=
  String.eqb (roll_expression term) " + "
  || String.eqb (roll_expression term) " - ".

Definition isMinusOperator (term : RollTerm) : bool :=
  String.eqb (roll_expression term) " - ".

(** The groups of dice that [combinePartialTerms] builds: the constant
    [byFace] with the keys of the map. *)
Definition diceGroups (terms : list DamagePartialTerm)
    : JsMap Z (list DamagePartialTerm) :=
  groupBy Z.eqb
    (sortBy (fun t => - faces (diceOf t)) (List.filter hasPositiveDice terms))
    (fun t => faces (diceOf t)).

(** The dice-expression string of a number of faces and a number of
    dice. *)
Definition renderGroup (doubleDice : bool) (g : Z * Z) : string :=
  let number := if doubleDice then snd g * 2 else snd g in
  if doubleDice
  then "(" +:+ numberToString number +:+ "d" +:+ numberToString (fst g)
       +:+ "[doubled])"
  else numberToString number +:+ "d" +:+ numberToString (fst g).

(** ** Sums and heads *)

(** The terms of a sum that are neither null nor empty. *)
Definition truthyStrings (terms : list (option string)) : list string :=
  flat_map (fun p : option string =>
              match p with
              | Some s => if nonEmpty s then [s] else []
              | None => []
              end) terms.

(** ** Entries that take part in a compilation *)

(** A dice entry that the loop over the dice enters into the type map. *)
Definition contributes (base : BaseDamageData) (d : DamageDicePF2e) : bool :=
  dice_enabled d && (0 <? dice_diceNumber d)
  && match resolvedDieSize base d with Some _ => true | None => false end.

(** The definition without the entries that are disabled, and without
    the dice that have no positive number or no die size. *)
Definition effective (damage : DamageFormulaData) : DamageFormulaData :=
  {| dmg_base := dmg_base damage;
     dmg_dice := List.filter (contributes (dmg_base damage)) (dmg_dice damage);
     dmg_modifiers := List.filter mod_enabled (dmg_modifiers damage) |}.

(** What every turn of the two loops over dice and modifiers keeps: a
    damage type is listed once, with a list that is not empty. *)
Definition wellKeyed (typeMap : DamageTypeMap) : Prop :=
  NoDup (map fst typeMap) /\ Forall (fun entry => snd entry <> []) typeMap.

(** ** The partials of a breakdown *)

(** The partials of a damage type that a run over the type map takes:
    the persistent ones, or the others. *)
Definition partialsOfRun (persistent' : bool)
    (typePartials : list DamagePartial) : list DamagePartial :=
  List.filter
    (fun p => Bool.eqb (category_eqb (category p) (Some persistent)) persistent')
    typePartials.

(** The partials that a breakdown lists: all of them on a critical
    success, and otherwise those that are not specific to critical
    hits. *)
Definition listedInBreakdown (degree : DegreeOfSuccessIndex)
    (partials : list DamagePartial) : list DamagePartial :=
  List.filter
    (fun p => degree_eqb degree CRITICAL_SUCCESS || negb (isCriticalOnly p))
    partials.

(** ** The compiler in the words of the specification *)

(** The definitions of this part are written from the description of
    the compiler, stage by stage, and not from its code: lists of
    partials and filters instead of maps, one function for each
    sentence.  The properties compare the compiler with them. *)

(** *** The dice/modifier combiner *)

(** The dice of the partials whose own number of dice is positive. *)
Definition positiveDiceOf (terms : list DamagePartialTerm) : list DiceSpec :=
  flat_map (fun t => match term_dice t with
                     | Some d => if 0 <? number d then [d] else []
                     | None => []
                     end) terms.

(** A number of faces entered into a list of numbers of faces that
    descends strictly. *)
Fixpoint insertFace (f : Z) (l : list Z) : list Z :=
  match l with
  | [] => [f]
  | g :: l' =>
      if g <? f then f :: l
      else if g =? f then l
      else g :: insertFace f l'
  end.

(** The numbers of faces of some dice, each once, the largest first. *)
Definition facesDescending (dice : list DiceSpec) : list Z :=
  fold_right insertFace [] (map faces dice).

(** The number of the dice of a given number of faces. *)
Definition countOfFaces (f : Z) (dice : list DiceSpec) : Z :=
  fold_right Z.add 0 (map number (List.filter (fun d => faces d =? f) dice)).

(** "Group dice partials by face count; within a face count, sum dice
    counts; sort dice groups by descending face count": the groups as
    pairs of a number of faces and a number of dice, for the dice whose
    own number is positive. *)
Definition diceTotals (terms : list DamagePartialTerm) : list (Z * Z) :=
  let dice := positiveDiceOf terms in
  map (fun f => (f, countOfFaces f dice)) (facesDescending dice).

(** "Sum all flat modifiers into one signed constant." *)
Definition totalModifier (terms : list DamagePartialTerm) : Z :=
  fold_right Z.add 0 (map term_modifier terms).

(** "Render the constant as [Math.abs(value)], doubled to [2 * value]
    when dice-doubling mode is active." *)
Definition renderConstant (doubleDice : bool) (constant : Z) : string :=
  if doubleDice then "2 * " +:+ numberToString (Z.abs constant)
  else numberToString (Z.abs constant).

(** "Join dice-term and constant with [+] if the constant is positive,
    [-] if negative; omit either side if absent; an empty result is the
    empty string." *)
Definition expectedCombination (terms : list DamagePartialTerm)
    (doubleDice : bool) : string :=
  let dice := map (renderGroup doubleDice) (diceTotals terms) in
  let constant := totalModifier terms in
  match dice with
  | [] => if constant =? 0 then "" else renderConstant doubleDice constant
  | _ :: _ =>
      if constant =? 0 then join " + " dice
      else join " + " dice +:+ (if 0 <? constant then " + " else " - ")
           +:+ renderConstant doubleDice constant
  end.

(** *** The category assembler *)

(** The partials of a category that an inclusion set admits. *)
Definition admittedPartials (inclusion : list CriticalInclusion)
    (c : DamageCategory) (partials : list DamagePartial)
    : list DamagePartial :=
  List.filter (fun p => includes inclusion (critical p)) (ofCategory c partials).

(** An expression, in parentheses when it holds an operator. *)
Definition parenthesizedIfOperator (e : string) : string :=
  if hasOperators (Some e) then "(" +:+ e +:+ ")" else e.

(** The term of a category: the combination of its admitted partials;
    for precision and splash in parentheses when it holds an operator,
    and followed by the tag of the category. *)
Definition expectedFragment (partials : list DamagePartial)
    (inclusion : list CriticalInclusion) (doubleDice : bool)
    (c : DamageCategory) : string :=
  let combined :=
    expectedCombination (map partialTerm (admittedPartials inclusion c partials))
      doubleDice in
  match c with
  | None | Some persistent => combined
  | Some tagged =>
      if nonEmpty combined
      then parenthesizedIfOperator combined
           +:+ "[" +:+ categoryName tagged +:+ "]"
      else ""
  end.

(** The terms of the four categories in the fixed order, the empty ones
    left out. *)
Definition expectedFragments (partials : list DamagePartial)
    (inclusion : list CriticalInclusion) (doubleDice : bool) : list string :=
  List.filter nonEmpty
    (map (expectedFragment partials inclusion doubleDice)
       [None; Some persistent; Some precision; Some splash]).

(** The sum of some summands, when there is one. *)
Definition sumOf (summands : list string) : option string :=
  match summands with
  | [] => None
  | _ :: _ => Some (join " + " summands)
  end.

(** The product of two by an expression. *)
Definition twice (e : string) : string := "2 * " +:+ parenthesizedIfOperator e.

(** The non-critical sub-expression.  On a critical success it admits
    the partials that are doubled, and doubles them: term by term under
    the rule of the game that doubles the dice, and else as a whole. *)
Definition expectedNonCritical (critRule : string)
    (degree : DegreeOfSuccessIndex) (partials : list DamagePartial)
    : option string :=
  match degree with
  | CRITICAL_SUCCESS =>
      if String.eqb critRule "doubledice"
      then sumOf (expectedFragments partials [DOUBLE_ON_CRIT] true)
      else option_map twice
             (sumOf (expectedFragments partials [DOUBLE_ON_CRIT] false))
  | _ =>
      sumOf (expectedFragments partials
               [DOUBLE_ON_CRIT; DONT_DOUBLE_ON_CRIT] false)
  end.

(** The critical-only sub-expression, on a critical success: it is
    never doubled. *)
Definition expectedCritical (degree : DegreeOfSuccessIndex)
    (partials : list DamagePartial) : option string :=
  match degree with
  | CRITICAL_SUCCESS =>
      sumOf (expectedFragments partials
               [CRITICAL_ONLY; DONT_DOUBLE_ON_CRIT] false)
  | _ => None
  end.

(** *** The expression finalizer *)

(** The sub-expressions that are there. *)
Definition present (expressions : list (option string)) : list string :=
  flat_map (fun e => match e with Some s => [s] | None => [] end) expressions.

(** The expression of a damage type and a run: the non-critical
    sub-expression, then the critical-only one. *)
Definition expectedExpression (critRule : string)
    (degree : DegreeOfSuccessIndex) (partials : list DamagePartial)
    : option string :=
  sumOf (present [expectedNonCritical critRule degree partials;
                  expectedCritical degree partials]).

(** The term of a damage type in a run: the expression behind a valid
    head, followed by the flavor. *)
Definition expectedTerm (critRule : string) (degree : DegreeOfSuccessIndex)
    (persistent' : bool) (entry : DamageType * list DamagePartial)
    : list string :=
  match ensureValidFormulaHead
          (expectedExpression critRule degree
             (partialsOfRun persistent' (snd entry))) with
  | Some head => [head +:+ flavor (fst entry) (snd entry) persistent']
  | None => []
  end.

(** The partials in the order of the categories. *)
Definition byCategory (partials : list DamagePartial) : list DamagePartial :=
  ofCategory None partials ++ ofCategory (Some persistent) partials
  ++ ofCategory (Some precision) partials
  ++ ofCategory (Some splash) partials.

(** The partials that a breakdown lists, in its order: those that are
    not critical-only in the order of the categories; on a critical
    success the critical-only ones after them. *)
Definition expectedListed (degree : DegreeOfSuccessIndex)
    (partials : list DamagePartial) : list DamagePartial :=
  List.filter (fun p => negb (isCriticalOnly p)) (byCategory partials)
  ++ match degree with
     | CRITICAL_SUCCESS => List.filter isCriticalOnly (byCategory partials)
     | _ => []
     end.

(** The labels of a damage type in a run, when it has a term. *)
Definition expectedLabels (critRule : string)
    (localizeDamageType : DamageType -> string)
    (formatPersistentTooltip : string -> string)
    (degree : DegreeOfSuccessIndex) (persistent' : bool)
    (entry : DamageType * list DamagePartial) : list string :=
  match expectedExpression critRule degree
          (partialsOfRun persistent' (snd entry)),
        expectedListed degree (partialsOfRun persistent' (snd entry)) with
  | Some _, first :: rest =>
      (stripLeadingPlus (label first) +:+ " "
       +:+ (if persistent'
            then formatPersistentTooltip (localizeDamageType (fst entry))
            else localizeDamageType (fst entry)))
      :: map label rest
  | _, _ => []
  end.

(** *** The formula aggregator *)

(** The terms of the pooled formula: the damage types in the order of
    the type map, first without their persistent partials, then with
    these alone. *)
Definition expectedTerms (critRule : string) (degree : DegreeOfSuccessIndex)
    (typeMap : DamageTypeMap) : list string :=
  flat_map (expectedTerm critRule degree false) typeMap
  ++ flat_map (expectedTerm critRule degree true) typeMap.

Definition expectedResult (critRule : string)
    (localizeDamageType : DamageType -> string)
    (formatPersistentTooltip : string -> string)
    (degree : DegreeOfSuccessIndex) (typeMap : DamageTypeMap)
    : AssembledFormula :=
  {| formula := "{" +:+ join "," (expectedTerms critRule degree typeMap) +:+ "}";
     breakdown :=
       flat_map (expectedLabels critRule localizeDamageType
                   formatPersistentTooltip degree false) typeMap
       ++ flat_map (expectedLabels critRule localizeDamageType
                      formatPersistentTooltip degree true) typeMap |}.

(** *** The amounts of a damage type *)

(** The inclusion sets of the sub-expressions of an outcome. *)
Definition inclusionSets (degree : DegreeOfSuccessIndex)
    : list (list CriticalInclusion) :=
  match degree with
  | CRITICAL_SUCCESS =>
      [[DOUBLE_ON_CRIT]; [CRITICAL_ONLY; DONT_DOUBLE_ON_CRIT]]
  | _ => [[DOUBLE_ON_CRIT; DONT_DOUBLE_ON_CRIT]]
  end.

(** The partials of a category that an inclusion set admits have dice
    of a positive number, or modifiers whose total is not zero. *)
Definition hasAmount (inclusion : list CriticalInclusion) (c : DamageCategory)
    (partials : list DamagePartial) : Prop :=
  positiveDiceOf (map partialTerm (admittedPartials inclusion c partials)) <> []
  \/ totalModifier (map partialTerm (admittedPartials inclusion c partials))
     <> 0.

(** *** The grammar of the formula, as it is stated *)

(** "An additive expression of NdF, (NdF[doubled]), integer constants,
    and parenthesized sub-sums", to which the two flags add the product
    of two by an expression and the tags of precision and splash
    damage. *)
Inductive ExpressionOf (products tags : bool) : string -> Prop :=
  | OfDice n f :
      0 < n -> 0 < f ->
      ExpressionOf products tags
        (numberToString n +:+ "d" +:+ numberToString f)
  | OfDoubled n f :
      0 < n -> 0 < f ->
      ExpressionOf products tags
        ("(" +:+ numberToString n +:+ "d" +:+ numberToString f
         +:+ "[doubled])")
  | OfConstant n : ExpressionOf products tags (numberToString n)
  | OfTwice e :
      products = true -> ExpressionOf products tags e ->
      ExpressionOf products tags ("2 * " +:+ e)
  | OfPlus a b :
      ExpressionOf products tags a -> ExpressionOf products tags b ->
      ExpressionOf products tags (a +:+ " + " +:+ b)
  | OfMinus a b :
      ExpressionOf products tags a -> ExpressionOf products tags b ->
      ExpressionOf products tags (a +:+ " - " +:+ b)
  | OfParen e :
      ExpressionOf products tags e ->
      ExpressionOf products tags ("(" +:+ e +:+ ")")
  | OfTagged e c :
      tags = true -> ExpressionOf products tags e ->
      c = precision \/ c = splash ->
      ExpressionOf products tags (e +:+ "[" +:+ categoryName c +:+ "]").

(** A term: an expression, "optionally suffixed by a bracketed
    comma-separated flavor tag". *)
Inductive TermOf (products tags : bool) : string -> Prop :=
  | OfBare e : ExpressionOf products tags e -> TermOf products tags e
  | OfFlavored e flavors :
      ExpressionOf products tags e ->
      TermOf products tags (e +:+ "[" +:+ join "," flavors +:+ "]").

(** Terms separated by commas, between braces; there may be none. *)
Definition PooledOf (products tags : bool) (s : string) : Prop :=
  exists terms,
    Forall (TermOf products tags) terms
    /\ s = "{" +:+ join "," terms +:+ "}".

(** No asterisk comes before the first opening bracket of a string. *)
Fixpoint noProductBeforeBracket (s : string) : bool :=
  match s with
  | EmptyString => true
  | String c s' =>
      if (c =? "[")%char then true
      else if (c =? "*")%char then false
      else noProductBeforeBracket s'
  end.

(** The first opening bracket of a string, when it has one, is outside
    of all parentheses or opens the marker of a doubled die. *)
Fixpoint firstBracketIsFlavor (depth : nat) (s : string) : bool :=
  match s with
  | EmptyString => true
  | String c s' =>
      if (c =? "[")%char then (depth =? 0)%nat || String.prefix "doubled]" s'
      else if (c =? "(")%char then firstBracketIsFlavor (S depth) s'
      else if (c =? ")")%char then firstBracketIsFlavor (pred depth) s'
      else firstBracketIsFlavor depth s'
  end.

(** Any character but an asterisk. *)
Definition isNotAsterisk (c : ascii) : bool := negb (c =? "*")%char.

(** Any character but a bracket that opens and the two parentheses. *)
Definition isNotGrouping (c : ascii) : bool :=
  negb ((c =? "[") || (c =? "(") || (c =? ")"))%char.

(** The grammar as the specification states it: neither products nor
    category tags, and at least one term between the braces. *)
Definition StatedFormula (s : string) : Prop :=
  exists term terms,
    Forall (TermOf false false) (term :: terms)
    /\ s = "{" +:+ join "," (term :: terms) +:+ "}".

(** ** The migration of one rule *)

(** What the first block of [updateItem] makes of a rule. *)
Definition migratedCraftingEntry (rule : RuleSource) : RuleSource :=
  if isCraftingEntryRule rule
  then default rule (assignCraftableItems rule)
  else rule.

(** What [updateItem] makes of a rule: the first block, then the
    second. *)
Definition migrated (rule : RuleSource) : RuleSource :=
  let rule := migratedCraftingEntry rule in
  if isCraftingEntryAELike rule then assignPhase rule else rule.

(** The objects after an assignment to each of the listed objects, once. *)
Definition assignedOnce (f : RuleSource -> option RuleSource)
    (listed : list loc) (objects objects' : gmap loc RuleSource) : Prop :=
  (forall l, In l listed -> objects' !! l = objects !! l ≫= f)
  /\ (forall l, ~ In l listed -> objects' !! l = objects !! l).

(** ** The rules of an actor *)

(** An item of the actor has a rule with the key ["CraftingEntry"] and
    this selector. *)
Definition hasCraftingEntryRule (actorData : ActorSource) (selector : string)
    : Prop :=
  exists rules rule,
    In rules (actor_items actorData) /\ In rule rules
    /\ rule_key rule = "CraftingEntry"
    /\ rule_selector rule = Some selector.

(** ** Further sample definitions *)

Module Samples.

(** The terms of [2d6 - 3]. *)
Definition twoDiceSix : RollTerm :=
  {| roll_expression := "2d6"; roll_kind := DieKind 6 2 |}.

Definition plus : RollTerm :=
  {| roll_expression := " + "; roll_kind := OtherTermKind |}.

Definition minus : RollTerm :=
  {| roll_expression := " - "; roll_kind := OtherTermKind |}.

Definition three : RollTerm :=
  {| roll_expression := "3"; roll_kind := NumericTermKind 3 |}.

(** Partial terms: a die, two dice of more faces, and a penalty. *)
Definition oneDieSix : DamagePartialTerm :=
  {| term_modifier := 0; term_dice := Some {| number := 1; faces := 6 |} |}.

Definition twoDiceEight : DamagePartialTerm :=
  {| term_modifier := 0; term_dice := Some {| number := 2; faces := 8 |} |}.

Definition penalty : DamagePartialTerm :=
  {| term_modifier := -1; term_dice := None |}.

(** A crafting entry with required traits, and a rule that targets the
    crafting entries. *)
Definition bomberEntry : RuleSource :=
  {| rule_key := "CraftingEntry"; rule_selector := Some "bomber";
     rule_requiredTraits := Some (TraitLists [["alchemical"; "bomb"]]);
     rule_craftableItems := None; rule_preparedFormulas := None;
     rule_path := None; rule_phase := None |}.

Definition bomberSlots : RuleSource :=
  {| rule_key := "ActiveEffectLike"; rule_selector := None;
     rule_requiredTraits := None; rule_craftableItems := None;
     rule_preparedFormulas := None;
     rule_path := Some "system.crafting.entries.bomber.maxSlots";
     rule_phase := None |}.

Definition feat : ItemSource :=
  {| item_objects := {[ 1%positive := bomberEntry; 2%positive := bomberSlots ]};
     item_rules := [1%positive; 2%positive] |}.

Definition preparedBomb : PreparedFormulaData :=
  {| itemUUID := "Compendium.pf2e.equipment-srd.Item.alchemists-fire";
     quantity := Some 2; expended := None; isSignatureItem := None |}.

Definition alchemist : ActorSource :=
  {| actor_type := "character";
     actor_items := [[bomberEntry; bomberSlots]];
     crafting_entries :=
       Some {[ "bomber" :=
                 {| actorPreparedFormulas := Some [preparedBomb] |} ]};
     crafting_removeEntries := false |}.

Definition migratedAlchemist : ActorSource :=
  {| actor_type := "character";
     actor_items :=
       [[ {| rule_key := "CraftingEntry"; rule_selector := Some "bomber";
             rule_requiredTraits :=
               Some (TraitLists [["alchemical"; "bomb"]]);
             rule_craftableItems := None;
             rule_preparedFormulas := Some [preparedBomb];
             rule_path := None; rule_phase := None |};
          bomberSlots ]];
     crafting_entries := None;
     crafting_removeEntries := true |}.

(** A die of splash damage, and a die of precision damage that applies
    on a critical hit only. *)
Definition sneakySplash : DamageFormulaData :=
  {| dmg_base :=
       {| base_damageType := "fire"; base_diceNumber := 0;
          base_dieSize := None; base_modifier := 0;
          base_category := None; base_materials := None |};
     dmg_dice :=
       [ {| dice_label := "Splash"; dice_diceNumber := 1;
            dice_dieSize := Some d4; dice_damageType := None;
            dice_category := Some splash; dice_critical := None;
            dice_enabled := true |};
         {| dice_label := "Sneak"; dice_diceNumber := 1;
            dice_dieSize := Some d6; dice_damageType := None;
            dice_category := Some precision; dice_critical := Some true;
            dice_enabled := true |} ];
     dmg_modifiers := [] |}.

(** A definition with no damage at all. *)
Definition nothing : DamageFormulaData :=
  {| dmg_base :=
       {| base_damageType := "untyped"; base_diceNumber := 0;
          base_dieSize := None; base_modifier := 0;
          base_category := None; base_materials := None |};
     dmg_dice := []; dmg_modifiers := [] |}.

End Samples.

(** * Properties *)

(** ** The type map *)

Lemma category_eqb_spec a b : category_eqb a b = true <-> a = b.
Proof.
  destruct a as [[]|], b as [[]|]; simpl; split; congruence.
Qed.

Lemma pushPartial_nil damageType partial :
  pushPartial damageType partial [] = [(damageType, [partial])].
Proof. reflexivity. Qed.

Lemma pushPartial_cons damageType partial k v typeMap :
  pushPartial damageType partial ((k, v) :: typeMap) =
  if String.eqb k damageType then (k, v ++ [partial]) :: typeMap
  else (k, v) :: pushPartial damageType partial typeMap.
Proof.
  unfold pushPartial; simpl.
  destruct (String.eqb k damageType); reflexivity.
Qed.

Lemma Forall_pushPartial (P : DamagePartial -> Prop) damageType partial typeMap :
  Forall P (allPartials (pushPartial damageType partial typeMap)) <->
  P partial /\ Forall P (allPartials typeMap).
Proof.
  induction typeMap as [|[k v] typeMap IH].
  - rewrite pushPartial_nil. unfold allPartials; simpl.
    rewrite Forall_cons. tauto.
  - rewrite pushPartial_cons. destruct (String.eqb k damageType).
    + unfold allPartials; simpl. rewrite !Forall_app, Forall_singleton. tauto.
    + unfold allPartials in *; simpl. rewrite !Forall_app, IH. tauto.
Qed.

Lemma Forall_baseTypeMap (P : DamagePartial -> Prop) base :
  P (basePartial base) -> Forall P (allPartials (baseTypeMap base)).
Proof.
  intros HP. unfold baseTypeMap.
  destruct (_ || _); unfold allPartials; simpl; auto.
Qed.

Lemma Forall_addDice (P : DamagePartial -> Prop) base :
  forall l typeMap,
    Forall (fun d => forall s, P (dicePartial d s)) l ->
    Forall P (allPartials typeMap) ->
    Forall P (allPartials (fold_left (addDice base) l typeMap)).
Proof.
  induction l as [|d l IH]; intros typeMap Hl Hm; simpl; auto.
  apply Forall_cons in Hl as [Hd Hl].
  apply IH; auto. unfold addDice.
  destruct (resolvedDieSize base d); auto.
  destruct (0 <? dice_diceNumber d); auto.
  apply Forall_pushPartial; auto.
Qed.

Lemma Forall_addModifier (P : DamagePartial -> Prop) base :
  forall l typeMap,
    Forall (fun m => P (modifierPartial m)) l ->
    Forall P (allPartials typeMap) ->
    Forall P (allPartials (fold_left (addModifier base) l typeMap)).
Proof.
  induction l as [|m l IH]; intros typeMap Hl Hm; simpl; auto.
  apply Forall_cons in Hl as [Hm0 Hl].
  apply IH; auto. unfold addModifier. apply Forall_pushPartial; auto.
Qed.

Lemma selectModifiers_spec critical base modifiers m :
  In m (selectModifiers critical base modifiers) <->
  exists m0, In m0 modifiers /\ mod_enabled m0 = true
             /\ outcomeMatches critical (mod_critical m0) = true
             /\ m = withDamageType base m0.
Proof.
  unfold selectModifiers. rewrite in_flat_map. split.
  - intros (m0 & Hin & Hm). apply filter_In in Hin as [Hin Hen].
    simpl in Hm. destruct (outcomeMatches _ _) eqn:Ho; simpl in Hm; [|tauto].
    destruct Hm as [<-|[]]. eauto.
  - intros (m0 & Hin & Hen & Ho & ->). exists m0. split.
    + apply filter_In; auto.
    + simpl. rewrite Ho. simpl; auto.
Qed.

(** ** The outcome gate *)

Section OutcomeGate.

Variable critRule : string.
Variable localizeDamageType : DamageType -> string.
Variable formatPersistentTooltip : string -> string.

Lemma splashOnly_idem damage : splashOnly (splashOnly damage) = splashOnly damage.
Proof.
  unfold splashOnly; simpl. f_equal.
  - induction (dmg_dice damage) as [|d l IH]; simpl; auto.
    destruct (category_eqb _ _) eqn:E; simpl; rewrite ?E, ?IH; auto.
  - induction (dmg_modifiers damage) as [|d l IH]; simpl; auto.
    destruct (category_eqb _ _) eqn:E; simpl; rewrite ?E, ?IH; auto.
Qed.

(** C1: at the ordinary-failure outcome the dice and modifier lists are
    filtered down to exactly the entries of category [splash] before
    the type map is built, the base damage is kept as it is, the
    compiled result is the one of the filtered definition, and every
    partial that enters the type map is the base partial or a partial
    of category [splash]. *)
Theorem failure_keeps_splash_and_base damage :
  createDamageFormula critRule localizeDamageType formatPersistentTooltip
    damage (Some FAILURE)
  = Some (assemble critRule localizeDamageType formatPersistentTooltip
            (buildTypeMap false (splashOnly damage)) FAILURE)
  /\ createDamageFormula critRule localizeDamageType formatPersistentTooltip
       damage (Some FAILURE)
     = createDamageFormula critRule localizeDamageType formatPersistentTooltip
         (splashOnly damage) (Some FAILURE)
  /\ dmg_base (splashOnly damage) = dmg_base damage
  /\ (forall d, In d (dmg_dice (splashOnly damage)) <->
                In d (dmg_dice damage) /\ dice_category d = Some splash)
  /\ (forall m, In m (dmg_modifiers (splashOnly damage)) <->
                In m (dmg_modifiers damage)
                /\ mod_damageCategory m = Some splash)
  /\ Forall (fun p => p = basePartial (dmg_base damage)
                      \/ category p = Some splash)
       (allPartials (buildTypeMap false (splashOnly damage))).
Proof.
  repeat split.
  - unfold createDamageFormula, deepClone; simpl.
    now rewrite splashOnly_idem.
  - simpl in H. apply filter_In in H. tauto.
  - simpl in H. apply filter_In in H. apply category_eqb_spec. tauto.
  - intros [H1 H2]. simpl. apply filter_In. split; auto.
    now apply category_eqb_spec.
  - simpl in H. apply filter_In in H. tauto.
  - simpl in H. apply filter_In in H. apply category_eqb_spec. tauto.
  - intros [H1 H2]. simpl. apply filter_In. split; auto.
    now apply category_eqb_spec.
  - unfold buildTypeMap; simpl.
    apply Forall_addModifier.
    + apply List.Forall_forall. intros m Hm.
      apply selectModifiers_spec in Hm as (m0 & Hin & _ & _ & ->).
      apply filter_In in Hin as [_ Hc]. apply category_eqb_spec in Hc.
      right. exact Hc.
    + apply Forall_addDice.
      * apply List.Forall_forall. intros d Hd s.
        apply filter_In in Hd as [Hd _]. apply filter_In in Hd as [_ Hc].
        apply category_eqb_spec in Hc. right. exact Hc.
      * apply Forall_baseTypeMap. now left.
Qed.

(** C2: compiling at critical failure returns null, whatever the
    definition, and no other outcome returns null. *)
Theorem null_exactly_on_critical_failure damage degree :
  createDamageFormula critRule localizeDamageType formatPersistentTooltip
    damage (Some degree) = None <-> degree = CRITICAL_FAILURE.
Proof.
  unfold createDamageFormula. destruct degree; simpl; split; congruence.
Qed.

(** C10: a call without an outcome returns what the call with the
    success outcome returns, and that is a formula, never null. *)
Theorem absent_degree_is_success damage :
  createDamageFormula critRule localizeDamageType formatPersistentTooltip
    damage None
  = createDamageFormula critRule localizeDamageType formatPersistentTooltip
      damage (Some SUCCESS)
  /\ exists assembled,
       createDamageFormula critRule localizeDamageType formatPersistentTooltip
         damage None = Some assembled.
Proof.
  split; [reflexivity|].
  unfold createDamageFormula; simpl. eauto.
Qed.

End OutcomeGate.

(** ** The outcome filter of the partitioner *)

Lemma mapGet_pushPartial_same damageType partial typeMap :
  mapGet String.eqb damageType (pushPartial damageType partial typeMap)
  = Some (default [] (mapGet String.eqb damageType typeMap) ++ [partial]).
Proof.
  induction typeMap as [|[k v] typeMap IH].
  - simpl. now rewrite String.eqb_refl.
  - rewrite pushPartial_cons. simpl.
    destruct (String.eqb k damageType) eqn:E; simpl; rewrite E; auto.
Qed.

Lemma mapGet_pushPartial_other damageType damageType' partial typeMap :
  damageType <> damageType' ->
  mapGet String.eqb damageType' (pushPartial damageType partial typeMap)
  = mapGet String.eqb damageType' typeMap.
Proof.
  intros Hne. induction typeMap as [|[k v] typeMap IH].
  - simpl. apply String.eqb_neq in Hne. now rewrite Hne.
  - rewrite pushPartial_cons. simpl.
    destruct (String.eqb k damageType) eqn:E; simpl.
    + apply String.eqb_eq in E. subst k.
      apply String.eqb_neq in Hne. now rewrite Hne.
    + now rewrite IH.
Qed.

Lemma listedUnder_push_new damageType partial typeMap :
  listedUnder damageType partial (pushPartial damageType partial typeMap).
Proof.
  eexists. split; [apply mapGet_pushPartial_same|].
  apply in_or_app. right. now left.
Qed.

Lemma listedUnder_push_old damageType partial damageType' partial' typeMap :
  listedUnder damageType partial typeMap ->
  listedUnder damageType partial (pushPartial damageType' partial' typeMap).
Proof.
  intros (l & Hget & Hin).
  destruct (String.eqb_spec damageType' damageType) as [->|Hne].
  - eexists. split; [apply mapGet_pushPartial_same|].
    rewrite Hget. simpl. apply in_or_app. now left.
  - exists l. split; auto. now rewrite mapGet_pushPartial_other.
Qed.

Lemma listedUnder_addDice base damageType partial l :
  forall typeMap,
    listedUnder damageType partial typeMap ->
    listedUnder damageType partial (fold_left (addDice base) l typeMap).
Proof.
  induction l as [|d l IH]; intros typeMap H; simpl; auto.
  apply IH. unfold addDice.
  destruct (resolvedDieSize base d); auto.
  destruct (0 <? dice_diceNumber d); auto.
  now apply listedUnder_push_old.
Qed.

Lemma listedUnder_addModifier base damageType partial l :
  forall typeMap,
    listedUnder damageType partial typeMap ->
    listedUnder damageType partial (fold_left (addModifier base) l typeMap).
Proof.
  induction l as [|d l IH]; intros typeMap H; simpl; auto.
  apply IH. unfold addModifier. now apply listedUnder_push_old.
Qed.

Lemma addDice_lists_entry base d s l :
  In d l ->
  0 < dice_diceNumber d ->
  resolvedDieSize base d = Some s ->
  forall typeMap,
    listedUnder (default (base_damageType base) (dice_damageType d))
      (dicePartial d s) (fold_left (addDice base) l typeMap).
Proof.
  intros Hin Hpos Hres. induction l as [|d' l IH]; [destruct Hin|].
  intros typeMap. simpl. destruct Hin as [->|Hin].
  - apply listedUnder_addDice. unfold addDice. rewrite Hres.
    apply Z.ltb_lt in Hpos. rewrite Hpos.
    apply listedUnder_push_new.
  - now apply IH.
Qed.

Lemma selectModifiers_drops_criticalOnly base modifiers :
  selectModifiers false base modifiers =
  selectModifiers false base
    (List.filter (fun m => negb (inclusion_eqb (mod_critical m) (Some true)))
       modifiers).
Proof.
  unfold selectModifiers.
  induction modifiers as [|m l IH]; simpl; auto.
  destruct (mod_enabled m) eqn:En;
    destruct (inclusion_eqb (mod_critical m) (Some true)) eqn:Ec; simpl;
    rewrite ?En; simpl; auto.
  - rewrite Ec. simpl. exact IH.
  - rewrite Ec. simpl. f_equal. exact IH.
Qed.

Section OutcomeFilter.

Variable critRule : string.
Variable localizeDamageType : DamageType -> string.
Variable formatPersistentTooltip : string -> string.

Lemma addModifier_lists_entry base m l :
  In m l ->
  forall typeMap,
    listedUnder (default (base_damageType base) (mod_damageType m))
      (modifierPartial m) (fold_left (addModifier base) l typeMap).
Proof.
  intros Hin. induction l as [|m' l IH]; [destruct Hin|].
  intros typeMap. simpl. destruct Hin as [->|Hin].
  - apply listedUnder_addModifier. unfold addModifier.
    apply listedUnder_push_new.
  - now apply IH.
Qed.

Lemma filter_filter_comm {A} (f g : A -> bool) l :
  List.filter f (List.filter g l) = List.filter g (List.filter f l).
Proof.
  induction l as [|a l IH]; [reflexivity|]. cbn [List.filter].
  destruct (f a) eqn:Hf, (g a) eqn:Hg; cbn [List.filter];
    rewrite ?Hf, ?Hg, IH; reflexivity.
Qed.

Lemma splashOnly_withoutCriticalOnlyModifiers damage :
  splashOnly (withoutCriticalOnlyModifiers damage)
  = withoutCriticalOnlyModifiers (splashOnly damage).
Proof.
  unfold splashOnly, withoutCriticalOnlyModifiers. cbn.
  f_equal. apply filter_filter_comm.
Qed.

Lemma includes_nonCritical (c : CriticalInclusion) :
  includes [DOUBLE_ON_CRIT; DONT_DOUBLE_ON_CRIT] c = true <-> c <> Some true.
Proof.
  destruct c as [[]|]; cbn; split; congruence.
Qed.

(** C6: on a success and on a failure the partitioner is closed to the
    modifiers that are critical-only and open to all the dice.  The
    compiler assembles the type map built with the outcome filter
    closed, and returns what it returns for the definition without its
    critical-only modifiers.  No partial of the type map without dice
    is critical-only, so the partial of a critical-only modifier is
    nowhere in it, while every other enabled modifier is listed under
    its damage type.  Every enabled dice entry with a positive dice
    number and a resolved die size is listed under its damage type with
    its [critical] flag as it is, whatever the flag.  It is the
    category assembler that screens the partials later: of the partials
    of a category it takes exactly those that are not critical-only. *)
Theorem criticalOnly_modifiers_dropped_dice_kept damage degree :
  degree = SUCCESS \/ degree = FAILURE ->
  let gated := if degree_eqb degree FAILURE then splashOnly damage else damage in
  let base := dmg_base damage in
  let typeMap := buildTypeMap false gated in
  createDamageFormula critRule localizeDamageType formatPersistentTooltip
    damage (Some degree)
  = Some (assemble critRule localizeDamageType formatPersistentTooltip
            typeMap degree)
  /\ createDamageFormula critRule localizeDamageType formatPersistentTooltip
       damage (Some degree)
     = createDamageFormula critRule localizeDamageType formatPersistentTooltip
         (withoutCriticalOnlyModifiers damage) (Some degree)
  /\ typeMap = buildTypeMap false (withoutCriticalOnlyModifiers gated)
  /\ Forall (fun p => dice p = None -> critical p <> Some true)
       (allPartials typeMap)
  /\ (forall m,
         mod_critical m = Some true ->
         ~ In (modifierPartial m) (allPartials typeMap))
  /\ (forall m,
         In m (dmg_modifiers gated) ->
         mod_enabled m = true ->
         mod_critical m <> Some true ->
         listedUnder (default (base_damageType base) (mod_damageType m))
           (modifierPartial m) typeMap)
  /\ (forall d s,
         In d (dmg_dice gated) ->
         dice_enabled d = true ->
         0 < dice_diceNumber d ->
         resolvedDieSize base d = Some s ->
         listedUnder (default (base_damageType base) (dice_damageType d))
           (dicePartial d s) typeMap
         /\ critical (dicePartial d s) = dice_critical d)
  /\ (forall groups c p,
         In p (requestedPartials groups (nonCriticalInclusion degree) c) <->
         In p (default [] (mapGet category_eqb c groups))
         /\ critical p <> Some true).
Proof.
  intros Hdeg gated base typeMap.
  assert (Hbase : dmg_base gated = base).
  { unfold gated. destruct (degree_eqb degree FAILURE); reflexivity. }
  assert (Hrun : createDamageFormula critRule localizeDamageType
                   formatPersistentTooltip damage (Some degree)
                 = Some (assemble critRule localizeDamageType
                           formatPersistentTooltip typeMap degree)).
  { unfold typeMap, gated. destruct Hdeg as [->| ->]; reflexivity. }
  assert (Hwithout : typeMap
                     = buildTypeMap false (withoutCriticalOnlyModifiers gated)).
  { unfold typeMap, buildTypeMap. simpl.
    now rewrite <- selectModifiers_drops_criticalOnly. }
  assert (Hnone : Forall (fun p => dice p = None -> critical p <> Some true)
                    (allPartials typeMap)).
  { unfold typeMap, buildTypeMap.
    apply Forall_addModifier.
    - apply List.Forall_forall. intros m Hm _.
      apply selectModifiers_spec in Hm as (m0 & _ & _ & Ho & ->).
      simpl. unfold outcomeMatches in Ho. simpl in Ho.
      intros Hc. rewrite Hc in Ho. discriminate.
    - apply Forall_addDice.
      + apply List.Forall_forall. intros d' _ s'. discriminate.
      + apply Forall_baseTypeMap. intros _. discriminate. }
  split; [exact Hrun|].
  split.
  { rewrite Hrun, Hwithout. unfold gated.
    destruct Hdeg as [->| ->].
    - reflexivity.
    - change (degree_eqb FAILURE FAILURE) with true. cbv iota.
      rewrite <- splashOnly_withoutCriticalOnlyModifiers. reflexivity. }
  split; [exact Hwithout|].
  split; [exact Hnone|].
  split.
  { intros m Hcritical Hin.
    exact (proj1 (List.Forall_forall _ _) Hnone _ Hin eq_refl Hcritical). }
  split.
  { intros m Hin Henabled Hcritical.
    unfold typeMap, buildTypeMap. cbv zeta. rewrite Hbase.
    apply (addModifier_lists_entry base (withDamageType base m)).
    apply selectModifiers_spec. exists m.
    split; [exact Hin|]. split; [exact Henabled|].
    split; [|reflexivity].
    unfold outcomeMatches. cbn [orb].
    destruct (mod_critical m) as [[]|]; [congruence|reflexivity|reflexivity]. }
  split.
  { intros d s Hin Henabled Hpositive Hresolved.
    split; [|reflexivity].
    unfold typeMap, buildTypeMap. cbv zeta. rewrite Hbase.
    apply listedUnder_addModifier.
    apply addDice_lists_entry; auto.
    apply filter_In. auto. }
  intros groups c p.
  assert (Hinclusion : nonCriticalInclusion degree
                       = [DOUBLE_ON_CRIT; DONT_DOUBLE_ON_CRIT])
    by (destruct Hdeg as [->| ->]; reflexivity).
  rewrite Hinclusion. unfold requestedPartials.
  rewrite filter_In, includes_nonCritical. reflexivity.
Qed.

End OutcomeFilter.

(** ** Strings: the characters of a rendered expression *)



Section Alphabet.

(** A set of characters that holds the digits and the minus sign. *)
Variable allowed : ascii -> bool.
Hypothesis allowed_digit : forall c, isDigit c = true -> allowed c = true.
Hypothesis allowed_minus : allowed "-" = true.

Lemma string_of_uint_allowed u :
  forallbString allowed (NilEmpty.string_of_uint u) = true.
Proof.
  induction u; simpl; rewrite ?IHu, ?andb_true_r; auto;
    apply allowed_digit; reflexivity.
Qed.

Lemma numberToString_allowed z :
  forallbString allowed (numberToString z) = true.
Proof.
  assert (H0 : allowed "0" = true) by (apply allowed_digit; reflexivity).
  assert (Hu : forall u, forallbString allowed (NilZero.string_of_uint u) = true).
  { intros u. unfold NilZero.string_of_uint.
    destruct u; try apply string_of_uint_allowed. simpl. now rewrite H0. }
  unfold numberToString, NilZero.string_of_int.
  destruct (Z.to_int z); simpl; rewrite ?allowed_minus; apply Hu.
Qed.

Hypothesis allowed_d : allowed "d" = true.
Hypothesis allowed_space : allowed " " = true.
Hypothesis allowed_plus : allowed "+" = true.


Hypothesis allowed_literals :
  forallbString allowed "()[]precision splash" = true.



End Alphabet.

(** ** Critical doubling *)



Lemma nonEmpty_append a b : nonEmpty (a +:+ b) = nonEmpty a || nonEmpty b.
Proof. destruct a; simpl; auto. Qed.

Lemma nonEmpty_join sep s l :
  nonEmpty s = true -> nonEmpty (join sep (s :: l)) = true.
Proof.
  intros Hs. unfold join; simpl. destruct l; auto.
  now rewrite nonEmpty_append, Hs.
Qed.

Lemma createPartialFormulas_nonEmpty groups inclusion doubleDice' :
  Forall (fun s => nonEmpty s = true)
    (createPartialFormulas groups inclusion doubleDice').
Proof.
  unfold createPartialFormulas. apply List.Forall_forall. intros s Hs.
  apply in_flat_map in Hs as (c & _ & Hs).
  destruct (nonEmpty _) eqn:E; [|destruct Hs].
  destruct Hs as [<-|[]]. exact E.
Qed.

Lemma truthy_fragments_all fragments :
  Forall (fun s => nonEmpty s = true) fragments ->
  flat_map (fun p : option string =>
              match p with
              | Some s => if nonEmpty s then [s] else []
              | None => []
              end) (map Some fragments)
  = fragments.
Proof.
  intros Hl. induction Hl as [|x l Hx Hl IH]; simpl; auto.
  rewrite Hx. simpl. now f_equal.
Qed.

(** The sum of a list of fragments, none of which is empty. *)
Lemma sumExpression_fragments fragments double' :
  Forall (fun s => nonEmpty s = true) fragments ->
  sumExpression (map Some fragments) double' =
  match fragments with
  | [] => None
  | _ :: _ =>
      let summed := join " + " fragments in
      if double'
      then Some ("2 * " +:+ (if hasOperators (Some summed)
                             then "(" +:+ summed +:+ ")"
                             else summed))
      else Some summed
  end.
Proof.
  intros Hne. unfold sumExpression.
  rewrite (truthy_fragments_all fragments Hne).
  destruct fragments as [|s l]; [reflexivity|].
  apply Forall_cons in Hne as [Hs Hl].
  rewrite (nonEmpty_join " + " s l Hs).
  cbn [map forallb default negb andb]. unfold id. rewrite Hs. cbn [negb andb].
  destruct double'; cbn [andb]; auto.
  destruct (hasOperators (Some (join " + " (s :: l)))); reflexivity.
Qed.








Section Doubling.

Variable critRule : string.

End Doubling.

(** ** Head validation *)

(** C5: a sum of two doubled dice terms starts with an opening and ends
    with a closing parenthesis, so the head is taken as valid and left
    without an enclosing pair; the flavor tag of the instance then
    follows the last dice term only. *)
Theorem head_of_two_groups_is_not_enclosed localizeDamageType formatPersistentTooltip :
  ensureValidFormulaHead (Some "(2d6[doubled]) + (2d4[doubled])")
  = Some "(2d6[doubled]) + (2d4[doubled])"
  /\ option_map formula
       (createDamageFormula "doubledice" localizeDamageType
          formatPersistentTooltip
          {| dmg_base :=
               {| base_damageType := "fire"; base_diceNumber := 1;
                  base_dieSize := Some d6; base_modifier := 0;
                  base_category := None; base_materials := None |};
             dmg_dice :=
               [ {| dice_label := "Extra"; dice_diceNumber := 1;
                    dice_dieSize := Some d4; dice_damageType := None;
                    dice_category := None; dice_critical := None;
                    dice_enabled := true |} ];
             dmg_modifiers := [] |}
          (Some CRITICAL_SUCCESS))
     = Some "{(2d6[doubled]) + (2d4[doubled])[fire]}".
Proof. split; reflexivity. Qed.

(** ** Grouping *)

Section GroupBy.

Context {T R : Type} (eqb : R -> R -> bool).
Hypothesis eqb_eq : forall a b, eqb a b = true <-> a = b.

Lemma eqb_refl' k : eqb k k = true.
Proof. now apply eqb_eq. Qed.

Lemma mapGet_mapSet_same {V : Type} k (v : V) m :
  mapGet eqb k (mapSet eqb k v m) = Some v.
Proof.
  induction m as [|[k' v'] m IH]; simpl.
  - now rewrite eqb_refl'.
  - destruct (eqb k' k) eqn:E; simpl; rewrite E; auto.
Qed.

Lemma mapGet_mapSet_other {V : Type} k k2 (v : V) m :
  eqb k k2 = false ->
  mapGet eqb k2 (mapSet eqb k v m) = mapGet eqb k2 m.
Proof.
  intros Hne. induction m as [|[k' v'] m IH]; simpl.
  - now rewrite Hne.
  - destruct (eqb k' k) eqn:E; simpl.
    + apply eqb_eq in E. subst k'. now rewrite Hne.
    + now rewrite IH.
Qed.

Lemma keys_mapSet_present {V : Type} k (v v0 : V) m :
  mapGet eqb k m = Some v0 -> map fst (mapSet eqb k v m) = map fst m.
Proof.
  induction m as [|[k' v'] m IH]; simpl; [discriminate|].
  destruct (eqb k' k); simpl; auto. intros H. now rewrite IH.
Qed.

Lemma keys_mapSet_absent {V : Type} k (v : V) m :
  mapGet eqb k m = None ->
  map fst (mapSet eqb k v m) = map fst m ++ [k] /\ ~ In k (map fst m).
Proof.
  induction m as [|[k' v'] m IH]; simpl; [auto|].
  destruct (eqb k' k) eqn:E; [discriminate|]. intros H.
  destruct (IH H) as [IH1 IH2]. simpl. rewrite IH1. split; auto.
  intros [->|Hin]; [|contradiction].
  rewrite eqb_refl' in E. discriminate.
Qed.

Lemma In_mapGet {V : Type} k (v : V) m :
  NoDup (map fst m) -> In (k, v) m -> mapGet eqb k m = Some v.
Proof.
  induction m as [|[k' v'] m IH]; simpl; [tauto|].
  intros Hnodup Hin. apply NoDup_cons in Hnodup as [Hnotin Hnodup].
  destruct Hin as [[= -> ->]|Hin].
  - now rewrite eqb_refl'.
  - destruct (eqb k' k) eqn:E; [|now apply IH].
    apply eqb_eq in E. subst k'. exfalso. apply Hnotin.
    apply list_elem_of_In. apply (in_map fst) in Hin. exact Hin.
Qed.

Variable criterion : T -> R.

Lemma keys_groupStep result elem :
  NoDup (map fst result) -> NoDup (map fst (groupStep eqb criterion result elem)).
Proof.
  intros Hnodup. unfold groupStep.
  destruct (mapGet eqb (criterion elem) result) as [group|] eqn:Hget.
  - now rewrite (keys_mapSet_present _ _ group).
  - destruct (keys_mapSet_absent (criterion elem) [elem] result Hget)
      as [-> Hnotin].
    apply NoDup_app. repeat split; auto.
    + intros x Hx Hin. apply list_elem_of_In in Hx.
      apply list_elem_of_In in Hin. destruct Hin as [<-|[]]. contradiction.
    + apply NoDup_singleton.
Qed.

Lemma keys_groupBy array : NoDup (map fst (groupBy eqb array criterion)).
Proof.
  unfold groupBy.
  assert (Hinit : NoDup (map fst (@nil (R * list T)))) by constructor.
  revert Hinit. generalize (@nil (R * list T)).
  induction array as [|x array IH]; intros result Hresult; simpl; auto.
  apply IH. now apply keys_groupStep.
Qed.

Lemma mapGet_groupStep k result elem :
  mapGet eqb k (groupStep eqb criterion result elem) =
  if eqb (criterion elem) k
  then Some (default [] (mapGet eqb k result) ++ [elem])
  else mapGet eqb k result.
Proof.
  unfold groupStep. destruct (eqb (criterion elem) k) eqn:E.
  - apply eqb_eq in E. subst k.
    destruct (mapGet eqb (criterion elem) result);
      now rewrite mapGet_mapSet_same.
  - destruct (mapGet eqb (criterion elem) result);
      now rewrite mapGet_mapSet_other.
Qed.

Lemma mapGet_fold_groupStep k array :
  forall result,
    default [] (mapGet eqb k (fold_left (groupStep eqb criterion) array result)) =
    default [] (mapGet eqb k result)
    ++ List.filter (fun x => eqb (criterion x) k) array.
Proof.
  induction array as [|x array IH]; intros result; simpl.
  - now rewrite app_nil_r.
  - rewrite IH, mapGet_groupStep.
    destruct (eqb (criterion x) k); simpl; auto.
    now rewrite <- app_assoc.
Qed.

(** The group of a key holds the elements of the array with that key,
    in the order of the array. *)
Lemma groupBy_get k array :
  default [] (mapGet eqb k (groupBy eqb array criterion)) =
  List.filter (fun x => eqb (criterion x) k) array.
Proof.
  unfold groupBy.
  now rewrite mapGet_fold_groupStep.
Qed.

(** Every group of [groupBy] holds the elements of the array with the key
    of the group, in the order of the array. *)
Lemma groupBy_entries k g array :
  In (k, g) (groupBy eqb array criterion) ->
  g = List.filter (fun x => eqb (criterion x) k) array.
Proof.
  intros Hin. rewrite <- groupBy_get.
  now rewrite (In_mapGet k g _ (keys_groupBy array) Hin).
Qed.

End GroupBy.

(** ** The combiner and negative dice counts *)

Lemma insertBy_Permutation {T : Type} (key : T -> Z) x l :
  Permutation (insertBy key x l) (x :: l).
Proof.
  induction l as [|y l IH]; simpl; [reflexivity|].
  destruct (key x <=? key y); [reflexivity|].
  rewrite IH. apply perm_swap.
Qed.

Lemma sortBy_Permutation {T : Type} (key : T -> Z) l :
  Permutation (sortBy key l) l.
Proof.
  induction l as [|x l IH]; simpl; [reflexivity|].
  rewrite insertBy_Permutation. now constructor.
Qed.

Lemma filter_Permutation {T : Type} (p : T -> bool) l l' :
  Permutation l l' -> Permutation (List.filter p l) (List.filter p l').
Proof.
  induction 1 as [|x l l' H IH|x y l|l l' l'' H1 IH1 H2 IH2]; simpl.
  - reflexivity.
  - destruct (p x); [now constructor|exact IH].
  - destruct (p x), (p y); try reflexivity. apply perm_swap.
  - now transitivity (List.filter p l').
Qed.

Lemma sum_from values total :
  fold_left Z.add values total = total + sum values.
Proof.
  unfold sum. revert total.
  induction values as [|v values IH]; intros total; cbn [fold_left]; [lia|].
  rewrite (IH (total + v)), (IH (0 + v)). lia.
Qed.

Lemma sum_cons v values : sum (v :: values) = v + sum values.
Proof. unfold sum at 1. simpl. apply sum_from. Qed.

Lemma sum_Permutation values values' :
  Permutation values values' -> sum values = sum values'.
Proof.
  induction 1 as [|x l l' H IH|x y l|l l' l'' H1 IH1 H2 IH2].
  - reflexivity.
  - rewrite !sum_cons. lia.
  - rewrite !sum_cons. lia.
  - congruence.
Qed.

Lemma hasPositiveDice_hasFaces f t :
  hasPositiveDice t = true -> (faces (diceOf t) =? f) = hasFaces f t.
Proof.
  unfold hasPositiveDice, hasFaces, diceOf.
  destruct (term_dice t); [reflexivity|discriminate].
Qed.

(** The groups that the combiner renders: each has a positive number of
    dice, the sum over the partials of its faces whose own number is
    positive. *)
Lemma positiveDice_counts terms :
  Forall (fun g => 0 < number (diceOf g)
                   /\ number (diceOf g)
                      = summedCount (faces (diceOf g))
                          (List.filter hasPositiveDice terms))
    (positiveDice terms).
Proof.
  unfold positiveDice.
  set (dice := sortBy (fun t => - faces (diceOf t))
                 (List.filter hasPositiveDice terms)).
  apply List.Forall_forall. intros g Hg.
  apply filter_In in Hg as [Hg Hpos]. apply Z.ltb_lt in Hpos.
  split; [exact Hpos|].
  apply in_map_iff in Hg as (group & <- & Hgroup).
  apply in_map_iff in Hgroup as ([k group'] & Hsnd & Hentry).
  simpl in Hsnd. subst group'.
  pose proof (groupBy_entries Z.eqb Z.eqb_eq _ k group dice Hentry) as Hfilter.
  destruct group as [|t0 group]; [simpl in Hpos; lia|].
  assert (Hk : faces (diceOf t0) = k).
  { assert (Hin : In t0 (t0 :: group)) by now left.
    rewrite Hfilter in Hin. apply filter_In in Hin as [_ Hin].
    now apply Z.eqb_eq. }
  unfold combineGroup, diceOf at 1 3. cbn [term_dice default number faces id].
  rewrite Hk, Hfilter. unfold summedCount.
  apply sum_Permutation, Permutation_map.
  transitivity (List.filter (fun x => faces (diceOf x) =? k)
                  (List.filter hasPositiveDice terms)).
  - apply filter_Permutation, sortBy_Permutation.
  - rewrite (filter_ext_in (fun x => faces (diceOf x) =? k) (hasFaces k));
      [reflexivity|].
    intros t Ht. apply filter_In in Ht as [_ Ht].
    now apply hasPositiveDice_hasFaces.
Qed.

Lemma filter_withoutNonPositiveDice terms :
  List.filter hasPositiveDice (map withoutNonPositiveDice terms)
  = List.filter hasPositiveDice terms.
Proof.
  induction terms as [|t terms IH]; simpl; auto.
  unfold withoutNonPositiveDice at 1 2.
  destruct (hasPositiveDice t) eqn:E; rewrite ?E; simpl; now rewrite IH.
Qed.

Lemma constant_withoutNonPositiveDice terms :
  forall total,
    fold_left (fun total p => total + term_modifier p)
      (map withoutNonPositiveDice terms) total
    = fold_left (fun total p => total + term_modifier p) terms total.
Proof.
  induction terms as [|t terms IH]; intros total; simpl; auto.
  rewrite IH. unfold withoutNonPositiveDice.
  destruct (hasPositiveDice t); reflexivity.
Qed.

(** C4, as stated: were the numbers of all the dice partials of a face
    summed, -1d6 next to 2d6 would leave 1d6; the combiner renders 2d6. *)
Lemma negative_dice_do_not_cancel :
  ~ (forall terms,
        Forall (fun g => number (diceOf g)
                         = summedCount (faces (diceOf g)) terms)
          (positiveDice terms)).
Proof.
  intros H.
  specialize (H [ {| term_modifier := 0;
                     term_dice := Some {| number := 2; faces := 6 |} |};
                  {| term_modifier := 0;
                     term_dice := Some {| number := -1; faces := 6 |} |} ]).
  apply Forall_cons in H as [H _]. vm_compute in H. discriminate H.
Qed.

(** ** The order of the categories *)

Lemma groups_get c partials :
  default [] (mapGet category_eqb c (groupBy category_eqb partials category))
  = ofCategory c partials.
Proof. apply groupBy_get. exact category_eqb_spec. Qed.

Lemma categoryFragment_ext groups groups' inclusion doubleDice' c :
  default [] (mapGet category_eqb c groups)
  = default [] (mapGet category_eqb c groups') ->
  categoryFragment groups inclusion doubleDice' c
  = categoryFragment groups' inclusion doubleDice' c.
Proof.
  intros H. unfold categoryFragment, requestedPartials. now rewrite H.
Qed.

Lemma sumExpression_with_absent e :
  nonEmpty e = true -> sumExpression [Some e; None] false = Some e.
Proof.
  intros He. unfold sumExpression. cbn [forallb default flat_map app].
  unfold id. rewrite He. cbn [negb andb app join String.concat].
  now rewrite He.
Qed.


(** ** The grammar of the pooled formula *)

Lemma numberToString_nonEmpty z : nonEmpty (numberToString z) = true.
Proof.
  unfold numberToString, NilZero.string_of_int, NilZero.string_of_uint.
  destruct (Z.to_int z) as [u|u]; destruct u; reflexivity.
Qed.

Lemma Expression_nonEmpty e : Expression e -> nonEmpty e = true.
Proof.
  induction 1; rewrite ?nonEmpty_append, ?numberToString_nonEmpty, ?IHExpression,
    ?IHExpression1; auto.
Qed.

Lemma Term_nonEmpty t : Term t -> nonEmpty t = true.
Proof.
  destruct 1 as [e He|e tags He];
    rewrite ?nonEmpty_append, (Expression_nonEmpty e He); auto.
Qed.

(** A sum of expressions is an expression. *)
Lemma Expression_join e l :
  Expression e -> Forall Expression l -> Expression (join " + " (e :: l)).
Proof.
  intros He Hl. revert e He.
  induction Hl as [|x l Hx Hl IH]; intros e He; [exact He|].
  change (join " + " (e :: x :: l)) with (e +:+ " + " +:+ join " + " (x :: l)).
  apply ExprPlus; auto.
Qed.

(** ** The dice that reach the combiner *)

Lemma Forall_insertBy {T : Type} (P : T -> Prop) key x l :
  P x -> Forall P l -> Forall P (insertBy key x l).
Proof.
  intros Hx Hl. induction Hl as [|y l Hy Hl IH]; simpl.
  - now constructor.
  - destruct (key x <=? key y); repeat constructor; auto.
Qed.

Lemma Forall_sortBy {T : Type} (P : T -> Prop) key l :
  Forall P l -> Forall P (sortBy key l).
Proof.
  intros Hl. induction Hl as [|y l Hy Hl IH]; simpl; [constructor|].
  now apply Forall_insertBy.
Qed.

Lemma Forall_mapSet {K V : Type} (eqb : K -> K -> bool) (Q : V -> Prop) k v m :
  Q v -> Forall (fun kv => Q (snd kv)) m ->
  Forall (fun kv => Q (snd kv)) (mapSet eqb k v m).
Proof.
  intros Hv Hm. induction Hm as [|[k' v'] m Hkv Hm IH]; simpl.
  - repeat constructor; auto.
  - destruct (eqb k' k); constructor; auto.
Qed.

Lemma Forall_mapGet {K V : Type} (eqb : K -> K -> bool) (Q : V -> Prop) k m g :
  Forall (fun kv => Q (snd kv)) m -> mapGet eqb k m = Some g -> Q g.
Proof.
  intros Hm. induction Hm as [|[k' v'] m Hkv Hm IH]; simpl; [discriminate|].
  destruct (eqb k' k); auto. now intros [= <-].
Qed.

(** The groups of [groupBy] are not empty and hold elements of the
    array. *)
Lemma Forall_groupBy {T R : Type} (eqb : R -> R -> bool) (P : T -> Prop)
    (criterion : T -> R) array :
  Forall P array ->
  Forall (fun kv => snd kv <> [] /\ Forall P (snd kv))
    (groupBy eqb array criterion).
Proof.
  unfold groupBy. intros Harray.
  assert (Hinit : Forall (fun kv : R * list T => snd kv <> [] /\ Forall P (snd kv)) [])
    by constructor.
  revert Hinit. generalize (@nil (R * list T)).
  induction Harray as [|x array Hx Harray IH]; intros result Hresult; simpl; auto.
  apply IH. unfold groupStep.
  destruct (mapGet eqb (criterion x) result) as [group|] eqn:Hget.
  - apply (Forall_mapSet eqb (fun g => g <> [] /\ Forall P g));
      [|exact Hresult].
    pose proof (Forall_mapGet eqb (fun g => g <> [] /\ Forall P g) _ _ _
                  Hresult Hget) as [Hne Hg].
    split.
    + destruct group; [congruence|discriminate].
    + apply Forall_app. split; auto.
  - apply (Forall_mapSet eqb (fun g => g <> [] /\ Forall P g));
      [|exact Hresult].
    split; [discriminate|]. repeat constructor; auto.
Qed.

Lemma diceFilter_hasPositiveDie terms :
  Forall facesPositive terms ->
  Forall hasPositiveDie (List.filter hasPositiveDice terms).
Proof.
  intros H. induction H as [|t terms Ht H IH]; simpl; [constructor|].
  unfold facesPositive in Ht. unfold hasPositiveDice at 1.
  destruct (term_dice t) as [d|] eqn:E; auto.
  destruct (0 <? number d); auto.
  constructor; auto. unfold hasPositiveDie. now rewrite E.
Qed.

Lemma renderDice_Expression doubleDice t :
  0 < number (diceOf t) -> 0 < faces (diceOf t) ->
  Expression (renderDice doubleDice t).
Proof.
  intros Hn Hf. unfold renderDice. destruct doubleDice.
  - apply ExprDoubled; lia.
  - now apply ExprDice.
Qed.

Lemma join_plus_Expression l :
  Forall Expression l -> join " + " l = "" \/ Expression (join " + " l).
Proof.
  intros Hl. destruct Hl as [|e l He Hl]; [now left|right].
  now apply Expression_join.
Qed.

Lemma final_join_Expression dice constant doubleDice sep :
  dice = "" \/ Expression dice ->
  sep = " + " \/ sep = " - " ->
  let rendered :=
    join sep
      (map (renderPiece doubleDice)
         (List.filter pieceTruthy
            [PieceString dice; PieceNumber (Z.abs constant)])) in
  rendered = "" \/ Expression rendered.
Proof.
  intros Hdice Hsep.
  assert (Hconst : Expression (renderPiece doubleDice (PieceNumber (Z.abs constant)))).
  { simpl. destruct doubleDice; [apply ExprTwice|]; apply ExprConstant; lia. }
  cbn [List.filter pieceTruthy].
  destruct Hdice as [->|Hdice].
  - cbn [nonEmpty]. destruct (negb (Z.abs constant =? 0)); cbn [map join String.concat];
      auto.
  - rewrite (Expression_nonEmpty _ Hdice).
    destruct (negb (Z.abs constant =? 0)); cbn [map join String.concat renderPiece];
      auto.
    right. destruct Hsep as [-> | ->]; [apply ExprPlus|apply ExprMinus]; auto.
Qed.

(** The combiner writes nothing or an expression. *)
Lemma combinePartialTerms_Expression terms doubleDice :
  Forall facesPositive terms ->
  combinePartialTerms terms doubleDice = ""
  \/ Expression (combinePartialTerms terms doubleDice).
Proof.
  intros Hterms. unfold combinePartialTerms, positiveDice.
  apply final_join_Expression.
  2:{ destruct (0 <? _); auto. }
  apply join_plus_Expression.
  apply Forall_map.
  pose proof (Forall_groupBy Z.eqb hasPositiveDie
                (fun t => faces (diceOf t)) _
                (Forall_sortBy hasPositiveDie (fun t => - faces (diceOf t)) _
                   (diceFilter_hasPositiveDie terms Hterms))) as Hgroups.
  revert Hgroups. generalize (groupBy Z.eqb
       (sortBy (fun t => - faces (diceOf t))
          (List.filter hasPositiveDice terms))
       (fun t => faces (diceOf t))).
  intros groups Hgroups.
  induction Hgroups as [|[k g] groups [Hne Hg] Hgroups IH]; simpl; [constructor|].
  simpl in Hne, Hg.
  destruct g as [|t0 g]; [congruence|].
  cbn [diceOf term_dice default].
  match goal with
  | |- context [if ?b then _ else _] => destruct b eqn:Hpos
  end; auto.
  constructor; auto.
  apply renderDice_Expression.
  - apply Z.ltb_lt. exact Hpos.
  - apply Forall_cons in Hg as [Ht0 _]. unfold hasPositiveDie in Ht0.
    unfold combineGroup, diceOf at 1. cbn [term_dice default faces id].
    unfold diceOf. destruct (term_dice t0); [exact Ht0|destruct Ht0].
Qed.

Lemma categoryFragment_Expression groups inclusion doubleDice c :
  Forall (fun p => facesPositive (partialTerm p))
    (default [] (mapGet category_eqb c groups)) ->
  categoryFragment groups inclusion doubleDice c = ""
  \/ Expression (categoryFragment groups inclusion doubleDice c).
Proof.
  intros Hfaces. unfold categoryFragment.
  assert (Hcombined :
            Forall facesPositive
              (map partialTerm (requestedPartials groups inclusion c))).
  { apply Forall_map. unfold requestedPartials.
    apply List.Forall_forall. intros p Hp. apply filter_In in Hp as [Hp _].
    revert p Hp. now apply List.Forall_forall. }
  pose proof (combinePartialTerms_Expression _ doubleDice Hcombined) as H.
  revert H.
  generalize (combinePartialTerms
                (map partialTerm (requestedPartials groups inclusion c))
                doubleDice).
  intros expression [->|He].
  - left. destruct c as [[]|]; reflexivity.
  - right. destruct c as [[]|]; cbn [categoryString categoryName existsb].
    + (* persistent *)
      cbn. rewrite andb_false_r. exact He.
    + (* precision *)
      cbn [String.eqb Ascii.eqb Bool.eqb orb andb].
      destruct (hasOperators (Some expression)).
      * rewrite nonEmpty_append. cbn.
        apply (ExprTagged _ precision); [now apply ExprParen|now left].
      * rewrite (Expression_nonEmpty _ He). cbn.
        apply (ExprTagged _ precision); [exact He|now left].
    + (* splash *)
      cbn [String.eqb Ascii.eqb Bool.eqb orb andb].
      destruct (hasOperators (Some expression)).
      * rewrite nonEmpty_append. cbn.
        apply (ExprTagged _ splash); [now apply ExprParen|now right].
      * rewrite (Expression_nonEmpty _ He). cbn.
        apply (ExprTagged _ splash); [exact He|now right].
    + (* none *)
      cbn. rewrite andb_false_r. exact He.
Qed.

Lemma createPartialFormulas_Expression groups inclusion doubleDice :
  (forall c, Forall (fun p => facesPositive (partialTerm p))
               (default [] (mapGet category_eqb c groups))) ->
  Forall Expression (createPartialFormulas groups inclusion doubleDice).
Proof.
  intros Hfaces. unfold createPartialFormulas.
  apply List.Forall_forall. intros s Hs.
  apply in_flat_map in Hs as (c & _ & Hs).
  destruct (categoryFragment_Expression groups inclusion doubleDice c (Hfaces c))
    as [E|E].
  - rewrite E in Hs. destruct Hs.
  - rewrite (Expression_nonEmpty _ E) in Hs. now destruct Hs as [<-|[]].
Qed.

Lemma truthy_terms_Expression terms :
  Forall absentOrExpression terms ->
  Forall Expression
    (flat_map (fun p : option string =>
                 match p with
                 | Some s => if nonEmpty s then [s] else []
                 | None => []
                 end) terms)
  /\ (forallb (fun t => negb (nonEmpty (default "" t))) terms = false ->
      flat_map (fun p : option string =>
                  match p with
                  | Some s => if nonEmpty s then [s] else []
                  | None => []
                  end) terms <> []).
Proof.
  intros H. induction H as [|t terms Ht H [IH1 IH2]]; simpl.
  - split; [constructor|discriminate].
  - destruct t as [s|]; simpl in *.
    + rewrite (Expression_nonEmpty _ Ht). simpl. split; [|discriminate].
      now constructor.
    + split; auto.
Qed.

(** A sum of sub-expressions is absent or an expression. *)
Lemma sumExpression_Expression terms double' :
  Forall absentOrExpression terms ->
  absentOrExpression (sumExpression terms double').
Proof.
  intros Hterms. unfold sumExpression.
  destruct (forallb _ terms) eqn:Hall; [exact I|].
  destruct (truthy_terms_Expression terms Hterms) as [Hexpr Hne].
  specialize (Hne Hall). revert Hexpr Hne.
  generalize (flat_map (fun p : option string =>
                 match p with
                 | Some s => if nonEmpty s then [s] else []
                 | None => []
                 end) terms).
  intros l Hexpr Hne. destruct Hexpr as [|e l He Hl]; [congruence|].
  pose proof (Expression_join e l He Hl) as Hsum.
  rewrite (Expression_nonEmpty _ Hsum).
  destruct double'; cbn [andb default absentOrExpression]; auto.
  unfold id. destruct (hasOperators _); cbn [default absentOrExpression];
    apply ExprTwice; auto. now apply ExprParen.
Qed.

Lemma ensureValidFormulaHead_Expression formula :
  absentOrExpression formula ->
  absentOrExpression (ensureValidFormulaHead formula).
Proof.
  destruct formula as [f|]; simpl; auto. intros Hf.
  rewrite (Expression_nonEmpty _ Hf). simpl.
  destruct (isWrapped f || isSimple f); simpl; auto. now apply ExprParen.
Qed.

Section Grammar.

Variable critRule : string.
Variable localizeDamageType : DamageType -> string.
Variable formatPersistentTooltip : string -> string.

Lemma summedDamage_Expression groups degree :
  (forall c, Forall (fun p => facesPositive (partialTerm p))
               (default [] (mapGet category_eqb c groups))) ->
  absentOrExpression (summedDamage critRule groups degree).
Proof.
  intros Hfaces.
  assert (Hfragments : forall inclusion doubleDice',
             Forall absentOrExpression
               (map Some (createPartialFormulas groups inclusion doubleDice'))).
  { intros inclusion doubleDice'. apply Forall_map.
    apply (createPartialFormulas_Expression groups inclusion doubleDice' Hfaces). }
  assert (Hnon : absentOrExpression (nonCriticalDamage critRule groups degree)).
  { unfold nonCriticalDamage. apply sumExpression_Expression, Hfragments. }
  assert (Hcrit : absentOrExpression (criticalDamage groups degree)).
  { unfold criticalDamage. destruct (negb _); [exact I|].
    apply sumExpression_Expression, Hfragments. }
  unfold summedDamage. apply sumExpression_Expression.
  destruct (degreeTruthy degree).
  - apply List.Forall_cons; [exact Hnon|].
    apply List.Forall_cons; [exact Hcrit|apply List.Forall_nil].
  - apply List.Forall_cons; [exact Hnon|apply List.Forall_nil].
Qed.

(** The formula of every instance is a term. *)
Lemma instanceOf_Term degree persistent' damageType typePartials :
  Forall (fun p => facesPositive (partialTerm p)) typePartials ->
  Forall (fun i => Term (formula i))
    (instanceOf critRule localizeDamageType formatPersistentTooltip
       degree persistent' (damageType, typePartials)).
Proof.
  intros Hfaces. unfold instanceOf. cbv zeta.
  destruct (length _ =? 0)%nat; [apply List.Forall_nil|].
  match goal with
  | |- context [ensureValidFormulaHead ?f] =>
      assert (Hhead : absentOrExpression (ensureValidFormulaHead f))
  end.
  { apply ensureValidFormulaHead_Expression, summedDamage_Expression.
    intros c. rewrite groups_get. unfold ofCategory.
    apply List.Forall_forall. intros p Hp.
    apply filter_In in Hp as [Hp _]. apply filter_In in Hp as [Hp _].
    revert p Hp. now apply List.Forall_forall. }
  revert Hhead.
  generalize (ensureValidFormulaHead
                (summedDamage critRule
                   (groupBy category_eqb
                      (List.filter
                         (fun p =>
                            Bool.eqb (category_eqb (category p) (Some persistent))
                              persistent') typePartials) category) degree)).
  intros [e|] Hhead; [|apply List.Forall_nil]. cbn [absentOrExpression] in Hhead.
  rewrite (Expression_nonEmpty _ Hhead). cbn [andb].
  unfold flavor. cbv zeta.
  match goal with
  | |- context [join "," ?l] => generalize l
  end.
  intros tags. destruct (nonEmpty (join "," tags)) eqn:Htags.
  - change (nonEmpty ("[" +:+ join "," tags +:+ "]")) with true. cbv iota.
    rewrite nonEmpty_append, (Expression_nonEmpty _ Hhead).
    cbn [orb]. apply List.Forall_cons; [|apply List.Forall_nil].
    cbn [formula]. now apply TermFlavored.
  - change (nonEmpty "") with false. cbv iota.
    rewrite (Expression_nonEmpty _ Hhead).
    apply List.Forall_cons; [|apply List.Forall_nil].
    cbn [formula]. now apply TermBare.
Qed.

Lemma instancesFromTypeMap_Term typeMap degree persistent' :
  Forall (fun p => facesPositive (partialTerm p)) (allPartials typeMap) ->
  Forall (fun i => Term (formula i))
    (instancesFromTypeMap critRule localizeDamageType formatPersistentTooltip
       typeMap degree persistent').
Proof.
  unfold instancesFromTypeMap, allPartials.
  induction typeMap as [|[damageType typePartials] typeMap IH]; simpl;
    [constructor|].
  intros H. apply Forall_app in H as [H1 H2].
  apply Forall_app. split; [now apply instanceOf_Term|now apply IH].
Qed.

Lemma buildTypeMap_facesPositive critical damage :
  Forall (fun p => facesPositive (partialTerm p))
    (allPartials (buildTypeMap critical damage)).
Proof.
  unfold buildTypeMap.
  apply Forall_addModifier.
  - apply List.Forall_forall. intros m _. exact I.
  - apply Forall_addDice.
    + apply List.Forall_forall. intros d _ s. unfold facesPositive; simpl.
      destruct s; reflexivity.
    + apply Forall_baseTypeMap. unfold facesPositive; simpl.
      destruct (base_dieSize (dmg_base damage)) as [s|]; [|exact I].
      destruct (truthy _); [|exact I]. destruct s; reflexivity.
Qed.

(** The pooled formula of a type map that the partitioner built. *)
Lemma assemble_PooledFormula critical damage degree :
  PooledFormula
    (formula (assemble critRule localizeDamageType formatPersistentTooltip
                (buildTypeMap critical damage) degree)).
Proof.
  unfold assemble. cbn [formula].
  eexists. split; [|reflexivity].
  apply Forall_map. apply Forall_app.
  split; apply instancesFromTypeMap_Term, buildTypeMap_facesPositive.
Qed.

End Grammar.

Lemma string_length_append a b :
  String.length (a +:+ b) = (String.length a + String.length b)%nat.
Proof. induction a as [|c a IH]; simpl; auto. Qed.

Lemma nonEmpty_length s : nonEmpty s = true -> (0 < String.length s)%nat.
Proof. destruct s; simpl; [discriminate|lia]. Qed.

(** ** Repeated compilation *)

Lemma holds_weaken s s' ls ms :
  holds s ls ms -> modifierObjects s ⊆ modifierObjects s' -> holds s' ls ms.
Proof.
  intros H Hsub. eapply Forall2_impl; [exact H|].
  intros l m Hl. exact (lookup_weaken _ _ _ _ Hl Hsub).
Qed.

Lemma holds_frame s s' ls ms :
  holds s ls ms ->
  (forall l, l ∈ ls -> modifierObjects s' !! l = modifierObjects s !! l) ->
  holds s' ls ms.
Proof.
  intros H. induction H as [|l m ls ms Hl H IH]; intros Hsame; constructor.
  - rewrite Hsame; [exact Hl|]. now left.
  - apply IH. intros l0 Hl0. apply Hsame. now right.
Qed.

Lemma snapshot_extends s s' damage d :
  snapshot s damage = Some d -> extends s s' -> snapshot s' damage = Some d.
Proof.
  unfold snapshot. intros H [Hdefs Hmods].
  destruct (definitions s !! damage) as [o|] eqn:Ho; [|discriminate].
  rewrite (lookup_weaken _ _ _ _ Ho Hdefs).
  destruct (mapM _ (obj_modifiers o)) as [ms|] eqn:Hms; [|discriminate].
  apply mapM_Some in Hms.
  assert (Hms' : mapM (fun l => modifierObjects s' !! l) (obj_modifiers o) = Some ms).
  { apply mapM_Some. exact (holds_weaken s s' _ _ Hms Hmods). }
  now rewrite Hms'.
Qed.

Lemma bind_loadModifier {B : Type} l m (k : ModifierPF2e -> Run B) s :
  modifierObjects s !! l = Some m ->
  bind (loadModifier l) k s = k m s.
Proof. intros H. unfold bind, loadModifier. now rewrite H. Qed.

Lemma bind_loadDefinition {B : Type} r o (k : DamageObject -> Run B) s :
  definitions s !! r = Some o ->
  bind (loadDefinition r) k s = k o s.
Proof. intros H. unfold bind, loadDefinition. now rewrite H. Qed.

Lemma bind_result {A B : Type} (m : Run A) (k : A -> Run B) s a s' :
  m s = Some (a, s') -> bind m k s = k a s'.
Proof. intros H. unfold bind. now rewrite H. Qed.

(** The copies of the modifiers are new objects, one for each reference,
    with the values of the original ones, which stay as they are. *)
Lemma cloneModifiers_spec ls :
  forall ms s,
    holds s ls ms ->
    exists ls' s',
      flatMapRun (fun l => m <- loadModifier l ;;
                           l' <- newModifier m ;;
                           ret [l']) ls s = Some (ls', s')
      /\ definitions s' = definitions s
      /\ modifierObjects s ⊆ modifierObjects s'
      /\ holds s' ls' ms
      /\ NoDup ls'
      /\ Forall (fun l => modifierObjects s !! l = None) ls'.
Proof.
  induction ls as [|l ls IH]; intros ms s Hholds.
  - apply Forall2_nil_inv_l in Hholds as ->.
    exists [], s. repeat split; auto; constructor.
  - apply Forall2_cons_inv_l in Hholds as (m & ms' & Hl & Hls & ->).
    set (l' := fresh (dom (modifierObjects s))).
    set (s1 := {| definitions := definitions s;
                  modifierObjects := <[l':=m]> (modifierObjects s) |}).
    assert (Hfresh : modifierObjects s !! l' = None)
      by (apply not_elem_of_dom, is_fresh).
    assert (Hsub1 : modifierObjects s ⊆ modifierObjects s1)
      by (now apply insert_subseteq).
    destruct (IH ms' s1 (holds_weaken _ _ _ _ Hls Hsub1))
      as (ls'' & s' & Hrun & Hdefs & Hsub & Hholds' & Hnodup & Hnew).
    exists (l' :: ls''), s'.
    assert (Hl' : modifierObjects s' !! l' = Some m).
    { eapply lookup_weaken; [|exact Hsub]. apply lookup_insert_eq. }
    split; [|repeat split].
    + cbn [flatMapRun]. rewrite (bind_result _ _ s [l'] s1).
      * now rewrite (bind_result _ _ s1 ls'' s').
      * now rewrite (bind_loadModifier l m).
    + exact Hdefs.
    + now transitivity (modifierObjects s1).
    + constructor; auto.
    + constructor; auto. intros Hin.
      rewrite List.Forall_forall in Hnew.
      apply list_elem_of_In in Hin. specialize (Hnew _ Hin).
      simpl in Hnew. rewrite lookup_insert_eq in Hnew. discriminate.
    + constructor; auto.
      eapply Forall_impl; [exact Hnew|].
      intros l0 Hl0. simpl in Hl0. eapply lookup_weaken_None; eauto.
Qed.

(** A filter that reads the modifiers leaves the store as it is. *)
Lemma filterModifiers_spec (p : ModifierPF2e -> bool) ls :
  forall ms s,
    holds s ls ms ->
    exists ls',
      flatMapRun (fun l => m <- loadModifier l ;;
                           ret (if p m then [l] else [])) ls s
      = Some (ls', s)
      /\ holds s ls' (List.filter p ms)
      /\ ls' `sublist_of` ls.
Proof.
  induction ls as [|l ls IH]; intros ms s Hholds.
  - apply Forall2_nil_inv_l in Hholds as ->.
    exists []. repeat split; constructor.
  - apply Forall2_cons_inv_l in Hholds as (m & ms' & Hl & Hls & ->).
    destruct (IH ms' s Hls) as (ls' & Hrun & Hholds' & Hsub).
    exists ((if p m then [l] else []) ++ ls').
    split; [|split].
    + cbn [flatMapRun].
      rewrite (bind_result _ _ s (if p m then [l] else []) s).
      * now rewrite (bind_result _ _ s ls' s).
      * now rewrite (bind_loadModifier l m).
    + simpl. destruct (p m); simpl; auto. constructor; auto.
    + destruct (p m); simpl; now constructor.
Qed.

(** The assignment of the damage type writes to the modifiers of the
    list and to no other object; the references that it returns are to
    the modifiers that the outcome lets through. *)
Lemma assignDamageType_spec base critical ls :
  forall ms s,
    holds s ls ms ->
    NoDup ls ->
    exists ls' s',
      flatMapRun
        (fun l =>
           m <- loadModifier l ;;
           _ <- storeModifier l (withDamageType base m) ;;
           m <- loadModifier l ;;
           ret (if outcomeMatches critical (mod_critical m) then [l] else []))
        ls s = Some (ls', s')
      /\ definitions s' = definitions s
      /\ (forall l, l ∉ ls -> modifierObjects s' !! l = modifierObjects s !! l)
      /\ holds s' ls'
           (flat_map
              (fun modifier =>
                 let modifier := withDamageType base modifier in
                 if outcomeMatches critical (mod_critical modifier)
                 then [modifier] else [])
              ms).
Proof.
  induction ls as [|l ls IH]; intros ms s Hholds Hnodup.
  - apply Forall2_nil_inv_l in Hholds as ->.
    exists [], s. repeat split; auto; constructor.
  - apply Forall2_cons_inv_l in Hholds as (m & ms' & Hl & Hls & ->).
    apply NoDup_cons in Hnodup as [Hnotin Hnodup].
    set (s1 := {| definitions := definitions s;
                  modifierObjects :=
                    <[l:=withDamageType base m]> (modifierObjects s) |}).
    assert (Hls1 : holds s1 ls ms').
    { apply (holds_frame s); auto. intros l0 Hl0. simpl.
      apply lookup_insert_ne. intros ->. contradiction. }
    destruct (IH ms' s1 Hls1 Hnodup)
      as (ls' & s' & Hrun & Hdefs & Hframe & Hholds').
    assert (Hl1 : modifierObjects s1 !! l = Some (withDamageType base m))
      by apply lookup_insert_eq.
    exists ((if outcomeMatches critical (mod_critical (withDamageType base m))
             then [l] else []) ++ ls'), s'.
    split; [|repeat split].
    + cbn [flatMapRun].
      rewrite (bind_result _ _ s
                 (if outcomeMatches critical (mod_critical (withDamageType base m))
                  then [l] else []) s1).
      * now rewrite (bind_result _ _ s1 ls' s').
      * rewrite (bind_loadModifier l m) by exact Hl.
        unfold bind at 1, storeModifier, ret. fold s1.
        now rewrite (bind_loadModifier l (withDamageType base m)).
    + exact Hdefs.
    + intros l0 Hl0. apply not_elem_of_cons in Hl0 as [Hne Hl0].
      rewrite (Hframe l0 Hl0). simpl. now apply lookup_insert_ne.
    + cbn [flat_map].
      destruct (outcomeMatches critical (mod_critical (withDamageType base m)));
        simpl; auto.
      constructor; auto. now rewrite (Hframe l Hnotin).
Qed.

(** The loop over the selected modifiers reads them in turn. *)
Lemma pushModifiers_spec base ls :
  forall ms typeMap s,
    holds s ls ms ->
    foldRun (fun typeMap l => m <- loadModifier l ;;
                              ret (addModifier base typeMap m))
      ls typeMap s
    = Some (fold_left (addModifier base) ms typeMap, s).
Proof.
  induction ls as [|l ls IH]; intros ms typeMap s Hholds.
  - apply Forall2_nil_inv_l in Hholds as ->. reflexivity.
  - apply Forall2_cons_inv_l in Hholds as (m & ms' & Hl & Hls & ->).
    cbn [foldRun fold_left].
    rewrite (bind_result _ _ s (addModifier base typeMap m) s).
    + now apply IH.
    + now rewrite (bind_loadModifier l m).
Qed.

(** The copy is a new definition object with new modifier objects. *)
Lemma deepCloneRun_spec s damage o ms :
  definitions s !! damage = Some o ->
  holds s (obj_modifiers o) ms ->
  exists damage' ls' s',
    deepCloneRun damage s = Some (damage', s')
    /\ extends s s'
    /\ definitions s' !! damage'
       = Some {| obj_base := obj_base o;
                 obj_dice := obj_dice o;
                 obj_modifiers := ls' |}
    /\ definitions s !! damage' = None
    /\ holds s' ls' ms
    /\ NoDup ls'
    /\ Forall (fun l => modifierObjects s !! l = None) ls'.
Proof.
  intros Ho Hms.
  destruct (cloneModifiers_spec _ _ _ Hms)
    as (ls' & s1 & Hrun & Hdefs & Hsub & Hholds & Hnodup & Hnew).
  set (damage' := fresh (dom (definitions s1))).
  assert (Hfresh : definitions s1 !! damage' = None)
    by (apply not_elem_of_dom, is_fresh).
  exists damage', ls',
    {| definitions :=
         <[damage' := {| obj_base := obj_base o;
                         obj_dice := obj_dice o;
                         obj_modifiers := ls' |}]> (definitions s1);
       modifierObjects := modifierObjects s1 |}.
  split; [|repeat split]; cbn [definitions modifierObjects].
  - unfold deepCloneRun. rewrite (bind_loadDefinition damage o) by exact Ho.
    now rewrite (bind_result _ _ s ls' s1).
  - rewrite <- Hdefs. apply insert_subseteq. exact Hfresh.
  - exact Hsub.
  - apply lookup_insert_eq.
  - rewrite <- Hdefs. exact Hfresh.
  - exact Hholds.
  - exact Hnodup.
  - exact Hnew.
Qed.

Section RepeatedCompilation.

Variable critRule : string.
Variable localizeDamageType : DamageType -> string.
Variable formatPersistentTooltip : string -> string.

(** One compilation on the store returns what the compiler returns on
    the definition that the location stands for, and leaves every object
    that was in the store as it was. *)
Lemma createDamageFormulaRun_spec s damage d degree :
  snapshot s damage = Some d ->
  exists s',
    createDamageFormulaRun critRule localizeDamageType formatPersistentTooltip
      damage degree s
    = Some (createDamageFormula critRule localizeDamageType
              formatPersistentTooltip d degree, s')
    /\ extends s s'.
Proof.
  unfold snapshot. intros Hsnap.
  destruct (definitions s !! damage) as [o|] eqn:Ho; [|discriminate].
  destruct (mapM _ (obj_modifiers o)) as [ms|] eqn:Hms; [|discriminate].
  apply mapM_Some in Hms. injection Hsnap as <-.
  destruct (deepCloneRun_spec s damage o ms Ho Hms)
    as (damage' & ls' & s2 & Hclone & [Hext1 Hext2] & Hown & Hnewdef & Hholds
        & Hnodup & Hnewmod).
  unfold createDamageFormulaRun, createDamageFormula, deepClone. cbv zeta.
  rewrite (bind_result _ _ s damage' s2 Hclone).
  set (deg := default SUCCESS degree).
  destruct (degree_eqb deg CRITICAL_FAILURE) eqn:Hcf.
  { exists s2. split; [reflexivity|now split]. }
  set (gated := if degree_eqb deg FAILURE
                then splashOnly {| dmg_base := obj_base o; dmg_dice := obj_dice o;
                                   dmg_modifiers := ms |}
                else {| dmg_base := obj_base o; dmg_dice := obj_dice o;
                        dmg_modifiers := ms |}).
  (* the outcome gate assigns to the fields of the copy *)
  match goal with
  | |- context [bind ?block _ s2] =>
      assert (Hgate :
        exists lg s3,
          block s2 = Some (tt, s3)
          /\ definitions s3 !! damage'
             = Some {| obj_base := dmg_base gated; obj_dice := dmg_dice gated;
                       obj_modifiers := lg |}
          /\ (forall r, r <> damage' ->
                        definitions s3 !! r = definitions s2 !! r)
          /\ modifierObjects s3 = modifierObjects s2
          /\ holds s3 lg (dmg_modifiers gated)
          /\ lg `sublist_of` ls')
  end.
  { unfold gated. destruct (degree_eqb deg FAILURE).
    - destruct (filterModifiers_spec
                  (fun m => category_eqb (mod_damageCategory m) (Some splash))
                  ls' ms s2 Hholds) as (lg & Hrun & Hlg & Hsub).
      exists lg,
        {| definitions :=
             <[damage' :=
                 {| obj_base := obj_base o;
                    obj_dice :=
                      List.filter
                        (fun d => category_eqb (dice_category d) (Some splash))
                        (obj_dice o);
                    obj_modifiers := lg |}]> (definitions s2);
           modifierObjects := modifierObjects s2 |}.
      split; [|split; [|split; [|split; [|split]]]].
      + rewrite (bind_loadDefinition damage' _ _ s2 Hown).
        cbn [obj_modifiers obj_base obj_dice].
        rewrite (bind_result _ _ s2 lg s2 Hrun). reflexivity.
      + cbn. apply lookup_insert_eq.
      + intros r Hr. cbn. now apply lookup_insert_ne.
      + reflexivity.
      + exact Hlg.
      + exact Hsub.
    - exists ls', s2.
      split; [reflexivity|]. split; [exact Hown|]. split; [reflexivity|].
      split; [reflexivity|]. split; [exact Hholds|reflexivity]. }
  destruct Hgate as (lg & s3 & Hblock & Hown3 & Hdefs3 & Hmods3 & Hlg & Hsub).
  rewrite (bind_result _ _ s2 tt s3 Hblock).
  rewrite (bind_loadDefinition damage' _ _ s3 Hown3).
  cbn [obj_modifiers obj_base obj_dice].
  (* the enabled modifiers *)
  destruct (filterModifiers_spec mod_enabled lg _ s3 Hlg)
    as (le & Hrun_e & Hle & Hsub_e).
  rewrite (bind_result _ _ s3 le s3 Hrun_e).
  assert (Hnodup_e : NoDup le).
  { eapply sublist_NoDup; [|exact Hsub_e].
    eapply sublist_NoDup; [exact Hnodup|exact Hsub]. }
  (* the assignment of the damage type *)
  destruct (assignDamageType_spec (dmg_base gated)
              (degree_eqb deg CRITICAL_SUCCESS) le _ s3 Hle Hnodup_e)
    as (lm & s4 & Hrun_m & Hdefs4 & Hframe & Hlm).
  rewrite (bind_result _ _ s3 lm s4 Hrun_m).
  rewrite (bind_result _ _ s4 _ s4 (pushModifiers_spec _ _ _ _ s4 Hlm)).
  exists s4. split.
  - unfold ret. reflexivity.
  - split.
    + apply map_subseteq_spec. intros r x Hr.
      rewrite Hdefs4, Hdefs3.
      * exact (lookup_weaken _ _ _ _ Hr Hext1).
      * intros ->. congruence.
    + apply map_subseteq_spec. intros l x Hl.
      rewrite Hframe, Hmods3.
      * exact (lookup_weaken _ _ _ _ Hl Hext2).
      * intros Hin.
        assert (Hin' : l ∈ ls').
        { eapply elem_of_sublist; [|exact Hsub].
          eapply elem_of_sublist; [exact Hin|exact Hsub_e]. }
        rewrite List.Forall_forall in Hnewmod.
        apply list_elem_of_In in Hin'. specialize (Hnewmod _ Hin').
        simpl in Hnewmod. congruence.
Qed.

(** C9: two compilations of the definition at a location of the store,
    one after the other with the same outcome, return the same result,
    formula and breakdown, which is the result of the compiler on the
    definition; each works on a copy, and the definition at the location
    is after each what it was before. *)
Theorem compiling_twice_gives_the_same_result s damage d degree :
  snapshot s damage = Some d ->
  exists first s1 second s2,
    createDamageFormulaRun critRule localizeDamageType formatPersistentTooltip
      damage degree s = Some (first, s1)
    /\ createDamageFormulaRun critRule localizeDamageType
         formatPersistentTooltip damage degree s1 = Some (second, s2)
    /\ first = second
    /\ first = createDamageFormula critRule localizeDamageType
                 formatPersistentTooltip d degree
    /\ snapshot s1 damage = Some d
    /\ snapshot s2 damage = Some d.
Proof.
  intros Hsnap.
  destruct (createDamageFormulaRun_spec s damage d degree Hsnap)
    as (s1 & Hrun1 & Hext1).
  pose proof (snapshot_extends _ _ _ _ Hsnap Hext1) as Hsnap1.
  destruct (createDamageFormulaRun_spec s1 damage d degree Hsnap1)
    as (s2 & Hrun2 & Hext2).
  pose proof (snapshot_extends _ _ _ _ Hsnap1 Hext2) as Hsnap2.
  eexists _, s1, _, s2. repeat split; eauto.
Qed.

End RepeatedCompilation.

(** * Further properties *)

(** ** The order of the dice groups *)

Lemma insertBy_sorted {T : Type} (key : T -> Z) x l :
  StronglySorted (fun a b => key a <= key b) l ->
  StronglySorted (fun a b => key a <= key b) (insertBy key x l).
Proof.
  intros Hl. induction Hl as [|y l Hl IH Hy]; simpl.
  - repeat constructor.
  - destruct (key x <=? key y) eqn:E.
    + apply Z.leb_le in E. constructor; [now constructor|].
      constructor; [exact E|].
      eapply Forall_impl; [exact Hy|]. intros z Hz. simpl in Hz. lia.
    + apply Z.leb_gt in E. constructor; [exact IH|].
      apply Forall_insertBy; [lia|exact Hy].
Qed.

Lemma sortBy_sorted {T : Type} (key : T -> Z) l :
  StronglySorted (fun a b => key a <= key b) (sortBy key l).
Proof.
  induction l as [|x l IH]; simpl; [constructor|].
  now apply insertBy_sorted.
Qed.

Lemma StronglySorted_snoc (l : list Z) k :
  StronglySorted Z.gt l -> Forall (fun k' => k' > k) l ->
  StronglySorted Z.gt (l ++ [k]).
Proof.
  intros Hl. induction Hl as [|y l Hl IH Hy]; intros Hk; simpl.
  - repeat constructor.
  - apply Forall_cons in Hk as [Hyk Hk]. constructor; [now apply IH|].
    apply Forall_app. split; [exact Hy|]. now repeat constructor.
Qed.

Lemma mapGet_None_keys {V : Type} k (m : JsMap Z V) :
  mapGet Z.eqb k m = None -> ~ In k (map fst m).
Proof.
  induction m as [|[k' v'] m IH]; simpl; [tauto|].
  destruct (k' =? k) eqn:E; [discriminate|].
  intros H [->|Hin]; [|now apply IH]. rewrite Z.eqb_refl in E. discriminate.
Qed.

(** The keys of the groups of a list that is sorted by descending key
    are strictly descending. *)
Lemma keys_fold_sorted {T : Type} (c : T -> Z) l :
  forall m,
    StronglySorted (fun a b => c a >= c b) l ->
    StronglySorted Z.gt (map fst m) ->
    Forall (fun k => Forall (fun x => c x <= k) l) (map fst m) ->
    StronglySorted Z.gt (map fst (fold_left (groupStep Z.eqb c) l m)).
Proof.
  induction l as [|x l IH]; intros m Hl Hm Hbound; simpl; [exact Hm|].
  apply StronglySorted_inv in Hl as [Hl Hx].
  apply IH; [exact Hl| |].
  - unfold groupStep.
    destruct (mapGet Z.eqb (c x) m) as [group|] eqn:Hget.
    + now rewrite (keys_mapSet_present Z.eqb _ _ group).
    + destruct (keys_mapSet_absent Z.eqb Z.eqb_eq (c x) [x] m Hget) as [-> _].
      apply StronglySorted_snoc; [exact Hm|].
      pose proof (mapGet_None_keys _ _ Hget) as Hnotin.
      rewrite List.Forall_forall in Hbound |- *. intros k Hk.
      specialize (Hbound k Hk). apply Forall_cons in Hbound as [Hb _].
      assert (k <> c x) by (intros ->; contradiction). lia.
  - unfold groupStep.
    destruct (mapGet Z.eqb (c x) m) as [group|] eqn:Hget.
    + rewrite (keys_mapSet_present Z.eqb _ _ group) by exact Hget.
      eapply Forall_impl; [exact Hbound|]. intros k Hk.
      now apply Forall_cons in Hk as [_ Hk].
    + destruct (keys_mapSet_absent Z.eqb Z.eqb_eq (c x) [x] m Hget) as [-> _].
      apply Forall_app. split.
      * eapply Forall_impl; [exact Hbound|]. intros k Hk.
        now apply Forall_cons in Hk as [_ Hk].
      * repeat constructor.
        eapply Forall_impl; [exact Hx|]. intros y Hy. simpl in Hy. lia.
Qed.

Lemma diceGroups_keys_descending terms :
  StronglySorted Z.gt (map fst (diceGroups terms)).
Proof.
  unfold diceGroups, groupBy.
  apply keys_fold_sorted; [|constructor|constructor].
  pose proof (sortBy_sorted (fun t : DamagePartialTerm => - faces (diceOf t))
                (List.filter hasPositiveDice terms)) as Hsorted.
  induction Hsorted as [|y l Hl IH Hy]; constructor; auto.
  eapply Forall_impl; [exact Hy|]. intros z Hz. simpl in Hz. lia.
Qed.

Lemma sum_positive values :
  values <> [] -> Forall (fun v => 0 < v) values -> 0 < sum values.
Proof.
  intros Hne Hpos. induction Hpos as [|v values Hv Hpos IH]; [congruence|].
  rewrite sum_cons. destruct values as [|v' values].
  - unfold sum. simpl. lia.
  - assert (0 < sum (v' :: values)) by (apply IH; discriminate). lia.
Qed.

(** A group of the combiner holds the partials of its faces whose number
    of dice is positive; its combined term has these faces and the sum
    of these numbers, which is positive. *)
Lemma diceGroups_entry terms k g :
  In (k, g) (diceGroups terms) ->
  diceGroup (combineGroup g)
  = (k, summedCount k (List.filter hasPositiveDice terms))
  /\ 0 < summedCount k (List.filter hasPositiveDice terms)
  /\ exists t, In t (List.filter hasPositiveDice terms)
               /\ faces (diceOf t) = k.
Proof.
  intros Hentry. unfold diceGroups in Hentry.
  set (dice := sortBy (fun t => - faces (diceOf t))
                 (List.filter hasPositiveDice terms)) in *.
  pose proof (groupBy_entries Z.eqb Z.eqb_eq _ k g dice Hentry) as Hfilter.
  assert (Hperm : Permutation
                    (List.filter (fun x => faces (diceOf x) =? k) dice)
                    (List.filter (hasFaces k)
                       (List.filter hasPositiveDice terms))).
  { transitivity (List.filter (fun x => faces (diceOf x) =? k)
                    (List.filter hasPositiveDice terms)).
    - apply filter_Permutation, sortBy_Permutation.
    - rewrite (filter_ext_in (fun x => faces (diceOf x) =? k) (hasFaces k));
        [reflexivity|].
      intros t Ht. apply filter_In in Ht as [_ Ht].
      now apply hasPositiveDice_hasFaces. }
  assert (Hne : g <> []).
  { assert (Htrue : Forall (fun _ : DamagePartialTerm => True) dice)
      by (apply List.Forall_forall; auto).
    pose proof (Forall_groupBy Z.eqb (fun _ => True)
                  (fun t : DamagePartialTerm => faces (diceOf t)) dice Htrue)
      as H.
    rewrite List.Forall_forall in H. exact (proj1 (H (k, g) Hentry)). }
  assert (Hsum : sum (map (fun t => number (diceOf t)) g)
                 = summedCount k (List.filter hasPositiveDice terms)).
  { unfold summedCount. rewrite Hfilter.
    now apply sum_Permutation, Permutation_map. }
  destruct g as [|t0 g]; [congruence|].
  assert (Hin0 : In t0 (List.filter (hasFaces k)
                          (List.filter hasPositiveDice terms))).
  { eapply Permutation_in; [exact Hperm|]. rewrite <- Hfilter. now left. }
  apply filter_In in Hin0 as [Hin0 Hfaces0].
  assert (Hk : faces (diceOf t0) = k).
  { apply filter_In in Hin0 as Hpos0. destruct Hpos0 as [_ Hpos0].
    rewrite <- (hasPositiveDice_hasFaces k t0 Hpos0) in Hfaces0.
    now apply Z.eqb_eq. }
  split; [|split].
  - unfold diceGroup, combineGroup, diceOf at 1 2.
    cbn [term_dice default number faces id]. now rewrite Hk, Hsum.
  - rewrite <- Hsum. apply sum_positive; [discriminate|].
    apply Forall_map. apply List.Forall_forall. intros t Ht.
    assert (Hin : In t (List.filter (hasFaces k)
                          (List.filter hasPositiveDice terms))).
    { eapply Permutation_in; [exact Hperm|]. now rewrite <- Hfilter. }
    apply filter_In in Hin as [Hin _]. apply filter_In in Hin as [_ Hpos].
    unfold hasPositiveDice in Hpos. unfold diceOf.
    destruct (term_dice t); [|discriminate]. now apply Z.ltb_lt.
  - exists t0. split; [exact Hin0|exact Hk].
Qed.

(** The filter on the summed number of dice removes no group. *)
Lemma positiveDice_all_groups terms :
  positiveDice terms = map combineGroup (map snd (diceGroups terms)).
Proof.
  unfold positiveDice. fold (diceGroups terms).
  apply forallb_filter_id. apply forallb_forall. intros t Ht.
  apply in_map_iff in Ht as (g & <- & Hg).
  apply in_map_iff in Hg as ([k g'] & Hsnd & Hentry). simpl in Hsnd. subst g'.
  destruct (diceGroups_entry terms k g Hentry) as (Hgroup & Hpos & _).
  apply Z.ltb_lt. unfold diceGroup in Hgroup.
  injection Hgroup as _ ->. exact Hpos.
Qed.

Lemma positiveDice_groups terms :
  map diceGroup (positiveDice terms)
  = map (fun k => (k, summedCount k (List.filter hasPositiveDice terms)))
      (map fst (diceGroups terms)).
Proof.
  rewrite positiveDice_all_groups, !map_map.
  apply map_ext_in. intros [k g] Hentry. simpl.
  now destruct (diceGroups_entry terms k g Hentry) as (-> & _).
Qed.

Lemma mapGet_Some_keys {V : Type} k (v : V) (m : JsMap Z V) :
  mapGet Z.eqb k m = Some v -> In k (map fst m).
Proof.
  induction m as [|[k' v'] m IH]; simpl; [discriminate|].
  destruct (k' =? k) eqn:E; [|now right; apply IH].
  apply Z.eqb_eq in E. now left.
Qed.

(** The faces of the groups are the faces of the partials whose number
    of dice is positive. *)
Lemma diceGroups_keys terms k :
  In k (map fst (diceGroups terms)) <->
  exists t, In t (List.filter hasPositiveDice terms) /\ faces (diceOf t) = k.
Proof.
  split.
  - intros Hk. apply in_map_iff in Hk as ([k' g] & Hfst & Hentry).
    simpl in Hfst. subst k'.
    now destruct (diceGroups_entry terms k g Hentry) as (_ & _ & H).
  - intros (t & Ht & Hk).
    assert (Hin : In t (List.filter (fun x => faces (diceOf x) =? k)
                          (sortBy (fun t => - faces (diceOf t))
                             (List.filter hasPositiveDice terms)))).
    { apply filter_In. split; [|now apply Z.eqb_eq].
      eapply Permutation_in; [|exact Ht].
      symmetry. apply sortBy_Permutation. }
    rewrite <- (groupBy_get Z.eqb Z.eqb_eq) in Hin. fold (diceGroups terms) in Hin.
    destruct (mapGet Z.eqb k (diceGroups terms)) as [g|] eqn:Hget;
      [|destruct Hin].
    exact (mapGet_Some_keys _ _ _ Hget).
Qed.

Lemma descending_unique (l1 l2 : list Z) :
  StronglySorted Z.gt l1 -> StronglySorted Z.gt l2 ->
  (forall k, In k l1 <-> In k l2) -> l1 = l2.
Proof.
  intros H1. revert l2.
  induction H1 as [|x l1 H1 IH Hx]; intros l2 H2 Hsame.
  - destruct l2 as [|y l2]; [reflexivity|].
    exfalso. apply (proj2 (Hsame y)). now left.
  - destruct H2 as [|y l2 H2 Hy].
    { exfalso. apply (proj1 (Hsame x)). now left. }
    rewrite List.Forall_forall in Hx, Hy.
    assert (x = y).
    { destruct (proj1 (Hsame x) ltac:(now left)) as [->|Hin1]; [reflexivity|].
      destruct (proj2 (Hsame y) ltac:(now left)) as [->|Hin2]; [reflexivity|].
      specialize (Hx _ Hin2). specialize (Hy _ Hin1). lia. }
    subst y. f_equal. apply IH; [exact H2|].
    intros k. split; intros Hk.
    + destruct (proj1 (Hsame k) ltac:(now right)) as [->|Hin]; [|exact Hin].
      specialize (Hx _ Hk). lia.
    + destruct (proj2 (Hsame k) ltac:(now right)) as [->|Hin]; [|exact Hin].
      specialize (Hy _ Hk). lia.
Qed.

Lemma summedCount_Permutation k terms terms' :
  Permutation terms terms' -> summedCount k terms = summedCount k terms'.
Proof.
  intros H. unfold summedCount.
  now apply sum_Permutation, Permutation_map, filter_Permutation.
Qed.

Lemma constant_is_sum terms :
  fold_left (fun total p => total + term_modifier p) terms 0
  = sum (map term_modifier terms).
Proof.
  unfold sum. generalize 0.
  induction terms as [|t terms IH]; intros total; simpl; auto.
Qed.

Lemma renderDice_renderGroup doubleDice' t :
  renderDice doubleDice' t = renderGroup doubleDice' (diceGroup t).
Proof. reflexivity. Qed.

Lemma positiveDice_Permutation terms terms' :
  Permutation terms terms' ->
  map diceGroup (positiveDice terms) = map diceGroup (positiveDice terms').
Proof.
  intros Hperm. rewrite !positiveDice_groups.
  assert (Hfilter : Permutation (List.filter hasPositiveDice terms)
                      (List.filter hasPositiveDice terms'))
    by now apply filter_Permutation.
  assert (Hkeys : map fst (diceGroups terms) = map fst (diceGroups terms')).
  { apply descending_unique; try apply diceGroups_keys_descending.
    intros k. rewrite !diceGroups_keys.
    split; intros (t & Ht & Hk); exists t; split; auto.
    - eapply Permutation_in; [exact Hfilter|exact Ht].
    - eapply Permutation_in; [symmetry; exact Hfilter|exact Ht]. }
  rewrite Hkeys. apply map_ext. intros k.
  now rewrite (summedCount_Permutation k _ _ Hfilter).
Qed.

(** X1: the formula that the combiner writes does not depend on the
    order of the terms it is given. *)
Theorem combinePartialTerms_order_independent terms terms' doubleDice' :
  Permutation terms terms' ->
  combinePartialTerms terms doubleDice' = combinePartialTerms terms' doubleDice'.
Proof.
  intros Hperm. unfold combinePartialTerms.
  rewrite !constant_is_sum.
  rewrite (sum_Permutation _ _ (Permutation_map term_modifier Hperm)).
  assert (Hdice : map (renderDice doubleDice') (positiveDice terms)
                  = map (renderDice doubleDice') (positiveDice terms')).
  { rewrite !(map_ext _ _ (renderDice_renderGroup doubleDice')).
    rewrite <- !(map_map diceGroup (renderGroup doubleDice')).
    now rewrite (positiveDice_Permutation terms terms' Hperm). }
  now rewrite Hdice.
Qed.

(** X2: the combiner renders one group of dice for each number of faces
    that a partial with a positive number of dice has, in the order of
    strictly descending faces; the filter on the summed number of dice
    removes no group. *)
Theorem dice_groups_descend_by_faces terms :
  StronglySorted Z.gt (map (fun g => faces (diceOf g)) (positiveDice terms))
  /\ (forall k, In k (map (fun g => faces (diceOf g)) (positiveDice terms))
                <-> exists t, In t terms /\ hasPositiveDice t = true
                              /\ faces (diceOf t) = k)
  /\ positiveDice terms = map combineGroup (map snd (diceGroups terms)).
Proof.
  assert (Hfaces : map (fun g => faces (diceOf g)) (positiveDice terms)
                   = map fst (diceGroups terms)).
  { change (fun g => faces (diceOf g)) with (fun g => fst (diceGroup g)).
    rewrite <- (map_map diceGroup fst), positiveDice_groups, map_map.
    now rewrite map_id. }
  split; [|split].
  - rewrite Hfaces. apply diceGroups_keys_descending.
  - intros k. rewrite Hfaces, diceGroups_keys.
    split.
    + intros (t & Ht & Hk). exists t.
      apply filter_In in Ht as [Hin Hpos]. auto.
    + intros (t & Hin & Hpos & Hk). exists t. split; [|exact Hk].
      apply filter_In. auto.
  - apply positiveDice_all_groups.
Qed.

(** ** The shape of a combined term *)

Lemma positiveDice_nil terms :
  positiveDice terms = [] <-> List.filter hasPositiveDice terms = [].
Proof.
  split; intros H.
  - destruct (List.filter hasPositiveDice terms) as [|t l] eqn:E; [reflexivity|].
    assert (Hk : In (faces (diceOf t)) (map fst (diceGroups terms))).
    { apply diceGroups_keys. exists t. rewrite E. split; [now left|reflexivity]. }
    rewrite positiveDice_all_groups in H.
    destruct (diceGroups terms); [destruct Hk|discriminate H].
  - unfold positiveDice. now rewrite H.
Qed.

Lemma renderDice_nonEmpty doubleDice' t : nonEmpty (renderDice doubleDice' t) = true.
Proof.
  unfold renderDice. destruct doubleDice'; [reflexivity|].
  now rewrite nonEmpty_append, numberToString_nonEmpty.
Qed.

Lemma renderedDice_nonEmpty doubleDice' terms :
  nonEmpty (join " + " (map (renderDice doubleDice') (positiveDice terms)))
  = negb (forallb (fun t => negb (hasPositiveDice t)) terms).
Proof.
  destruct (positiveDice terms) as [|g l] eqn:E.
  - apply positiveDice_nil in E. simpl.
    assert (H : forallb (fun t => negb (hasPositiveDice t)) terms = true).
    { apply forallb_forall. intros t Ht.
      destruct (hasPositiveDice t) eqn:Hp; [|reflexivity].
      assert (Hin : In t (List.filter hasPositiveDice terms))
        by (apply filter_In; auto).
      rewrite E in Hin. destruct Hin. }
    now rewrite H.
  - cbn [map]. rewrite nonEmpty_join by apply renderDice_nonEmpty.
    destruct (forallb _ terms) eqn:H; [|reflexivity].
    assert (Hnil : List.filter hasPositiveDice terms = []).
    { rewrite forallb_forall in H.
      destruct (List.filter hasPositiveDice terms) as [|t l'] eqn:E';
        [reflexivity|].
      assert (Hin : In t (List.filter hasPositiveDice terms))
        by (rewrite E'; now left).
      apply filter_In in Hin as [Hin Hp]. specialize (H t Hin).
      rewrite Hp in H. discriminate. }
    apply positiveDice_nil in Hnil. congruence.
Qed.

Lemma forallb_no_positive_dice terms :
  forallb (fun t => negb (hasPositiveDice t)) terms = true
  <-> List.filter hasPositiveDice terms = [].
Proof.
  rewrite forallb_forall. split; intros H.
  - destruct (List.filter hasPositiveDice terms) as [|t l] eqn:E;
      [reflexivity|].
    assert (Hin : In t (List.filter hasPositiveDice terms))
      by (rewrite E; now left).
    apply filter_In in Hin as [Hin Hp]. specialize (H t Hin).
    rewrite Hp in H. discriminate.
  - intros t Ht. destruct (hasPositiveDice t) eqn:Hp; [|reflexivity].
    assert (Hin : In t (List.filter hasPositiveDice terms))
      by (apply filter_In; auto).
    rewrite H in Hin. destruct Hin.
Qed.

Lemma combinePartialTerms_cases terms doubleDice' :
  combinePartialTerms terms doubleDice' =
  if negb (forallb (fun t => negb (hasPositiveDice t)) terms)
  then if constantOf terms =? 0
       then join " + " (map (renderDice doubleDice') (positiveDice terms))
       else join " + " (map (renderDice doubleDice') (positiveDice terms))
            +:+ (if 0 <? constantOf terms then " + " else " - ")
            +:+ renderPiece doubleDice' (PieceNumber (Z.abs (constantOf terms)))
  else if constantOf terms =? 0 then ""
       else renderPiece doubleDice' (PieceNumber (Z.abs (constantOf terms))).
Proof.
  unfold combinePartialTerms. fold (constantOf terms).
  cbn [List.filter pieceTruthy].
  rewrite renderedDice_nonEmpty.
  replace (Z.abs (constantOf terms) =? 0) with (constantOf terms =? 0)
    by (destruct (Z.eqb_spec (constantOf terms) 0),
          (Z.eqb_spec (Z.abs (constantOf terms)) 0); auto; lia).
  destruct (negb _), (constantOf terms =? 0); reflexivity.
Qed.

(** X3: the shape of a combined term.  With no partial of a positive
    number of dice it is the absolute value of the constant, or nothing
    when the constant is zero: the sign of a negative constant is not
    written.  With dice it is the sum of the dice groups, followed by
    the absolute value of a constant that is not zero after [" + "] or
    [" - "]. *)
Theorem combinePartialTerms_shape terms doubleDice' :
  let anyDice := negb (forallb (fun t => negb (hasPositiveDice t)) terms) in
  let dice := join " + " (map (renderDice doubleDice') (positiveDice terms)) in
  let constant := constantOf terms in
  let rendered :=
    if doubleDice' then "2 * " +:+ numberToString (Z.abs constant)
    else numberToString (Z.abs constant) in
  combinePartialTerms terms doubleDice' =
  if anyDice
  then if constant =? 0 then dice
       else dice +:+ (if 0 <? constant then " + " else " - ") +:+ rendered
  else if constant =? 0 then "" else rendered.
Proof.
  cbv zeta. rewrite combinePartialTerms_cases. reflexivity.
Qed.

(** X4: the combiner writes the empty string exactly when no partial has
    a positive number of dice and the modifiers add up to zero. *)
Theorem combinePartialTerms_empty_iff terms doubleDice' :
  combinePartialTerms terms doubleDice' = "" <->
  List.filter hasPositiveDice terms = [] /\ constantOf terms = 0.
Proof.
  rewrite combinePartialTerms_cases, <- forallb_no_positive_dice.
  pose proof (renderedDice_nonEmpty doubleDice' terms) as Hdice.
  assert (Hrendered :
            nonEmpty (renderPiece doubleDice'
                        (PieceNumber (Z.abs (constantOf terms)))) = true).
  { simpl. destruct doubleDice'; [reflexivity|].
    apply numberToString_nonEmpty. }
  revert Hdice Hrendered.
  generalize (join " + " (map (renderDice doubleDice') (positiveDice terms))),
    (renderPiece doubleDice' (PieceNumber (Z.abs (constantOf terms)))).
  intros dice rendered Hdice Hrendered.
  destruct (forallb _ terms); cbn [negb] in *;
    destruct (Z.eqb_spec (constantOf terms) 0) as [Hc|Hc].
  - tauto.
  - split; [intros ->; discriminate Hrendered|tauto].
  - split; [intros ->; discriminate Hdice|intros [H _]; discriminate H].
  - split; [|intros [H _]; discriminate H].
    intros H. apply (f_equal nonEmpty) in H.
    rewrite nonEmpty_append, Hdice in H. discriminate H.
Qed.

(** ** Sums and heads *)

(** X5: a sum is null exactly when no term is left after the null and
    empty ones are dropped; otherwise it is the terms that are left,
    joined with [" + "], and with [double] the product of two by this
    sum, enclosed when it holds an operator.  No other result occurs. *)
Theorem sumExpression_of_truthy_terms terms double' :
  sumExpression terms double' =
  match truthyStrings terms with
  | [] => None
  | first :: rest =>
      let summed := join " + " (first :: rest) in
      Some (if double'
            then "2 * " +:+ (if hasOperators (Some summed)
                             then "(" +:+ summed +:+ ")"
                             else summed)
            else summed)
  end.
Proof.
  unfold sumExpression. fold (truthyStrings terms).
  assert (Hall : forallb (fun t => negb (nonEmpty (default "" t))) terms
                 = match truthyStrings terms with [] => true | _ => false end).
  { induction terms as [|t terms IH]; [reflexivity|].
    cbn [forallb truthyStrings flat_map]. fold (truthyStrings terms).
    destruct t as [s|]; cbn [default]; unfold id.
    - destruct (nonEmpty s); [reflexivity|exact IH].
    - exact IH. }
  assert (Hne : Forall (fun s => nonEmpty s = true) (truthyStrings terms)).
  { unfold truthyStrings. apply List.Forall_forall. intros s Hs.
    apply in_flat_map in Hs as ([s'|] & _ & Hs); [|destruct Hs].
    destruct (nonEmpty s') eqn:E; [|destruct Hs]. now destruct Hs as [<-|[]]. }
  rewrite Hall. destruct Hne as [|first rest Hfirst Hrest]; [reflexivity|].
  rewrite (nonEmpty_join " + " first rest Hfirst). cbv zeta.
  destruct double'; cbn [andb default]; [|reflexivity].
  unfold id. destruct (hasOperators _); reflexivity.
Qed.

Lemma existsbString_append f a b :
  existsbString f (a +:+ b) = existsbString f a || existsbString f b.
Proof.
  induction a as [|c a IH]; simpl; auto.
  rewrite IH. now rewrite orb_assoc.
Qed.

Lemma lastChar_append_char s c :
  lastChar (s +:+ String c EmptyString) = Some c.
Proof.
  induction s as [|c' s IH]; [reflexivity|].
  simpl. rewrite IH. destruct (s +:+ String c EmptyString) eqn:E; [|reflexivity].
  destruct s; discriminate E.
Qed.

Lemma isWrapped_enclosed f :
  existsbString isLineTerminator f = false ->
  isWrapped ("(" +:+ f +:+ ")") = true.
Proof.
  intros Hf. change ("(" +:+ f +:+ ")") with (String "(" (f +:+ ")")).
  unfold isWrapped. rewrite (lastChar_append_char f ")").
  cbn [existsbString]. rewrite existsbString_append, Hf. reflexivity.
Qed.

(** X6: for a formula that is not empty and holds no line terminator,
    the head is the formula, as it is or enclosed in parentheses; it
    passes the test of the function, which returns it as it is when
    applied again. *)
Theorem ensureValidFormulaHead_settles f :
  nonEmpty f = true ->
  existsbString isLineTerminator f = false ->
  exists head,
    ensureValidFormulaHead (Some f) = Some head
    /\ (head = f \/ head = "(" +:+ f +:+ ")")
    /\ isWrapped head || isSimple head = true
    /\ ensureValidFormulaHead (Some head) = Some head.
Proof.
  intros Hf Hlines. unfold ensureValidFormulaHead at 1. rewrite Hf.
  cbn [negb]. destruct (isWrapped f || isSimple f) eqn:Hvalid.
  - exists f. split; [reflexivity|]. split; [now left|].
    split; [exact Hvalid|]. unfold ensureValidFormulaHead.
    now rewrite Hf, Hvalid.
  - exists ("(" +:+ f +:+ ")"). split; [reflexivity|]. split; [now right|].
    rewrite (isWrapped_enclosed f Hlines). split; [reflexivity|].
    unfold ensureValidFormulaHead.
    change (nonEmpty ("(" +:+ f +:+ ")")) with true. cbn [negb].
    now rewrite (isWrapped_enclosed f Hlines).
Qed.

(** ** Entries without effect *)

Lemma filter_all {A} (l : list A) : List.filter (fun _ => true) l = l.
Proof. induction l as [|a l IH]; [reflexivity|]. cbn. now rewrite IH. Qed.

Lemma filter_sandwich {A} (p q : A -> bool) l :
  List.filter p (List.filter q (List.filter p l))
  = List.filter p (List.filter q l).
Proof.
  induction l as [|a l IH]; [reflexivity|]. cbn [List.filter].
  destruct (p a) eqn:Hp; cbn [List.filter]; destruct (q a);
    cbn [List.filter]; rewrite ?Hp, IH; reflexivity.
Qed.

Lemma addDice_idle base typeMap d :
  dice_enabled d = true -> contributes base d = false ->
  addDice base typeMap d = typeMap.
Proof.
  unfold contributes, addDice. intros ->. cbn [andb].
  destruct (resolvedDieSize base d); [|reflexivity].
  destruct (0 <? dice_diceNumber d); [discriminate|reflexivity].
Qed.

Lemma fold_addDice_effective base q l typeMap :
  fold_left (addDice base)
    (List.filter dice_enabled (List.filter q (List.filter (contributes base) l)))
    typeMap
  = fold_left (addDice base) (List.filter dice_enabled (List.filter q l))
      typeMap.
Proof.
  revert typeMap. induction l as [|d l IH]; intros typeMap; [reflexivity|].
  cbn [List.filter]. destruct (contributes base d) eqn:Hc.
  - cbn [List.filter]. destruct (q d); [|apply IH]. cbn [List.filter].
    destruct (dice_enabled d); [|apply IH]. cbn [fold_left]. apply IH.
  - rewrite IH. destruct (q d); [|reflexivity]. cbn [List.filter].
    destruct (dice_enabled d) eqn:He; [|reflexivity]. cbn [fold_left].
    now rewrite (addDice_idle base typeMap d He Hc).
Qed.

Lemma buildTypeMap_effective critical damage :
  buildTypeMap critical (effective damage) = buildTypeMap critical damage.
Proof.
  unfold buildTypeMap, effective, selectModifiers. cbn [dmg_base dmg_dice dmg_modifiers].
  pose proof (fold_addDice_effective (dmg_base damage) (fun _ => true)
                (dmg_dice damage)) as H.
  rewrite !filter_all in H. rewrite H.
  pose proof (filter_sandwich mod_enabled (fun _ => true) (dmg_modifiers damage))
    as H'.
  rewrite !filter_all in H'. now rewrite H'.
Qed.

Lemma buildTypeMap_splashOnly_effective critical damage :
  buildTypeMap critical (splashOnly (effective damage))
  = buildTypeMap critical (splashOnly damage).
Proof.
  unfold buildTypeMap, effective, splashOnly, selectModifiers.
  cbn [dmg_base dmg_dice dmg_modifiers].
  now rewrite fold_addDice_effective, filter_sandwich.
Qed.

(** X7: entries that are disabled, and dice that have no positive
    number or no die size of their own or of the base damage, have no
    effect on the result: the definition compiles to what it compiles to
    without them. *)
Theorem idle_entries_have_no_effect critRule localizeDamageType
    formatPersistentTooltip damage degree :
  createDamageFormula critRule localizeDamageType formatPersistentTooltip
    (effective damage) degree
  = createDamageFormula critRule localizeDamageType formatPersistentTooltip
      damage degree.
Proof.
  unfold createDamageFormula, deepClone. cbv zeta.
  destruct (degree_eqb (default SUCCESS degree) CRITICAL_FAILURE);
    [reflexivity|].
  destruct (degree_eqb (default SUCCESS degree) FAILURE).
  - now rewrite buildTypeMap_splashOnly_effective.
  - now rewrite buildTypeMap_effective.
Qed.


(** ** Instances and their breakdown *)

Lemma filter_none {A} (p : A -> bool) l :
  (forall x, In x l -> p x = false) -> List.filter p l = [].
Proof.
  induction l as [|a l IH]; intros H; [reflexivity|]. cbn [List.filter].
  rewrite (H a (or_introl eq_refl)). apply IH. intros x Hx. apply H. now right.
Qed.

Lemma filter_nil_false {A} (p : A -> bool) l x :
  List.filter p l = [] -> In x l -> p x = false.
Proof.
  intros Hnil Hx. destruct (p x) eqn:Hp; [|reflexivity].
  assert (Hin : In x (List.filter p l)) by (apply filter_In; now split).
  rewrite Hnil in Hin. destruct Hin.
Qed.

Lemma In_categories c : In c categories.
Proof. destruct c as [[]|]; cbn; tauto. Qed.

Lemma In_flattenedDamage groups c p :
  In p (default [] (mapGet category_eqb c groups)) ->
  In p (flattenedDamage groups).
Proof.
  intros Hp. unfold flattenedDamage. apply in_flat_map.
  exists c. split; [apply In_categories|exact Hp].
Qed.

Lemma requestedPartials_none groups criticalInclusion c :
  (forall p, In p (flattenedDamage groups) ->
             includes criticalInclusion (critical p) = false) ->
  requestedPartials groups criticalInclusion c = [].
Proof.
  intros H. unfold requestedPartials. apply filter_none.
  intros p Hp. apply H. now apply (In_flattenedDamage groups c).
Qed.

Lemma categoryFragment_none groups criticalInclusion doubleDice' c :
  requestedPartials groups criticalInclusion c = [] ->
  categoryFragment groups criticalInclusion doubleDice' c = "".
Proof.
  intros H. unfold categoryFragment. rewrite H.
  destruct doubleDice'; destruct c as [[]|]; reflexivity.
Qed.

Lemma createPartialFormulas_none groups criticalInclusion doubleDice' :
  (forall p, In p (flattenedDamage groups) ->
             includes criticalInclusion (critical p) = false) ->
  createPartialFormulas groups criticalInclusion doubleDice' = [].
Proof.
  intros H. unfold createPartialFormulas, categories. cbn [flat_map].
  rewrite !categoryFragment_none by now apply requestedPartials_none.
  reflexivity.
Qed.

Lemma summedDamage_without_breakdown critRule groups degree :
  breakdownDamage groups degree = [] ->
  summedDamage critRule groups degree = None.
Proof.
  unfold breakdownDamage. intros Hnil.
  apply app_eq_nil in Hnil as [Hplain Hcritical].
  assert (Hnone : forall p, In p (flattenedDamage groups) ->
                            critical p = Some true).
  { intros p Hp. pose proof (filter_nil_false _ _ p Hplain Hp) as H.
    unfold isCriticalOnly in H. now destruct (critical p) as [[]|]. }
  unfold summedDamage, nonCriticalDamage, criticalDamage.
  destruct degree; cbn [degreeTruthy degree_eqb negb];
    try (rewrite createPartialFormulas_none;
         [reflexivity
         |intros p Hp; rewrite (Hnone p Hp); reflexivity]).
  cbn [degree_eqb] in Hcritical.
  assert (Hempty : flattenedDamage groups = []).
  { destruct (flattenedDamage groups) as [|p l] eqn:E; [reflexivity|].
    pose proof (filter_nil_false _ _ p Hcritical (or_introl eq_refl)) as H.
    unfold isCriticalOnly in H.
    rewrite (Hnone p (or_introl eq_refl)) in H. discriminate H. }
  rewrite !createPartialFormulas_none
    by (intros p Hp; rewrite Hempty in Hp; destruct Hp).
  reflexivity.
Qed.

Lemma instanceOf_breakdown critRule localizeDamageType formatPersistentTooltip
    degree persistent' entry :
  Forall (fun i => nonEmpty (formula i) = true /\ breakdown i <> [])
    (instanceOf critRule localizeDamageType formatPersistentTooltip degree
       persistent' entry).
Proof.
  destruct entry as [damageType typePartials]. unfold instanceOf.
  destruct (length _ =? 0)%nat; [constructor|]. cbv zeta.
  set (groups := groupBy category_eqb _ category).
  unfold breakdownOf.
  destruct (breakdownDamage groups degree) as [|first rest] eqn:Hb.
  - rewrite (summedDamage_without_breakdown critRule groups degree Hb).
    constructor.
  - destruct (ensureValidFormulaHead _) as [e|]; [|constructor].
    match goal with
    | |- Forall _ match ?f with _ => _ end =>
        destruct f as [f'|]; [|constructor];
        destruct (nonEmpty f') eqn:Hf; [|constructor]
    end.
    constructor; [|constructor]. cbn [formula breakdown]. now split.
Qed.

(** X8: every instance that a run over the type map yields has a
    formula that is not empty and a breakdown with at least one label;
    so the pooled formula is the empty pool ["{}"] exactly when the
    breakdown of the result is empty. *)
Theorem instances_have_a_breakdown critRule localizeDamageType
    formatPersistentTooltip typeMap degree :
  (forall persistent',
      Forall (fun i => nonEmpty (formula i) = true /\ breakdown i <> [])
        (instancesFromTypeMap critRule localizeDamageType
           formatPersistentTooltip typeMap degree persistent'))
  /\ (formula (assemble critRule localizeDamageType formatPersistentTooltip
                 typeMap degree) = "{}"
      <-> breakdown (assemble critRule localizeDamageType
                       formatPersistentTooltip typeMap degree) = []).
Proof.
  assert (Hruns : forall persistent',
             Forall (fun i => nonEmpty (formula i) = true /\ breakdown i <> [])
               (instancesFromTypeMap critRule localizeDamageType
                  formatPersistentTooltip typeMap degree persistent')).
  { intros persistent'. unfold instancesFromTypeMap.
    apply List.Forall_forall. intros i Hi.
    apply in_flat_map in Hi as (entry & _ & Hi).
    exact (proj1 (List.Forall_forall _ _)
             (instanceOf_breakdown critRule localizeDamageType
                formatPersistentTooltip degree persistent' entry) i Hi). }
  split; [exact Hruns|].
  unfold assemble. cbv zeta. cbn [formula breakdown].
  pose proof (Forall_app_2 _ _ _ (Hruns false) (Hruns true)) as Hall.
  destruct (_ ++ _) as [|i instances]; [cbn; tauto|].
  apply List.Forall_cons_iff in Hall as [[Hformula Hbreakdown] Hrest].
  split.
  - intros Heq. exfalso. cbn [map] in Heq.
    assert (Hjoin : nonEmpty (join "," (formula i :: map formula instances))
                    = true) by now apply nonEmpty_join.
    destruct (join "," (formula i :: map formula instances)) as [|c s];
      [discriminate Hjoin|].
    change (String "{" (String c (s +:+ "}")) = "{}") in Heq.
    injection Heq as _ Hs. destruct s; discriminate Hs.
  - cbn [flat_map]. intros Heq. apply app_eq_nil in Heq as [Heq _].
    contradiction.
Qed.

(** ** The damage types of the type map *)

Lemma keys_pushPartial damageType partial typeMap :
  exists extra,
    map fst (pushPartial damageType partial typeMap)
    = map fst typeMap ++ extra
    /\ ((extra = [] /\ In damageType (map fst typeMap))
        \/ (extra = [damageType] /\ ~ In damageType (map fst typeMap))).
Proof.
  induction typeMap as [|[k v] typeMap IH].
  - rewrite pushPartial_nil. exists [damageType]. split; [reflexivity|].
    right. split; [reflexivity|]. intros [].
  - rewrite pushPartial_cons. destruct (String.eqb k damageType) eqn:E.
    + apply String.eqb_eq in E. subst k. exists []. cbn [map fst].
      rewrite app_nil_r. split; [reflexivity|]. left.
      split; [reflexivity|]. now left.
    + apply String.eqb_neq in E. destruct IH as (extra & Hkeys & Hextra).
      exists extra. cbn [map fst]. rewrite Hkeys. split; [reflexivity|].
      destruct Hextra as [[-> Hin]|[-> Hnotin]].
      * left. split; [reflexivity|]. now right.
      * right. split; [reflexivity|]. intros [Heq|Hin]; [now apply E|].
        now apply Hnotin.
Qed.

Lemma In_keys_pushPartial damageType partial typeMap k :
  In k (map fst (pushPartial damageType partial typeMap))
  <-> k = damageType \/ In k (map fst typeMap).
Proof.
  destruct (keys_pushPartial damageType partial typeMap)
    as (extra & -> & [[-> Hin]|[-> Hnotin]]); rewrite in_app_iff; cbn [In].
  - split; [intros [H|[]]; now right|].
    intros [->|H]; now left.
  - split; [intros [H|[H|[]]]; auto|]. intros [->|H]; auto.
Qed.

Lemma NoDup_pushPartial damageType partial typeMap :
  NoDup (map fst typeMap) ->
  NoDup (map fst (pushPartial damageType partial typeMap)).
Proof.
  intros Hnodup.
  destruct (keys_pushPartial damageType partial typeMap)
    as (extra & -> & [[-> Hin]|[-> Hnotin]]).
  - now rewrite app_nil_r.
  - apply NoDup_app. split; [exact Hnodup|]. split.
    + intros x Hx Hx'. apply list_elem_of_In in Hx, Hx'.
      destruct Hx' as [<-|[]]. now apply Hnotin.
    + apply NoDup_singleton.
Qed.

Lemma head_pushPartial damageType partial typeMap k0 :
  hd_error (map fst typeMap) = Some k0 ->
  hd_error (map fst (pushPartial damageType partial typeMap)) = Some k0.
Proof.
  destruct (keys_pushPartial damageType partial typeMap) as (extra & -> & _).
  destruct (map fst typeMap); [discriminate|auto].
Qed.

Lemma inhabited_pushPartial damageType partial typeMap :
  Forall (fun entry => snd entry <> []) typeMap ->
  Forall (fun entry => snd entry <> [])
    (pushPartial damageType partial typeMap).
Proof.
  intros H. unfold pushPartial.
  apply (Forall_mapSet String.eqb (fun v => v <> [])); [|exact H].
  intros Heq. apply app_eq_nil in Heq as [_ Heq]. discriminate Heq.
Qed.

Lemma wellKeyed_pushPartial damageType partial typeMap :
  wellKeyed typeMap -> wellKeyed (pushPartial damageType partial typeMap).
Proof.
  intros [Hkeys Hlists]. split;
    [now apply NoDup_pushPartial|now apply inhabited_pushPartial].
Qed.

Lemma addDice_cases base typeMap d :
  addDice base typeMap d =
  if (0 <? dice_diceNumber d)
     && match resolvedDieSize base d with Some _ => true | None => false end
  then pushPartial (default (base_damageType base) (dice_damageType d))
         (dicePartial d (default d4 (resolvedDieSize base d))) typeMap
  else typeMap.
Proof.
  unfold addDice. destruct (resolvedDieSize base d); cbn [default];
    destruct (0 <? dice_diceNumber d); reflexivity.
Qed.

Lemma fold_addDice_keys base l :
  forall typeMap,
    let typeMap' := fold_left (addDice base) (List.filter dice_enabled l)
                      typeMap in
    (wellKeyed typeMap -> wellKeyed typeMap')
    /\ (forall k0, hd_error (map fst typeMap) = Some k0 ->
                   hd_error (map fst typeMap') = Some k0)
    /\ (forall k, In k (map fst typeMap') <->
                  In k (map fst typeMap)
                  \/ exists d, In d l /\ contributes base d = true
                               /\ default (base_damageType base)
                                    (dice_damageType d) = k).
Proof.
  induction l as [|d l IH]; intros typeMap; cbv zeta.
  - cbn. split; [auto|]. split; [auto|]. intros k. split; [auto|].
    intros [H|(d & [] & _)]. exact H.
  - cbn [List.filter]. unfold contributes at 1.
    destruct (dice_enabled d) eqn:He.
    + cbn [fold_left]. specialize (IH (addDice base typeMap d)).
      cbv zeta in IH. destruct IH as (IHkeyed & IHhead & IHin).
      rewrite addDice_cases in IHkeyed, IHhead, IHin |- *.
      destruct (_ && _) eqn:Hc.
      * split; [intros H; now apply IHkeyed, wellKeyed_pushPartial|].
        split; [intros k0 H; now apply IHhead, head_pushPartial|].
        intros k. rewrite IHin, In_keys_pushPartial. split.
        -- intros [[->|H]|(d' & Hd' & H)]; auto.
           ++ right. exists d. split; [now left|]. unfold contributes.
              rewrite He. cbn [andb]. now split.
           ++ right. exists d'. split; [now right|exact H].
        -- intros [H|(d' & [<-|Hd'] & Hcd & Hk)]; auto.
           right. exists d'. auto.
      * split; [exact IHkeyed|]. split; [exact IHhead|].
        intros k. rewrite IHin. split.
        -- intros [H|(d' & Hd' & H)]; auto.
           right. exists d'. split; [now right|exact H].
        -- intros [H|(d' & [<-|Hd'] & Hcd & Hk)]; auto.
           ++ unfold contributes in Hcd. rewrite He in Hcd.
              cbn [andb] in Hcd. congruence.
           ++ right. exists d'. auto.
    + specialize (IH typeMap). cbv zeta in IH.
      destruct IH as (IHkeyed & IHhead & IHin).
      split; [exact IHkeyed|]. split; [exact IHhead|].
      intros k. rewrite IHin. split.
      * intros [H|(d' & Hd' & H)]; auto.
        right. exists d'. split; [now right|exact H].
      * intros [H|(d' & [<-|Hd'] & Hcd & Hk)]; auto.
        -- unfold contributes in Hcd. rewrite He in Hcd. discriminate Hcd.
        -- right. exists d'. auto.
Qed.

Lemma addModifier_cases base typeMap m :
  addModifier base typeMap m =
  pushPartial (default (base_damageType base) (mod_damageType m))
    (modifierPartial m) typeMap.
Proof. reflexivity. Qed.

Lemma fold_addModifier_keys base l :
  forall typeMap,
    let typeMap' := fold_left (addModifier base) l typeMap in
    (wellKeyed typeMap -> wellKeyed typeMap')
    /\ (forall k0, hd_error (map fst typeMap) = Some k0 ->
                   hd_error (map fst typeMap') = Some k0)
    /\ (forall k, In k (map fst typeMap') <->
                  In k (map fst typeMap)
                  \/ exists m, In m l
                               /\ default (base_damageType base)
                                    (mod_damageType m) = k).
Proof.
  induction l as [|m l IH]; intros typeMap; cbv zeta.
  - cbn. split; [auto|]. split; [auto|]. intros k. split; [auto|].
    intros [H|(m & [] & _)]. exact H.
  - cbn [fold_left]. specialize (IH (addModifier base typeMap m)).
    cbv zeta in IH. destruct IH as (IHkeyed & IHhead & IHin).
    rewrite addModifier_cases in IHkeyed, IHhead, IHin.
    split; [intros H; now apply IHkeyed, wellKeyed_pushPartial|].
    split; [intros k0 H; now apply IHhead, head_pushPartial|].
    intros k. rewrite IHin, In_keys_pushPartial. split.
    + intros [[->|H]|(m' & Hm' & H)]; auto.
      * right. exists m. split; [now left|reflexivity].
      * right. exists m'. split; [now right|exact H].
    + intros [H|(m' & [<-|Hm'] & Hk)]; auto.
      right. exists m'. auto.
Qed.

Lemma baseTypeMap_keys base :
  wellKeyed (baseTypeMap base)
  /\ (baseTypeMap base = []
      \/ map fst (baseTypeMap base) = [base_damageType base]).
Proof.
  unfold baseTypeMap. destruct (_ || _).
  - cbn. split; [|now right]. split.
    + apply NoDup_singleton.
    + constructor; [discriminate|constructor].
  - split; [|now left]. split; [apply NoDup_nil_2|constructor].
Qed.

(** X9: the type map holds every damage type once, each with a list of
    partials that is not empty, and the damage type of the base damage
    first when the base damage has entered the map.  Its damage types
    are those of the base damage (if entered), of the enabled dice with
    a positive number and a die size, and of the enabled modifiers that
    are compatible with the outcome, where an entry without a damage
    type of its own has the one of the base damage. *)
Theorem typeMap_damage_types critical damage :
  NoDup (map fst (buildTypeMap critical damage))
  /\ Forall (fun entry => snd entry <> []) (buildTypeMap critical damage)
  /\ (baseTypeMap (dmg_base damage) <> [] ->
      hd_error (map fst (buildTypeMap critical damage))
      = Some (base_damageType (dmg_base damage)))
  /\ forall k,
       In k (map fst (buildTypeMap critical damage)) <->
       (baseTypeMap (dmg_base damage) <> []
        /\ k = base_damageType (dmg_base damage))
       \/ (exists d, In d (dmg_dice damage)
                     /\ contributes (dmg_base damage) d = true
                     /\ default (base_damageType (dmg_base damage))
                          (dice_damageType d) = k)
       \/ (exists m, In m (dmg_modifiers damage)
                     /\ mod_enabled m = true
                     /\ outcomeMatches critical (mod_critical m) = true
                     /\ default (base_damageType (dmg_base damage))
                          (mod_damageType m) = k).
Proof.
  unfold buildTypeMap. cbv zeta. set (base := dmg_base damage).
  destruct (baseTypeMap_keys base) as [Hbase Hfirst].
  destruct (fold_addDice_keys base (dmg_dice damage) (baseTypeMap base))
    as (Hkeyed & Hhead & Hin). cbv zeta in Hkeyed, Hhead, Hin.
  set (withDice := fold_left (addDice base)
                     (List.filter dice_enabled (dmg_dice damage))
                     (baseTypeMap base)) in *.
  destruct (fold_addModifier_keys base
              (selectModifiers critical base (dmg_modifiers damage)) withDice)
    as (Hkeyed' & Hhead' & Hin'). cbv zeta in Hkeyed', Hhead', Hin'.
  destruct (Hkeyed' (Hkeyed Hbase)) as [Hnodup Hlists].
  split; [exact Hnodup|]. split; [exact Hlists|]. split.
  - intros Hentered. apply Hhead', Hhead.
    destruct Hfirst as [Hnil| ->]; [contradiction|reflexivity].
  - intros k. rewrite Hin', Hin. split.
    + intros [[Hk|Hk]|(m & Hm & Hk)].
      * left. destruct Hfirst as [Hnil|Hkeys].
        -- rewrite Hnil in Hk. destruct Hk.
        -- rewrite Hkeys in Hk. destruct Hk as [<-|[]].
           split; [|reflexivity]. intros Hnil. rewrite Hnil in Hkeys.
           discriminate Hkeys.
      * right. left. exact Hk.
      * right. right. apply selectModifiers_spec in Hm
          as (m0 & Hm0 & Hen & Hout & ->).
        exists m0. cbn [withDamageType mod_damageType default] in Hk.
        auto.
    + intros [[Hentered ->]|[Hk|(m & Hm & Hen & Hout & Hk)]].
      * left. left. destruct Hfirst as [Hnil| ->]; [contradiction|now left].
      * left. now right.
      * right. exists (withDamageType base m). split.
        -- apply selectModifiers_spec. exists m. auto.
        -- cbn [withDamageType mod_damageType default]. exact Hk.
Qed.

(** ** A critical hit without critical-specific partials *)

Lemma requestedPartials_ext groups inclusion inclusion' c :
  (forall p, In p (flattenedDamage groups) ->
             includes inclusion (critical p)
             = includes inclusion' (critical p)) ->
  requestedPartials groups inclusion c = requestedPartials groups inclusion' c.
Proof.
  intros H. unfold requestedPartials. apply filter_ext_in.
  intros p Hp. apply H. now apply (In_flattenedDamage groups c).
Qed.

Lemma createPartialFormulas_ext groups inclusion inclusion' doubleDice' :
  (forall p, In p (flattenedDamage groups) ->
             includes inclusion (critical p)
             = includes inclusion' (critical p)) ->
  createPartialFormulas groups inclusion doubleDice'
  = createPartialFormulas groups inclusion' doubleDice'.
Proof.
  intros H. unfold createPartialFormulas, categoryFragment.
  apply flat_map_ext. intros c.
  now rewrite (requestedPartials_ext groups inclusion inclusion' c H).
Qed.

(** X10: when no partial is specific to critical hits or exempt from
    doubling and the dice are not doubled by the rule of the game, the
    sum of a critical success is two times the sum of a success, which
    is enclosed in parentheses when it holds an operator; there is no
    sum for the one exactly when there is none for the other. *)
Theorem critical_doubles_the_success_sum critRule groups :
  String.eqb critRule "doubledice" = false ->
  (forall p, In p (flattenedDamage groups) -> critical p = None) ->
  summedDamage critRule groups CRITICAL_SUCCESS =
  match summedDamage critRule groups SUCCESS with
  | None => None
  | Some summed =>
      Some ("2 * " +:+ (if hasOperators (Some summed)
                        then "(" +:+ summed +:+ ")"
                        else summed))
  end.
Proof.
  intros Hrule Hplain.
  unfold summedDamage, nonCriticalDamage, criticalDamage, double, doubleDice,
    nonCriticalInclusion.
  rewrite Hrule.
  change (degree_eqb CRITICAL_SUCCESS CRITICAL_SUCCESS) with true.
  change (degree_eqb SUCCESS CRITICAL_SUCCESS) with false.
  change (degreeTruthy CRITICAL_SUCCESS) with true.
  change (degreeTruthy SUCCESS) with true.
  cbv iota. change (includes [DOUBLE_ON_CRIT] None) with true.
  cbn [andb negb].
  rewrite (createPartialFormulas_none groups
             [CRITICAL_ONLY; DONT_DOUBLE_ON_CRIT] false)
    by (intros p Hp; rewrite (Hplain p Hp); reflexivity).
  rewrite (createPartialFormulas_ext groups [DOUBLE_ON_CRIT]
             [DOUBLE_ON_CRIT; DONT_DOUBLE_ON_CRIT] false)
    by (intros p Hp; rewrite (Hplain p Hp); reflexivity).
  change (sumExpression (map Some []) false) with (@None string).
  pose proof (createPartialFormulas_nonEmpty groups
                [DOUBLE_ON_CRIT; DONT_DOUBLE_ON_CRIT] false) as Hfragments.
  rewrite !(sumExpression_fragments _ _ Hfragments).
  destruct Hfragments as [|first rest Hfirst Hrest]; [reflexivity|].
  cbv zeta.
  pose proof (nonEmpty_join " + " first rest Hfirst) as Hsummed.
  rewrite (sumExpression_with_absent _ Hsummed).
  apply sumExpression_with_absent.
  destruct (hasOperators _); [reflexivity|].
  change ("2 * " +:+ join " + " (first :: rest))
    with (String "2" (" * " +:+ join " + " (first :: rest))).
  reflexivity.
Qed.

(** ** The terms of a simple formula *)

Lemma negateTerm_involutive t : negateTerm (negateTerm t) = t.
Proof.
  destruct t as [m d]. unfold negateTerm, truthy. cbn [term_modifier term_dice].
  f_equal.
  - destruct (Z.eqb_spec m 0) as [->|Hm]; [reflexivity|]. cbn [negb].
    destruct (Z.eqb_spec (m * -1) 0); cbn [negb]; lia.
  - destruct d as [[n f]|]; [|reflexivity]. cbn [number faces].
    do 2 f_equal. lia.
Qed.

Lemma parseStep_plus o result :
  isSignOperator o = true -> isMinusOperator o = false ->
  parseStep o result = result.
Proof.
  unfold isSignOperator, isMinusOperator, parseStep. intros Hsign Hminus.
  rewrite Hminus, orb_false_r in Hsign. now rewrite Hsign.
Qed.

Lemma parseStep_minus o result :
  isMinusOperator o = true ->
  parseStep o result = match result with
                       | termToModify :: rest => negateTerm termToModify :: rest
                       | [] => []
                       end.
Proof.
  unfold isMinusOperator, parseStep. intros Hminus.
  apply String.eqb_eq in Hminus. rewrite Hminus.
  cbn [String.eqb Ascii.eqb Bool.eqb andb]. now destruct result.
Qed.

Lemma parseStep_operand t result :
  isSignOperator t = false -> parseStep t result = termPartial t :: result.
Proof.
  unfold isSignOperator, parseStep. intros H.
  apply orb_false_iff in H as [-> ->]. reflexivity.
Qed.

Lemma parse_operators ops rest :
  Forall (fun o => isSignOperator o = true) ops ->
  parseTermsFromSimpleFormula (ops ++ rest) =
  match parseTermsFromSimpleFormula rest with
  | [] => []
  | t :: result =>
      (if Nat.odd (length (List.filter isMinusOperator ops))
       then negateTerm t else t) :: result
  end.
Proof.
  intros Hops. induction Hops as [|o ops Ho Hops IH].
  - cbn [app List.filter length Nat.odd].
    change (Nat.odd 0) with false.
    now destruct (parseTermsFromSimpleFormula rest).
  - change (parseTermsFromSimpleFormula ((o :: ops) ++ rest))
      with (parseStep o (parseTermsFromSimpleFormula (ops ++ rest))).
    rewrite IH. cbn [List.filter].
    destruct (isMinusOperator o) eqn:Hminus.
    + rewrite (parseStep_minus o _ Hminus).
      destruct (parseTermsFromSimpleFormula rest) as [|t result];
        [reflexivity|].
      cbn [length]. rewrite Nat.odd_succ, <- Nat.negb_odd.
      destruct (Nat.odd _); cbn [negb]; [|reflexivity].
      now rewrite negateTerm_involutive.
    + now rewrite (parseStep_plus o _ Ho Hminus).
Qed.

(** X11: the sign of a parsed term.  A term that is no operator, after
    a run of operators, is entered with its sign reversed when the
    number of [" - "] in the run is odd and as it is when it is even,
    whatever precedes the run has no effect on it, and it has none on
    the terms that follow; operators that no term follows are ignored. *)
Theorem parsed_term_sign before ops t rest :
  Forall (fun o => isSignOperator o = true) ops ->
  isSignOperator t = false ->
  parseTermsFromSimpleFormula (ops ++ t :: rest)
  = (if Nat.odd (length (List.filter isMinusOperator ops))
     then negateTerm (termPartial t) else termPartial t)
    :: parseTermsFromSimpleFormula rest
  /\ parseTermsFromSimpleFormula (before ++ ops)
     = parseTermsFromSimpleFormula before.
Proof.
  intros Hops Ht. split.
  - rewrite (parse_operators ops (t :: rest) Hops).
    change (parseTermsFromSimpleFormula (t :: rest))
      with (parseStep t (parseTermsFromSimpleFormula rest)).
    now rewrite (parseStep_operand t _ Ht).
  - unfold parseTermsFromSimpleFormula at 1. rewrite fold_right_app.
    fold (parseTermsFromSimpleFormula ops).
    pose proof (parse_operators ops [] Hops) as H.
    rewrite app_nil_r in H. rewrite H. reflexivity.
Qed.

Lemma combinePartialTerms_skip x terms doubleDice' :
  hasPositiveDice x = false -> term_modifier x = 0 ->
  combinePartialTerms (x :: terms) doubleDice'
  = combinePartialTerms terms doubleDice'.
Proof.
  intros Hdice Hmodifier. unfold combinePartialTerms, positiveDice.
  cbn [List.filter fold_left]. now rewrite Hdice, Hmodifier.
Qed.

(** X12: a subtracted die does not reach the combined formula.  The
    parser enters a die after [" - "] with its number of dice negated,
    and the combiner leaves out dice whose number is not positive: the
    terms combine to what the terms after the die combine to. *)
Theorem subtracted_die_is_dropped minus die rest faces' number' doubleDice' :
  isMinusOperator minus = true ->
  isSignOperator die = false ->
  roll_kind die = DieKind faces' number' ->
  0 <= number' ->
  combinePartialTerms (parseTermsFromSimpleFormula (minus :: die :: rest))
    doubleDice'
  = combinePartialTerms (parseTermsFromSimpleFormula rest) doubleDice'.
Proof.
  intros Hminus Hdie Hkind Hnumber.
  change (parseTermsFromSimpleFormula (minus :: die :: rest))
    with (parseStep minus
            (parseStep die (parseTermsFromSimpleFormula rest))).
  rewrite (parseStep_operand die _ Hdie), (parseStep_minus minus _ Hminus).
  apply combinePartialTerms_skip.
  - unfold hasPositiveDice, negateTerm, termPartial. rewrite Hkind.
    cbn [term_dice number]. apply Z.ltb_ge. lia.
  - unfold negateTerm, termPartial. rewrite Hkind. reflexivity.
Qed.

Lemma append_associative a b c : (a +:+ b) +:+ c = a +:+ b +:+ c.
Proof.
  induction a as [|x a IH]; [reflexivity|].
  change (String x ((a +:+ b) +:+ c) = String x (a +:+ b +:+ c)).
  now f_equal.
Qed.

Lemma positiveDice_single t terms :
  hasPositiveDice t = true ->
  Forall (fun x => hasPositiveDice x = false) terms ->
  positiveDice (t :: terms)
  = [{| term_modifier := term_modifier t;
        term_dice := Some {| number := number (diceOf t);
                             faces := faces (diceOf t) |} |}].
Proof.
  intros Ht Hterms. unfold positiveDice. cbn [List.filter]. rewrite Ht.
  rewrite (filter_none hasPositiveDice terms)
    by (intros x Hx; exact (proj1 (List.Forall_forall _ _) Hterms x Hx)).
  cbn [sortBy fold_right insertBy groupBy fold_left groupStep mapGet mapSet
       map snd combineGroup].
  unfold sum. cbn [fold_left List.filter diceOf default term_dice number].
  unfold hasPositiveDice in Ht. unfold diceOf.
  destruct (term_dice t) as [d|]; [|discriminate Ht]. cbn [default id].
  cbn [number]. rewrite Z.add_0_l, Ht. reflexivity.
Qed.

(** X13: a round trip.  The terms of a formula of a positive number of
    dice and a positive number, with one operator between them, combine
    to that formula again, the dice first. *)
Theorem dice_and_number_round_trip die op num faces' number' constant :
  roll_kind die = DieKind faces' number' ->
  isSignOperator die = false ->
  roll_kind num = NumericTermKind constant ->
  isSignOperator num = false ->
  isSignOperator op = true ->
  0 < number' ->
  0 < constant ->
  combinePartialTerms (parseTermsFromSimpleFormula [die; op; num]) false
  = numberToString number' +:+ "d" +:+ numberToString faces'
    +:+ roll_expression op +:+ numberToString constant.
Proof.
  intros Hdie Hdie' Hnum Hnum' Hop Hnumber Hconstant.
  assert (Hpositive : hasPositiveDice (termPartial die) = true).
  { unfold hasPositiveDice, termPartial. rewrite Hdie. cbn [term_dice number].
    now apply Z.ltb_lt. }
  assert (Hnone : forall x, term_dice x = None -> hasPositiveDice x = false).
  { intros x Hx. unfold hasPositiveDice. now rewrite Hx. }
  assert (Hparsed : parseTermsFromSimpleFormula [die; op; num]
                    = [termPartial die;
                       if isMinusOperator op
                       then negateTerm (termPartial num)
                       else termPartial num]).
  { change (parseTermsFromSimpleFormula [die; op; num])
      with (parseStep die (parseStep op (parseStep num []))).
    rewrite (parseStep_operand die _ Hdie'), (parseStep_operand num _ Hnum').
    destruct (isMinusOperator op) eqn:Hminus.
    - now rewrite (parseStep_minus op _ Hminus).
    - now rewrite (parseStep_plus op _ Hop Hminus). }
  assert (Hexpression : roll_expression op
                        = if isMinusOperator op then " - " else " + ").
  { unfold isSignOperator, isMinusOperator in *.
    destruct (String.eqb_spec (roll_expression op) " - ") as [->|Hne];
      [reflexivity|].
    rewrite orb_false_r in Hop. now apply String.eqb_eq in Hop. }
  rewrite Hparsed, combinePartialTerms_cases, Hexpression.
  { cbn [forallb]. rewrite Hpositive. cbn [negb andb].
    rewrite positiveDice_single; [|exact Hpositive|].
    2:{ constructor; [|constructor]. apply Hnone.
        unfold negateTerm, termPartial. rewrite Hnum.
        now destruct (isMinusOperator op). }
    unfold constantOf, termPartial, negateTerm, truthy. rewrite Hdie, Hnum.
    cbn [fold_left term_modifier term_dice map renderDice renderPiece diceOf
         default number faces id].
    unfold join. cbn [String.concat]. rewrite !append_associative.
    destruct (isMinusOperator op); cbn [term_modifier].
    + destruct (Z.eqb_spec constant 0) as [->|_]; [lia|]. cbn [negb].
      replace (0 + 0 + constant * -1) with (- constant) by lia.
      destruct (Z.eqb_spec (- constant) 0); [lia|].
      destruct (Z.ltb_spec 0 (- constant)); [lia|].
      replace (Z.abs (- constant)) with constant by lia. reflexivity.
    + replace (0 + 0 + constant) with constant by lia.
      destruct (Z.eqb_spec constant 0); [lia|].
      destruct (Z.ltb_spec 0 constant); [|lia].
      replace (Z.abs constant) with constant by lia. reflexivity. }
Qed.

(** ** The labels of a breakdown *)

Lemma flattened_Permutation partials :
  Permutation
    (flattenedDamage (groupBy category_eqb partials category)) partials.
Proof.
  unfold flattenedDamage, categories. cbn [flat_map].
  rewrite !groups_get, app_nil_r. unfold ofCategory.
  induction partials as [|p partials IH]; [reflexivity|].
  cbn [List.filter].
  destruct (category p) as [[]|]; cbn [category_eqb app].
  - rewrite <- Permutation_middle. now constructor.
  - rewrite (app_assoc (List.filter _ partials)), <- Permutation_middle,
      <- app_assoc. now constructor.
  - rewrite (app_assoc (List.filter _ partials)),
      (app_assoc (List.filter _ partials ++ _)), <- Permutation_middle,
      <- !app_assoc. now constructor.
  - now constructor.
Qed.

Lemma filter_partition_Permutation {A} (f : A -> bool) l :
  Permutation (List.filter (fun x => negb (f x)) l ++ List.filter f l) l.
Proof.
  induction l as [|x l IH]; [reflexivity|]. cbn [List.filter].
  destruct (f x); cbn [negb app].
  - rewrite <- Permutation_middle. now constructor.
  - now constructor.
Qed.

Lemma breakdownDamage_Permutation partials degree :
  Permutation
    (breakdownDamage (groupBy category_eqb partials category) degree)
    (listedInBreakdown degree partials).
Proof.
  unfold breakdownDamage, listedInBreakdown.
  pose proof (flattened_Permutation partials) as Hflat.
  destruct (degree_eqb degree CRITICAL_SUCCESS); cbn [orb].
  - rewrite filter_partition_Permutation, filter_all. exact Hflat.
  - rewrite app_nil_r. now apply filter_Permutation.
Qed.

(** X14: the breakdown of an instance has one label for every partial
    that the run takes of the damage type, but on a critical success
    only for those that are not specific to critical hits: also for the
    partials that the formula leaves out.  The first label is followed
    by the name of the damage type, in the tooltip of persistent damage
    in the run over the persistent partials. *)
Theorem breakdown_lists_every_partial critRule localizeDamageType
    formatPersistentTooltip degree persistent' damageType typePartials i :
  In i (instanceOf critRule localizeDamageType formatPersistentTooltip degree
          persistent' (damageType, typePartials)) ->
  exists first rest,
    Permutation (first :: rest)
      (listedInBreakdown degree (partialsOfRun persistent' typePartials))
    /\ breakdown i
       = (stripLeadingPlus (label first) +:+ " "
          +:+ (if persistent'
               then formatPersistentTooltip (localizeDamageType damageType)
               else localizeDamageType damageType))
         :: map label rest.
Proof.
  unfold instanceOf. fold (partialsOfRun persistent' typePartials).
  set (partials := partialsOfRun persistent' typePartials).
  destruct (length partials =? 0)%nat; [intros []|]. cbv zeta.
  set (groups := groupBy category_eqb partials category).
  pose proof (breakdownDamage_Permutation partials degree) as Hlisted.
  fold groups in Hlisted. unfold breakdownOf.
  destruct (breakdownDamage groups degree) as [|first rest] eqn:Hb.
  - rewrite (summedDamage_without_breakdown critRule groups degree Hb).
    intros [].
  - intros Hi. exists first, rest. split; [exact Hlisted|].
    assert (Hfirst : category_eqb (category first) (Some persistent)
                     = persistent').
    { assert (Hin : In first (listedInBreakdown degree partials)).
      { apply (Permutation_in _ Hlisted). now left. }
      unfold listedInBreakdown, partials, partialsOfRun in Hin.
      apply filter_In in Hin as [Hin _]. apply filter_In in Hin as [_ Hin].
      now apply Bool.eqb_prop in Hin. }
    rewrite Hfirst in Hi.
    destruct (ensureValidFormulaHead _) as [e|]; [|destruct Hi].
    match type of Hi with
    | In _ match ?f with _ => _ end =>
        destruct f as [f'|]; [|destruct Hi];
        destruct (nonEmpty f'); [|destruct Hi]
    end.
    destruct Hi as [<-|[]]. reflexivity.
Qed.

(** * The compiler against the specification *)

(** ** The combiner *)

Lemma insertFace_In f l k : In k (insertFace f l) <-> k = f \/ In k l.
Proof.
  induction l as [|g l IH]; cbn [insertFace In]; [intuition congruence|].
  destruct (g <? f); [cbn [In]; intuition congruence|].
  destruct (Z.eqb_spec g f) as [->|Hne]; cbn [In]; [intuition congruence|].
  rewrite IH. intuition congruence.
Qed.

Lemma insertFace_sorted f l :
  StronglySorted Z.gt l -> StronglySorted Z.gt (insertFace f l).
Proof.
  intros Hl. induction Hl as [|g l Hl IH Hg]; cbn [insertFace].
  - repeat constructor.
  - destruct (Z.ltb_spec g f) as [Hlt|Hge].
    + constructor; [now constructor|]. constructor; [lia|].
      eapply Forall_impl; [exact Hg|]. intros k Hk. simpl in Hk. lia.
    + destruct (Z.eqb_spec g f) as [->|Hne]; [now constructor|].
      constructor; [exact IH|]. apply List.Forall_forall. intros k Hk.
      apply insertFace_In in Hk as [->|Hk]; [lia|].
      rewrite List.Forall_forall in Hg. now apply Hg.
Qed.

Lemma facesDescending_sorted dice : StronglySorted Z.gt (facesDescending dice).
Proof.
  unfold facesDescending. induction dice as [|d dice IH]; cbn; [constructor|].
  now apply insertFace_sorted.
Qed.

Lemma facesDescending_In dice k :
  In k (facesDescending dice) <-> exists d, In d dice /\ faces d = k.
Proof.
  unfold facesDescending. induction dice as [|d dice IH]; cbn [map fold_right].
  - split; [intros []|intros (d & [] & _)].
  - rewrite insertFace_In, IH. split.
    + intros [->|(d' & Hd' & Hk)]; [exists d|exists d']; cbn; auto.
    + intros (d' & [<-|Hd'] & Hk); [now left|right; eauto].
Qed.

Lemma positiveDiceOf_filter terms :
  positiveDiceOf terms = map diceOf (List.filter hasPositiveDice terms).
Proof.
  unfold positiveDiceOf, hasPositiveDice, diceOf.
  induction terms as [|t terms IH]; [reflexivity|].
  cbn [flat_map List.filter]. rewrite IH.
  destruct (term_dice t) as [d|] eqn:Hdice; [|reflexivity].
  destruct (0 <? number d); [|reflexivity].
  cbn [map app]. now rewrite Hdice.
Qed.

Lemma positiveDiceOf_In terms d :
  In d (positiveDiceOf terms) <->
  exists t, In t terms /\ term_dice t = Some d /\ 0 < number d.
Proof.
  unfold positiveDiceOf. rewrite in_flat_map. split.
  - intros (t & Ht & Hd). exists t. split; [exact Ht|].
    destruct (term_dice t) as [d'|]; [|destruct Hd].
    destruct (Z.ltb_spec 0 (number d')); [|destruct Hd].
    destruct Hd as [<-|[]]. auto.
  - intros (t & Ht & Hdice & Hpos). exists t. split; [exact Ht|].
    rewrite Hdice. apply Z.ltb_lt in Hpos. rewrite Hpos. now left.
Qed.

Lemma sum_fold_right values : sum values = fold_right Z.add 0 values.
Proof.
  induction values as [|v values IH]; [reflexivity|].
  rewrite sum_cons, IH. reflexivity.
Qed.

Lemma summedCount_countOfFaces k terms :
  summedCount k (List.filter hasPositiveDice terms)
  = countOfFaces k (positiveDiceOf terms).
Proof.
  rewrite positiveDiceOf_filter. unfold summedCount, countOfFaces.
  rewrite sum_fold_right. f_equal.
  induction terms as [|t terms IH]; [reflexivity|].
  cbn [List.filter]. destruct (hasPositiveDice t) eqn:Hpositive; [|exact IH].
  cbn [List.filter map].
  rewrite <- (hasPositiveDice_hasFaces k t Hpositive).
  destruct (faces (diceOf t) =? k); cbn [map]; now rewrite IH.
Qed.

Lemma diceGroups_faces terms :
  map fst (diceGroups terms) = facesDescending (positiveDiceOf terms).
Proof.
  apply descending_unique;
    [apply diceGroups_keys_descending|apply facesDescending_sorted|].
  intros k. rewrite diceGroups_keys, facesDescending_In, positiveDiceOf_filter.
  split.
  - intros (t & Ht & Hk). exists (diceOf t). split; [now apply in_map|exact Hk].
  - intros (d & Hd & Hk). apply in_map_iff in Hd as (t & <- & Ht). eauto.
Qed.

(** The groups that the combiner renders are the groups of the
    specification. *)
Lemma positiveDice_diceTotals terms :
  map diceGroup (positiveDice terms) = diceTotals terms.
Proof.
  rewrite positiveDice_groups, diceGroups_faces. unfold diceTotals.
  apply map_ext. intros k. now rewrite summedCount_countOfFaces.
Qed.

Lemma constantOf_totalModifier terms : constantOf terms = totalModifier terms.
Proof.
  unfold constantOf, totalModifier.
  now rewrite constant_is_sum, sum_fold_right.
Qed.

Lemma combinePartialTerms_expected terms doubleDice' :
  combinePartialTerms terms doubleDice' = expectedCombination terms doubleDice'.
Proof.
  rewrite combinePartialTerms_cases. unfold expectedCombination.
  rewrite <- constantOf_totalModifier, <- positiveDice_diceTotals, map_map.
  change (fun x => renderGroup doubleDice' (diceGroup x))
    with (renderDice doubleDice').
  destruct (positiveDice terms) as [|g groups] eqn:Hdice.
  - apply positiveDice_nil, forallb_no_positive_dice in Hdice.
    rewrite Hdice. reflexivity.
  - assert (Hsome : forallb (fun t => negb (hasPositiveDice t)) terms = false).
    { destruct (forallb _ terms) eqn:Hall; [|reflexivity].
      apply forallb_no_positive_dice, positiveDice_nil in Hall. congruence. }
    rewrite Hsome. reflexivity.
Qed.

Lemma countOfFaces_positive f dice :
  Forall (fun d => 0 < number d) dice ->
  (exists d, In d dice /\ faces d = f) ->
  0 < countOfFaces f dice.
Proof.
  unfold countOfFaces. intros Hall (d & Hd & Hf).
  assert (Hnonneg : forall l, Forall (fun d => 0 < number d) l ->
                              0 <= fold_right Z.add 0
                                     (map number
                                        (List.filter (fun d => faces d =? f) l))).
  { intros l Hl. induction Hl as [|x l Hx Hl IH]; cbn; [lia|].
    destruct (faces x =? f); cbn; lia. }
  induction Hall as [|x dice Hx Hall IH]; [destruct Hd|].
  cbn [List.filter]. specialize (Hnonneg dice Hall).
  destruct Hd as [->|Hd].
  - apply Z.eqb_eq in Hf. rewrite Hf. cbn. lia.
  - specialize (IH Hd). destruct (faces x =? f); cbn; lia.
Qed.

(** C4: the combiner writes what the specification describes for the
    partials whose own number of dice is positive: one group of dice for
    each number of faces of such a partial, the largest faces first, with
    the sum of the numbers of these partials, which is positive, then
    the constant.  The combined dice that the combiner keeps are these
    groups, and its filter on the summed number removes none of them.  A
    partial whose number of dice is not positive is in no group and
    lowers no sum. *)
Theorem positive_dice_are_summed_by_faces terms doubleDice' :
  combinePartialTerms terms doubleDice' = expectedCombination terms doubleDice'
  /\ map diceGroup (positiveDice terms) = diceTotals terms
  /\ positiveDice terms = map combineGroup (map snd (diceGroups terms))
  /\ (forall d, In d (positiveDiceOf terms) <->
                exists t, In t terms /\ term_dice t = Some d /\ 0 < number d)
  /\ StronglySorted Z.gt (map fst (diceTotals terms))
  /\ (forall f n, In (f, n) (diceTotals terms) <->
                  (exists d, In d (positiveDiceOf terms) /\ faces d = f)
                  /\ n = countOfFaces f (positiveDiceOf terms))
  /\ Forall (fun g => 0 < snd g) (diceTotals terms).
Proof.
  split; [apply combinePartialTerms_expected|].
  split; [apply positiveDice_diceTotals|].
  split; [apply positiveDice_all_groups|].
  split; [apply positiveDiceOf_In|].
  assert (Hmember : forall f n,
             In (f, n) (diceTotals terms) <->
             (exists d, In d (positiveDiceOf terms) /\ faces d = f)
             /\ n = countOfFaces f (positiveDiceOf terms)).
  { intros f n. unfold diceTotals. rewrite in_map_iff. split.
    - intros (f' & [= -> <-] & Hf). split; [|reflexivity].
      now apply facesDescending_In.
    - intros [Hf ->]. exists f. split; [reflexivity|].
      now apply facesDescending_In. }
  split; [|split; [exact Hmember|]].
  - unfold diceTotals. rewrite map_map. cbn [fst]. rewrite map_id.
    apply facesDescending_sorted.
  - apply List.Forall_forall. intros [f n] Hg. cbn [snd].
    apply Hmember in Hg as [Hf ->].
    apply countOfFaces_positive; [|exact Hf].
    apply List.Forall_forall. intros d Hd.
    now apply positiveDiceOf_In in Hd as (t & _ & _ & Hpos).
Qed.

(** ** The sub-expressions of a damage type *)

Lemma categoryFragment_expected partials inclusion doubleDice' c :
  categoryFragment (groupBy category_eqb partials category) inclusion
    doubleDice' c
  = expectedFragment partials inclusion doubleDice' c.
Proof.
  unfold categoryFragment, expectedFragment, requestedPartials,
    parenthesizedIfOperator.
  rewrite groups_get. fold (admittedPartials inclusion c partials).
  rewrite combinePartialTerms_expected.
  generalize (expectedCombination
                (map partialTerm (admittedPartials inclusion c partials))
                doubleDice').
  intros e. destruct c as [[]|]; cbn [categoryString categoryName];
    destruct e as [|ch e]; try reflexivity;
    change (hasOperators (Some "")) with false; cbn [andb existsb orb];
    try reflexivity.
  - change (existsb (String.eqb "precision") ["precision"; "splash"])
      with true. cbn [andb].
    destruct (hasOperators (Some (String ch e))); reflexivity.
  - change (existsb (String.eqb "splash") ["precision"; "splash"])
      with true. cbn [andb].
    destruct (hasOperators (Some (String ch e))); reflexivity.
Qed.

Lemma createPartialFormulas_expected partials inclusion doubleDice' :
  createPartialFormulas (groupBy category_eqb partials category) inclusion
    doubleDice'
  = expectedFragments partials inclusion doubleDice'.
Proof.
  unfold createPartialFormulas, expectedFragments, categories.
  cbn [flat_map map List.filter]. rewrite !categoryFragment_expected.
  generalize (expectedFragment partials inclusion doubleDice' None),
    (expectedFragment partials inclusion doubleDice' (Some persistent)),
    (expectedFragment partials inclusion doubleDice' (Some precision)),
    (expectedFragment partials inclusion doubleDice' (Some splash)).
  intros s1 s2 s3 s4.
  destruct (nonEmpty s1), (nonEmpty s2), (nonEmpty s3), (nonEmpty s4);
    reflexivity.
Qed.

Lemma expectedFragments_nonEmpty partials inclusion doubleDice' :
  Forall (fun s => nonEmpty s = true)
    (expectedFragments partials inclusion doubleDice').
Proof.
  unfold expectedFragments. apply List.Forall_forall. intros s Hs.
  now apply filter_In in Hs as [_ Hs].
Qed.

Lemma sumOf_nonEmpty summands s :
  Forall (fun x => nonEmpty x = true) summands ->
  sumOf summands = Some s -> nonEmpty s = true.
Proof.
  intros Hall. destruct Hall as [|x l Hx Hl]; [discriminate|].
  intros [= <-]. now apply nonEmpty_join.
Qed.

Lemma sumExpression_sumOf fragments :
  Forall (fun s => nonEmpty s = true) fragments ->
  sumExpression (map Some fragments) false = sumOf fragments.
Proof.
  intros Hne. rewrite (sumExpression_fragments _ _ Hne).
  now destruct fragments.
Qed.

Lemma sumExpression_twice fragments :
  Forall (fun s => nonEmpty s = true) fragments ->
  sumExpression (map Some fragments) true = option_map twice (sumOf fragments).
Proof.
  intros Hne. rewrite (sumExpression_fragments _ _ Hne).
  now destruct fragments.
Qed.

Lemma nonCriticalDamage_expected critRule partials degree :
  nonCriticalDamage critRule (groupBy category_eqb partials category) degree
  = expectedNonCritical critRule degree partials.
Proof.
  unfold nonCriticalDamage, expectedNonCritical, double, doubleDice,
    nonCriticalInclusion.
  rewrite createPartialFormulas_expected.
  destruct degree;
    try (change (degree_eqb _ CRITICAL_SUCCESS) with false; cbv iota;
         cbn [andb]; apply sumExpression_sumOf, expectedFragments_nonEmpty).
  change (degree_eqb CRITICAL_SUCCESS CRITICAL_SUCCESS) with true. cbv iota.
  change (includes [DOUBLE_ON_CRIT] None) with true. cbn [andb].
  destruct (String.eqb critRule "doubledice"); cbn [negb].
  - apply sumExpression_sumOf, expectedFragments_nonEmpty.
  - apply sumExpression_twice, expectedFragments_nonEmpty.
Qed.

Lemma criticalDamage_expected partials degree :
  criticalDamage (groupBy category_eqb partials category) degree
  = expectedCritical degree partials.
Proof.
  unfold criticalDamage, expectedCritical.
  destruct degree;
    try (change (degree_eqb _ CRITICAL_SUCCESS) with false; reflexivity).
  change (degree_eqb CRITICAL_SUCCESS CRITICAL_SUCCESS) with true.
  cbn [negb]. rewrite createPartialFormulas_expected.
  apply sumExpression_sumOf, expectedFragments_nonEmpty.
Qed.

Lemma expectedNonCritical_nonEmpty critRule degree partials s :
  expectedNonCritical critRule degree partials = Some s -> nonEmpty s = true.
Proof.
  unfold expectedNonCritical.
  destruct degree;
    try apply sumOf_nonEmpty, expectedFragments_nonEmpty.
  destruct (String.eqb critRule "doubledice");
    [apply sumOf_nonEmpty, expectedFragments_nonEmpty|].
  destruct (sumOf _); [|discriminate]. now intros [= <-].
Qed.

Lemma expectedCritical_nonEmpty degree partials s :
  expectedCritical degree partials = Some s -> nonEmpty s = true.
Proof.
  unfold expectedCritical.
  destruct degree; try discriminate.
  apply sumOf_nonEmpty, expectedFragments_nonEmpty.
Qed.

(** The sum of sub-expressions that are absent or not empty. *)
Lemma sumExpression_present expressions :
  (forall s, In (Some s) expressions -> nonEmpty s = true) ->
  sumExpression expressions false = sumOf (present expressions).
Proof.
  intros Hne.
  assert (Hdrop : forall l,
             flat_map (fun p : option string =>
                         match p with
                         | Some s => if nonEmpty s then [s] else []
                         | None => []
                         end) l
             = List.filter nonEmpty (present l)).
  { induction l as [|[s|] l IH]; [reflexivity| |exact IH].
    cbn [flat_map present app List.filter]. fold (present l).
    rewrite IH. destruct (nonEmpty s); reflexivity. }
  assert (Hall : Forall (fun s => nonEmpty s = true) (present expressions)).
  { apply List.Forall_forall. intros s Hs. apply Hne.
    unfold present in Hs. apply in_flat_map in Hs as ([s'|] & Hin & Hs);
      [|destruct Hs]. now destruct Hs as [<-|[]]. }
  assert (Hkeep : List.filter nonEmpty (present expressions)
                  = present expressions).
  { apply forallb_filter_id. apply forallb_forall. intros s Hs.
    rewrite List.Forall_forall in Hall. now apply Hall. }
  unfold sumExpression. rewrite Hdrop, Hkeep.
  assert (Hevery : forallb (fun t => negb (nonEmpty (default "" t))) expressions
                   = match present expressions with
                     | [] => true
                     | _ :: _ => false
                     end).
  { clear Hdrop Hkeep. revert Hne Hall.
    induction expressions as [|[s|] l IH]; intros Hne Hall; [reflexivity| |].
    - cbn [forallb present flat_map app default]. unfold id.
      rewrite (Hne s (or_introl eq_refl)). reflexivity.
    - cbn [forallb present flat_map app default negb nonEmpty andb].
      fold (present l). apply IH.
      + intros s Hs. apply Hne. now right.
      + exact Hall. }
  rewrite Hevery. destruct Hall as [|s l Hs Hl]; [reflexivity|].
  cbn [andb]. cbv zeta. now rewrite (nonEmpty_join " + " s l Hs).
Qed.

Lemma summedDamage_expected critRule partials degree :
  summedDamage critRule (groupBy category_eqb partials category) degree
  = expectedExpression critRule degree partials.
Proof.
  unfold summedDamage, expectedExpression.
  rewrite nonCriticalDamage_expected, criticalDamage_expected.
  assert (Hnone : expectedCritical degree partials = None
                  \/ degreeTruthy degree = true)
    by (destruct degree; auto).
  assert (Hne : forall s,
             In (Some s) [expectedNonCritical critRule degree partials;
                          expectedCritical degree partials] ->
             nonEmpty s = true).
  { intros s [Hs|[Hs|[]]].
    - now apply (expectedNonCritical_nonEmpty critRule degree partials).
    - now apply (expectedCritical_nonEmpty degree partials). }
  destruct (degreeTruthy degree) eqn:Htruthy.
  - now apply sumExpression_present.
  - destruct Hnone as [Hnone|Hnone]; [|discriminate Hnone].
    rewrite Hnone in Hne |- *.
    rewrite sumExpression_present
      by (intros s [Hs|[]]; apply Hne; now left).
    destruct (expectedNonCritical critRule degree partials); reflexivity.
Qed.

(** ** The terms and the labels of a damage type *)

Lemma append_empty_r s : s +:+ "" = s.
Proof.
  induction s as [|c s IH]; [reflexivity|].
  change (String c (s +:+ "") = String c s). now f_equal.
Qed.

Lemma expectedExpression_nil critRule degree :
  expectedExpression critRule degree [] = None.
Proof.
  unfold expectedExpression, expectedNonCritical, expectedCritical.
  destruct degree; try reflexivity.
  destruct (String.eqb critRule "doubledice"); reflexivity.
Qed.

Lemma ensureValidFormulaHead_nonEmpty f head :
  ensureValidFormulaHead f = Some head -> nonEmpty head = true.
Proof.
  unfold ensureValidFormulaHead. destruct f as [f|]; [|discriminate].
  destruct (nonEmpty f) eqn:Hf; cbn [negb]; [|discriminate].
  destruct (isWrapped f || isSimple f); intros [= <-]; [exact Hf|reflexivity].
Qed.

Lemma flattenedDamage_byCategory partials :
  flattenedDamage (groupBy category_eqb partials category)
  = byCategory partials.
Proof.
  unfold flattenedDamage, categories, byCategory. cbn [flat_map].
  now rewrite !groups_get, app_nil_r.
Qed.

Lemma breakdownDamage_expected partials degree :
  breakdownDamage (groupBy category_eqb partials category) degree
  = expectedListed degree partials.
Proof.
  unfold breakdownDamage, expectedListed.
  rewrite flattenedDamage_byCategory. now destruct degree.
Qed.

Lemma expectedListed_In degree partials p :
  In p (expectedListed degree partials) -> In p partials.
Proof.
  assert (Hin : forall q, In q (byCategory partials) -> In q partials).
  { intros q Hq. unfold byCategory, ofCategory in Hq.
    repeat (apply in_app_or in Hq as [Hq|Hq];
            [now apply filter_In in Hq as [Hq _]|]).
    now apply filter_In in Hq as [Hq _]. }
  unfold expectedListed. intros Hp. apply in_app_or in Hp as [Hp|Hp].
  - apply filter_In in Hp as [Hp _]. now apply Hin.
  - destruct degree; try destruct Hp.
    apply filter_In in Hp as [Hp _]. now apply Hin.
Qed.

(** An instance of the compiler, against the term and the labels of the
    specification. *)
Lemma instanceOf_expected critRule localizeDamageType formatPersistentTooltip
    degree persistent' entry :
  instanceOf critRule localizeDamageType formatPersistentTooltip degree
    persistent' entry
  = match expectedTerm critRule degree persistent' entry with
    | [] => []
    | term :: _ =>
        [{| formula := term;
            breakdown :=
              expectedLabels critRule localizeDamageType
                formatPersistentTooltip degree persistent' entry |}]
    end.
Proof.
  destruct entry as [damageType typePartials].
  unfold instanceOf, expectedTerm, expectedLabels. cbn [fst snd].
  fold (partialsOfRun persistent' typePartials).
  set (partials := partialsOfRun persistent' typePartials).
  destruct (length partials =? 0)%nat eqn:Hlength.
  { apply Nat.eqb_eq in Hlength. destruct partials; [|discriminate Hlength].
    now rewrite expectedExpression_nil. }
  cbv zeta. rewrite summedDamage_expected. unfold breakdownOf.
  rewrite breakdownDamage_expected.
  destruct (expectedExpression critRule degree partials) as [e|] eqn:He;
    [|reflexivity].
  destruct (ensureValidFormulaHead (Some e)) as [head|] eqn:Hhead;
    [|reflexivity].
  pose proof (ensureValidFormulaHead_nonEmpty _ _ Hhead) as Hne.
  rewrite Hne. cbn [andb].
  assert (Hlabels :
            match expectedListed degree partials with
            | [] => []
            | first :: rest =>
                (stripLeadingPlus (label first) +:+ " "
                 +:+ (if category_eqb (category first) (Some persistent)
                      then formatPersistentTooltip
                             (localizeDamageType damageType)
                      else localizeDamageType damageType))
                :: map label rest
            end
            = match expectedListed degree partials with
              | [] => []
              | first :: rest =>
                  (stripLeadingPlus (label first) +:+ " "
                   +:+ (if persistent'
                        then formatPersistentTooltip
                               (localizeDamageType damageType)
                        else localizeDamageType damageType))
                  :: map label rest
              end).
  { destruct (expectedListed degree partials) as [|first rest] eqn:Hlisted;
      [reflexivity|].
    assert (Hin : In first partials).
    { apply (expectedListed_In degree). rewrite Hlisted. now left. }
    unfold partials, partialsOfRun in Hin. apply filter_In in Hin as [_ Hin].
    apply Bool.eqb_prop in Hin. now rewrite Hin. }
  rewrite Hlabels.
  destruct (nonEmpty (flavor damageType typePartials persistent')) eqn:Hflavor.
  - rewrite nonEmpty_append, Hne. reflexivity.
  - assert (Hempty : flavor damageType typePartials persistent' = "")
      by (destruct (flavor damageType typePartials persistent');
          [reflexivity|discriminate Hflavor]).
    rewrite Hne, Hempty, append_empty_r. reflexivity.
Qed.

Lemma expectedTerm_single critRule degree persistent' entry :
  expectedTerm critRule degree persistent' entry = []
  \/ exists term, expectedTerm critRule degree persistent' entry = [term].
Proof.
  unfold expectedTerm. destruct (ensureValidFormulaHead _); eauto.
Qed.

Lemma expectedLabels_absent critRule localizeDamageType formatPersistentTooltip
    degree persistent' entry :
  expectedTerm critRule degree persistent' entry = [] ->
  expectedLabels critRule localizeDamageType formatPersistentTooltip degree
    persistent' entry = [].
Proof.
  unfold expectedTerm, expectedLabels.
  destruct (expectedExpression _ _ _) as [e|] eqn:He; [|reflexivity].
  destruct (ensureValidFormulaHead (Some e)) as [head|] eqn:Hhead;
    [discriminate|].
  intros _. unfold ensureValidFormulaHead in Hhead.
  assert (Hne : nonEmpty e = true).
  { unfold expectedExpression in He. revert He. apply sumOf_nonEmpty.
    apply List.Forall_forall. intros s Hs. unfold present in Hs.
    apply in_flat_map in Hs as ([s'|] & Hin & Hs); [|destruct Hs].
    destruct Hs as [<-|[]]. destruct Hin as [Hin|[Hin|[]]].
    - now apply (expectedNonCritical_nonEmpty critRule degree
                   (partialsOfRun persistent' (snd entry))).
    - now apply (expectedCritical_nonEmpty degree
                   (partialsOfRun persistent' (snd entry))). }
  rewrite Hne in Hhead. cbn [negb] in Hhead.
  destruct (isWrapped e || isSimple e); discriminate Hhead.
Qed.

Lemma instancesFromTypeMap_expected critRule localizeDamageType
    formatPersistentTooltip typeMap degree persistent' :
  map formula
    (instancesFromTypeMap critRule localizeDamageType formatPersistentTooltip
       typeMap degree persistent')
  = flat_map (expectedTerm critRule degree persistent') typeMap
  /\ flat_map breakdown
       (instancesFromTypeMap critRule localizeDamageType
          formatPersistentTooltip typeMap degree persistent')
     = flat_map (expectedLabels critRule localizeDamageType
                   formatPersistentTooltip degree persistent') typeMap.
Proof.
  unfold instancesFromTypeMap.
  induction typeMap as [|entry typeMap [IHformula IHbreakdown]];
    [split; reflexivity|].
  cbn [flat_map]. rewrite map_app, flat_map_app, IHformula, IHbreakdown.
  rewrite instanceOf_expected.
  destruct (expectedTerm_single critRule degree persistent' entry)
    as [Hnone|(term & Hone)].
  - rewrite Hnone, (expectedLabels_absent _ localizeDamageType
                      formatPersistentTooltip _ _ _ Hnone).
    split; reflexivity.
  - rewrite Hone. cbn [map flat_map breakdown formula app].
    rewrite app_nil_r. split; reflexivity.
Qed.

Lemma assemble_expected critRule localizeDamageType formatPersistentTooltip
    typeMap degree :
  assemble critRule localizeDamageType formatPersistentTooltip typeMap degree
  = expectedResult critRule localizeDamageType formatPersistentTooltip degree
      typeMap.
Proof.
  unfold assemble, expectedResult, expectedTerms. cbv zeta.
  rewrite map_app, flat_map_app.
  destruct (instancesFromTypeMap_expected critRule localizeDamageType
              formatPersistentTooltip typeMap degree false) as [-> ->].
  destruct (instancesFromTypeMap_expected critRule localizeDamageType
              formatPersistentTooltip typeMap degree true) as [-> ->].
  reflexivity.
Qed.

(** The compiler, against the specification from the type map on. *)
Lemma createDamageFormula_expected critRule localizeDamageType
    formatPersistentTooltip damage degree :
  degree <> CRITICAL_FAILURE ->
  createDamageFormula critRule localizeDamageType formatPersistentTooltip
    damage (Some degree)
  = Some (expectedResult critRule localizeDamageType formatPersistentTooltip
            degree
            (buildTypeMap (degree_eqb degree CRITICAL_SUCCESS)
               (if degree_eqb degree FAILURE then splashOnly damage
                else damage))).
Proof.
  intros Hdegree. unfold createDamageFormula, deepClone. cbv zeta.
  cbn [default].
  destruct degree; [congruence| | |]; unfold id;
    change (degree_eqb _ CRITICAL_FAILURE) with false; cbv iota;
    now rewrite assemble_expected.
Qed.

(** ** Critical doubling in the produced formula *)








(** ** The order of the categories in the produced formula *)

Lemma totalModifier_Permutation terms terms' :
  Permutation terms terms' -> totalModifier terms = totalModifier terms'.
Proof.
  intros Hperm. unfold totalModifier. rewrite <- !sum_fold_right.
  now apply sum_Permutation, Permutation_map.
Qed.

Lemma expectedCombination_Permutation terms terms' doubleDice' :
  Permutation terms terms' ->
  expectedCombination terms doubleDice' = expectedCombination terms' doubleDice'.
Proof.
  intros Hperm. unfold expectedCombination.
  rewrite <- !positiveDice_diceTotals.
  rewrite (positiveDice_Permutation terms terms' Hperm).
  now rewrite (totalModifier_Permutation terms terms' Hperm).
Qed.

Lemma expectedFragments_Permutation partials partials' inclusion doubleDice' :
  Permutation partials partials' ->
  expectedFragments partials inclusion doubleDice'
  = expectedFragments partials' inclusion doubleDice'.
Proof.
  intros Hperm. unfold expectedFragments. f_equal.
  apply map_ext. intros c. unfold expectedFragment. cbv zeta.
  rewrite (expectedCombination_Permutation
             (map partialTerm (admittedPartials inclusion c partials))
             (map partialTerm (admittedPartials inclusion c partials'))
             doubleDice'); [reflexivity|].
  apply Permutation_map. unfold admittedPartials, ofCategory.
  now do 2 apply filter_Permutation.
Qed.

Lemma expectedExpression_Permutation critRule degree partials partials' :
  Permutation partials partials' ->
  expectedExpression critRule degree partials
  = expectedExpression critRule degree partials'.
Proof.
  intros Hperm.
  unfold expectedExpression, expectedNonCritical, expectedCritical.
  now rewrite !(expectedFragments_Permutation partials partials' _ _ Hperm).
Qed.

(** C7: the compiler returns the result that the specification
    describes from the type map on.  The category assembler gives the
    terms of the categories none, persistent, precision and splash in
    this order, the empty ones left out.  On an outcome that is no
    critical success the expression of a damage type is the sum of
    these terms, so the order holds in the whole term; on a critical
    success it is the non-critical sub-expression, doubled term by
    term or as a whole, followed by the critical-only one, each in this
    order.  The expression does not
    depend on the order of the partials.  The breakdown lists the
    partials that are not critical-only in the order of the categories,
    and on a critical success the critical-only ones after them; it
    depends on the partials of each category and their order alone. *)
Theorem category_order_is_fixed critRule localizeDamageType
    formatPersistentTooltip damage degree :
  degree <> CRITICAL_FAILURE ->
  createDamageFormula critRule localizeDamageType formatPersistentTooltip
    damage (Some degree)
  = Some (expectedResult critRule localizeDamageType formatPersistentTooltip
            degree
            (buildTypeMap (degree_eqb degree CRITICAL_SUCCESS)
               (if degree_eqb degree FAILURE then splashOnly damage
                else damage)))
  /\ (forall partials inclusion doubleDice',
        let groups := groupBy category_eqb partials category in
        createPartialFormulas groups inclusion doubleDice'
        = List.filter nonEmpty
            [categoryFragment groups inclusion doubleDice' None;
             categoryFragment groups inclusion doubleDice' (Some persistent);
             categoryFragment groups inclusion doubleDice' (Some precision);
             categoryFragment groups inclusion doubleDice' (Some splash)])
  /\ (forall partials,
        let groups := groupBy category_eqb partials category in
        summedDamage critRule groups degree
        = if degree_eqb degree CRITICAL_SUCCESS
          then sumOf (present
                        [(if String.eqb critRule "doubledice"
                          then sumOf (createPartialFormulas groups
                                        [DOUBLE_ON_CRIT] true)
                          else option_map twice
                                 (sumOf (createPartialFormulas groups
                                           [DOUBLE_ON_CRIT] false)));
                         sumOf (createPartialFormulas groups
                                  [CRITICAL_ONLY; DONT_DOUBLE_ON_CRIT] false)])
          else sumOf (createPartialFormulas groups
                        [DOUBLE_ON_CRIT; DONT_DOUBLE_ON_CRIT] false))
  /\ (forall partials partials',
        Permutation partials partials' ->
        summedDamage critRule (groupBy category_eqb partials' category) degree
        = summedDamage critRule (groupBy category_eqb partials category)
            degree)
  /\ (forall partials,
        let ordered :=
          ofCategory None partials ++ ofCategory (Some persistent) partials
          ++ ofCategory (Some precision) partials
          ++ ofCategory (Some splash) partials in
        breakdownDamage (groupBy category_eqb partials category) degree
        = List.filter (fun p => negb (isCriticalOnly p)) ordered
          ++ (if degree_eqb degree CRITICAL_SUCCESS
              then List.filter isCriticalOnly ordered
              else []))
  /\ (forall partials partials',
        (forall c, ofCategory c partials' = ofCategory c partials) ->
        breakdownDamage (groupBy category_eqb partials' category) degree
        = breakdownDamage (groupBy category_eqb partials category) degree).
Proof.
  intros Hdegree.
  split; [now apply createDamageFormula_expected|].
  split; [|split; [|split; [|split]]].
  - intros partials inclusion doubleDice' groups. unfold groups.
    rewrite createPartialFormulas_expected, !categoryFragment_expected.
    reflexivity.
  - intros partials groups. unfold groups.
    rewrite summedDamage_expected, !createPartialFormulas_expected.
    unfold expectedExpression, expectedCritical, expectedNonCritical.
    destruct degree; [congruence| | |reflexivity];
      change (degree_eqb _ CRITICAL_SUCCESS) with false; cbv iota;
      now destruct (expectedFragments partials
                      [DOUBLE_ON_CRIT; DONT_DOUBLE_ON_CRIT] false).
  - intros partials partials' Hperm. rewrite !summedDamage_expected.
    symmetry. now apply expectedExpression_Permutation.
  - intros partials ordered. rewrite breakdownDamage_expected.
    unfold expectedListed. fold ordered. now destruct degree.
  - intros partials partials' Hsame. rewrite !breakdownDamage_expected.
    unfold expectedListed, byCategory. now rewrite !Hsame.
Qed.

(** C7, as stated: on a critical success the term of a damage type
    holds the non-critical sub-expression and then the critical-only
    one, so the splash die of the first comes before the precision die
    of the second, in the formula and in the breakdown. *)
Lemma critical_only_fragments_come_last :
  exists assembled,
    createDamageFormula "doublesubtotal" (fun t => t)
      (fun t => "Persistent " +:+ t) Samples.sneakySplash
      (Some CRITICAL_SUCCESS)
    = Some assembled
    /\ formula assembled = "{(2 * 1d4[splash] + 1d6[precision])[fire]}"
    /\ (exists before between after,
           formula assembled
           = before +:+ "1d4[splash]" +:+ between +:+ "1d6[precision]"
             +:+ after)
    /\ breakdown assembled = ["Splash fire"; "Sneak"].
Proof.
  eexists. split; [vm_compute; reflexivity|]. cbn [formula breakdown].
  split; [reflexivity|]. split; [|reflexivity].
  exists "{(2 * ", " + ", ")[fire]}". reflexivity.
Qed.

(** ** The grammar of the produced formula *)

Lemma facesDescending_nil dice : facesDescending dice = [] -> dice = [].
Proof.
  destruct dice as [|d dice]; [reflexivity|]. intros H. exfalso.
  assert (Hin : In (faces d) (facesDescending (d :: dice)))
    by (apply facesDescending_In; exists d; split; [now left|reflexivity]).
  rewrite H in Hin. destruct Hin.
Qed.

Lemma diceTotals_nil terms : diceTotals terms = [] <-> positiveDiceOf terms = [].
Proof.
  unfold diceTotals. split.
  - intros H. apply map_eq_nil in H. now apply facesDescending_nil.
  - intros ->. reflexivity.
Qed.

Lemma renderGroup_nonEmpty doubleDice' g :
  nonEmpty (renderGroup doubleDice' g) = true.
Proof.
  unfold renderGroup. destruct doubleDice'; [reflexivity|].
  now rewrite nonEmpty_append, numberToString_nonEmpty.
Qed.

Lemma renderConstant_nonEmpty doubleDice' constant :
  nonEmpty (renderConstant doubleDice' constant) = true.
Proof.
  unfold renderConstant. destruct doubleDice'; [reflexivity|].
  apply numberToString_nonEmpty.
Qed.

Lemma expectedCombination_empty terms doubleDice' :
  nonEmpty (expectedCombination terms doubleDice') = false <->
  positiveDiceOf terms = [] /\ totalModifier terms = 0.
Proof.
  rewrite <- diceTotals_nil. unfold expectedCombination.
  destruct (diceTotals terms) as [|g groups]; cbn [map].
  - destruct (Z.eqb_spec (totalModifier terms) 0) as [Hzero|Hnonzero].
    + split; auto.
    + rewrite renderConstant_nonEmpty. split; [discriminate|].
      intros [_ H]. contradiction.
  - pose proof (nonEmpty_join " + " _ (map (renderGroup doubleDice') groups)
                  (renderGroup_nonEmpty doubleDice' g)) as Hjoin.
    split; [|intros [H _]; discriminate H].
    destruct (totalModifier terms =? 0);
      rewrite ?nonEmpty_append, Hjoin; discriminate.
Qed.

Lemma expectedFragment_empty partials inclusion doubleDice' c :
  nonEmpty (expectedFragment partials inclusion doubleDice' c) = true <->
  hasAmount inclusion c partials.
Proof.
  unfold hasAmount.
  set (terms := map partialTerm (admittedPartials inclusion c partials)).
  assert (Hcombined :
            nonEmpty (expectedFragment partials inclusion doubleDice' c)
            = nonEmpty (expectedCombination terms doubleDice')).
  { unfold expectedFragment. fold terms. cbv zeta.
    destruct c as [[]|]; try reflexivity;
      destruct (nonEmpty (expectedCombination terms doubleDice')) eqn:Hne;
      try reflexivity; rewrite nonEmpty_append; unfold parenthesizedIfOperator;
      (destruct (hasOperators _); [reflexivity|now rewrite Hne]). }
  rewrite Hcombined.
  pose proof (expectedCombination_empty terms doubleDice') as Hempty.
  destruct (nonEmpty (expectedCombination terms doubleDice')).
  - split; [intros _|reflexivity].
    destruct (positiveDiceOf terms) as [|d dice] eqn:Hdice;
      [|left; discriminate].
    right. intros Hzero.
    discriminate (proj2 Hempty (conj eq_refl Hzero)).
  - split; [discriminate|]. intros Hamount.
    destruct (proj1 Hempty eq_refl) as [Hdice Hzero].
    destruct Hamount as [H|H]; contradiction.
Qed.

Lemma expectedFragments_inhabited partials inclusion doubleDice' :
  expectedFragments partials inclusion doubleDice' <> [] <->
  exists c, hasAmount inclusion c partials.
Proof.
  split.
  - intros Hne.
    destruct (expectedFragments partials inclusion doubleDice')
      as [|s l] eqn:Hfragments; [congruence|].
    assert (Hs : In s (expectedFragments partials inclusion doubleDice'))
      by (rewrite Hfragments; now left).
    unfold expectedFragments in Hs. apply filter_In in Hs as [Hs Hnonempty].
    apply in_map_iff in Hs as (c & <- & _). exists c.
    now apply (expectedFragment_empty partials inclusion doubleDice' c).
  - intros (c & Hc) Hnil.
    apply (expectedFragment_empty partials inclusion doubleDice' c) in Hc.
    assert (Hin : In (expectedFragment partials inclusion doubleDice' c)
                    (expectedFragments partials inclusion doubleDice')).
    { unfold expectedFragments. apply filter_In. split; [|exact Hc].
      destruct c as [[]|]; cbn [map In]; auto. }
    rewrite Hnil in Hin. destruct Hin.
Qed.

Lemma sumOf_None summands : sumOf summands = None <-> summands = [].
Proof. destruct summands; cbn [sumOf]; split; congruence. Qed.

Lemma expectedExpression_inhabited critRule degree partials :
  expectedExpression critRule degree partials <> None <->
  exists inclusion c,
    In inclusion (inclusionSets degree) /\ hasAmount inclusion c partials.
Proof.
  assert (Hsum : forall a b : option string,
             sumOf (present [a; b]) <> None <-> a <> None \/ b <> None).
  { intros [a|] [b|]; cbn; split; try discriminate; try tauto;
      intros _; (left + right); discriminate. }
  assert (Hfragments : forall inclusion doubleDice',
             sumOf (expectedFragments partials inclusion doubleDice') <> None
             <-> exists c, hasAmount inclusion c partials).
  { intros inclusion doubleDice'.
    rewrite <- (expectedFragments_inhabited partials inclusion doubleDice').
    now rewrite sumOf_None. }
  assert (Htwice : forall e : option string,
             option_map twice e <> None <-> e <> None).
  { intros [e|]; cbn; split; congruence. }
  unfold expectedExpression. rewrite Hsum.
  unfold expectedNonCritical, expectedCritical, inclusionSets.
  destruct degree.
  1-3: rewrite Hfragments; split;
    [intros [(c & Hc)|H]; [|congruence];
     exists [DOUBLE_ON_CRIT; DONT_DOUBLE_ON_CRIT], c; split; [now left|exact Hc]
    |intros (inclusion & c & [<-|[]] & Hc); left; eauto].
  assert (Hnon : (if String.eqb critRule "doubledice"
                  then sumOf (expectedFragments partials [DOUBLE_ON_CRIT] true)
                  else option_map twice
                         (sumOf (expectedFragments partials
                                   [DOUBLE_ON_CRIT] false))) <> None
                 <-> exists c, hasAmount [DOUBLE_ON_CRIT] c partials).
  { destruct (String.eqb critRule "doubledice");
      rewrite ?Htwice; apply Hfragments. }
  rewrite Hnon, Hfragments. split.
  - intros [(c & Hc)|(c & Hc)].
    + exists [DOUBLE_ON_CRIT], c. split; [now left|exact Hc].
    + exists [CRITICAL_ONLY; DONT_DOUBLE_ON_CRIT], c.
      split; [right; now left|exact Hc].
  - intros (inclusion & c & [<-|[<-|[]]] & Hc); [left|right]; eauto.
Qed.

Lemma expectedTerm_inhabited critRule degree persistent' entry :
  expectedTerm critRule degree persistent' entry <> [] <->
  expectedExpression critRule degree (partialsOfRun persistent' (snd entry))
  <> None.
Proof.
  split.
  - intros Hterm Hnone. apply Hterm. unfold expectedTerm. now rewrite Hnone.
  - intros Hexpression Hnone. apply Hexpression.
    destruct (expectedExpression critRule degree
                (partialsOfRun persistent' (snd entry))) as [e|] eqn:He;
      [|reflexivity].
    exfalso.
    unfold expectedTerm in Hnone. rewrite He in Hnone.
    assert (Hne : nonEmpty e = true).
    { unfold expectedExpression in He. revert He. apply sumOf_nonEmpty.
      apply List.Forall_forall. intros s Hs. unfold present in Hs.
      apply in_flat_map in Hs as ([s'|] & Hin & Hs); [|destruct Hs].
      destruct Hs as [<-|[]]. destruct Hin as [Hin|[Hin|[]]].
      - now apply (expectedNonCritical_nonEmpty critRule degree
                     (partialsOfRun persistent' (snd entry))).
      - now apply (expectedCritical_nonEmpty degree
                     (partialsOfRun persistent' (snd entry))). }
    unfold ensureValidFormulaHead in Hnone. rewrite Hne in Hnone.
    cbn [negb] in Hnone.
    destruct (isWrapped e || isSimple e); discriminate Hnone.
Qed.

Lemma flat_map_inhabited {A B} (f : A -> list B) l :
  flat_map f l <> [] <-> exists x, In x l /\ f x <> [].
Proof.
  induction l as [|a l IH]; cbn [flat_map].
  - split; [congruence|intros (x & [] & _)].
  - split.
    + intros Hne. destruct (f a) as [|b k] eqn:Hfa.
      * cbn [app] in Hne. apply IH in Hne as (x & Hx & Hfx).
        exists x. split; [now right|exact Hfx].
      * exists a. split; [now left|]. rewrite Hfa. discriminate.
    + intros (x & [<-|Hx] & Hfx) Hnil; apply app_eq_nil in Hnil as [Ha Hl].
      * contradiction.
      * apply (proj2 IH); eauto.
Qed.

Lemma expectedTerms_inhabited critRule degree typeMap :
  expectedTerms critRule degree typeMap <> [] <->
  exists entry persistent' inclusion c,
    In entry typeMap /\ In inclusion (inclusionSets degree)
    /\ hasAmount inclusion c (partialsOfRun persistent' (snd entry)).
Proof.
  assert (Hrun : forall persistent',
             flat_map (expectedTerm critRule degree persistent') typeMap <> []
             <-> exists entry inclusion c,
                   In entry typeMap /\ In inclusion (inclusionSets degree)
                   /\ hasAmount inclusion c
                        (partialsOfRun persistent' (snd entry))).
  { intros persistent'. rewrite flat_map_inhabited. split.
    - intros (entry & Hentry & Hterm).
      apply expectedTerm_inhabited, expectedExpression_inhabited in Hterm
        as (inclusion & c & Hinclusion & Hamount).
      exists entry, inclusion, c. auto.
    - intros (entry & inclusion & c & Hentry & Hinclusion & Hamount).
      exists entry. split; [exact Hentry|].
      apply expectedTerm_inhabited, expectedExpression_inhabited. eauto. }
  unfold expectedTerms. split.
  - intros Hne.
    destruct (flat_map (expectedTerm critRule degree false) typeMap)
      as [|t l] eqn:Hfirst.
    + cbn [app] in Hne. apply Hrun in Hne
        as (entry & inclusion & c & H).
      exists entry, true, inclusion, c. exact H.
    + assert (Hne' : flat_map (expectedTerm critRule degree false) typeMap
                     <> []) by (rewrite Hfirst; discriminate).
      apply Hrun in Hne' as (entry & inclusion & c & H).
      exists entry, false, inclusion, c. exact H.
  - intros (entry & persistent' & inclusion & c & H) Hnil.
    apply app_eq_nil in Hnil as [Hfalse Htrue].
    assert (Hne : flat_map (expectedTerm critRule degree persistent') typeMap
                  <> []) by (apply Hrun; eauto).
    destruct persistent'; contradiction.
Qed.

(** The grammar with products and tags holds the amended grammar. *)
Lemma Expression_ExpressionOf e : Expression e -> ExpressionOf true true e.
Proof.
  induction 1.
  - now apply OfDice.
  - now apply OfDoubled.
  - apply OfConstant.
  - now apply OfTwice.
  - now apply OfPlus.
  - now apply OfMinus.
  - now apply OfParen.
  - now apply OfTagged.
Qed.

Lemma Term_TermOf t : Term t -> TermOf true true t.
Proof.
  destruct 1 as [e He|e tags He];
    [apply OfBare|apply OfFlavored]; now apply Expression_ExpressionOf.
Qed.

(** *** What the stated grammar leaves out *)

Lemma isDigit_isNotAsterisk c : isDigit c = true -> isNotAsterisk c = true.
Proof.
  destruct c as [[] [] [] [] [] [] [] []]; vm_compute; congruence.
Qed.

Lemma isDigit_isNotGrouping c : isDigit c = true -> isNotGrouping c = true.
Proof.
  destruct c as [[] [] [] [] [] [] [] []]; vm_compute; congruence.
Qed.

Lemma noProductBeforeBracket_append a rest :
  forallbString isNotAsterisk a = true ->
  noProductBeforeBracket rest = true ->
  noProductBeforeBracket (a +:+ rest) = true.
Proof.
  intros Ha Hrest. induction a as [|c a IH]; [exact Hrest|].
  cbn [forallbString] in Ha. apply andb_prop in Ha as [Hc Ha].
  change (String c a +:+ rest) with (String c (a +:+ rest)).
  cbn [noProductBeforeBracket].
  destruct (c =? "[")%char; [reflexivity|].
  unfold isNotAsterisk in Hc. destruct (c =? "*")%char; [discriminate Hc|].
  now apply IH.
Qed.

Lemma firstBracketIsFlavor_append depth a rest :
  forallbString isNotGrouping a = true ->
  firstBracketIsFlavor depth (a +:+ rest) = firstBracketIsFlavor depth rest.
Proof.
  intros Ha. induction a as [|c a IH]; [reflexivity|].
  cbn [forallbString] in Ha. apply andb_prop in Ha as [Hc Ha].
  change (String c a +:+ rest) with (String c (a +:+ rest)).
  cbn [firstBracketIsFlavor]. unfold isNotGrouping in Hc.
  destruct (c =? "[")%char; [discriminate Hc|].
  destruct (c =? "(")%char; [discriminate Hc|].
  destruct (c =? ")")%char; [discriminate Hc|].
  now apply IH.
Qed.

Lemma numberToString_isNotAsterisk n :
  forallbString isNotAsterisk (numberToString n) = true.
Proof.
  apply numberToString_allowed; [exact isDigit_isNotAsterisk|reflexivity].
Qed.

Lemma numberToString_isNotGrouping n :
  forallbString isNotGrouping (numberToString n) = true.
Proof.
  apply numberToString_allowed; [exact isDigit_isNotGrouping|reflexivity].
Qed.

(** An expression without products has no asterisk before its first
    opening bracket, whatever follows it. *)
Lemma ExpressionOf_noProductBeforeBracket tags e :
  ExpressionOf false tags e ->
  forall rest,
    noProductBeforeBracket rest = true ->
    noProductBeforeBracket (e +:+ rest) = true.
Proof.
  induction 1 as [n f Hn Hf|n f Hn Hf|n|e Hproducts He IH|a b Ha IHa Hb IHb
                 |a b Ha IHa Hb IHb|e He IH|e c Htags He IH Hc];
    intros rest Hrest.
  - rewrite !append_associative.
    apply noProductBeforeBracket_append;
      [apply numberToString_isNotAsterisk|].
    apply (noProductBeforeBracket_append "d"); [reflexivity|].
    apply noProductBeforeBracket_append;
      [apply numberToString_isNotAsterisk|exact Hrest].
  - rewrite !append_associative.
    apply (noProductBeforeBracket_append "("); [reflexivity|].
    apply noProductBeforeBracket_append;
      [apply numberToString_isNotAsterisk|].
    apply (noProductBeforeBracket_append "d"); [reflexivity|].
    apply noProductBeforeBracket_append;
      [apply numberToString_isNotAsterisk|reflexivity].
  - apply noProductBeforeBracket_append;
      [apply numberToString_isNotAsterisk|exact Hrest].
  - discriminate Hproducts.
  - rewrite !append_associative. apply IHa.
    apply (noProductBeforeBracket_append " + "); [reflexivity|].
    now apply IHb.
  - rewrite !append_associative. apply IHa.
    apply (noProductBeforeBracket_append " - "); [reflexivity|].
    now apply IHb.
  - rewrite !append_associative.
    apply (noProductBeforeBracket_append "("); [reflexivity|].
    apply IH.
    apply (noProductBeforeBracket_append ")"); [reflexivity|exact Hrest].
  - rewrite !append_associative. apply IH. reflexivity.
Qed.

Lemma TermOf_noProductBeforeBracket tags t :
  TermOf false tags t ->
  forall rest,
    noProductBeforeBracket rest = true ->
    noProductBeforeBracket (t +:+ rest) = true.
Proof.
  intros [e He|e flavors He] rest Hrest.
  - now apply (ExpressionOf_noProductBeforeBracket tags).
  - rewrite !append_associative.
    apply (ExpressionOf_noProductBeforeBracket tags e He). reflexivity.
Qed.

Lemma join_cons sep s s' l :
  join sep (s :: s' :: l) = s +:+ sep +:+ join sep (s' :: l).
Proof. reflexivity. Qed.

Lemma PooledOf_noProductBeforeBracket tags s :
  PooledOf false tags s -> noProductBeforeBracket s = true.
Proof.
  intros (terms & Hterms & ->).
  apply (noProductBeforeBracket_append "{"); [reflexivity|].
  induction Hterms as [|t terms Ht Hterms IH]; [reflexivity|].
  destruct terms as [|t' terms].
  - now apply (TermOf_noProductBeforeBracket tags).
  - rewrite join_cons, !append_associative.
    apply (TermOf_noProductBeforeBracket tags t Ht).
    apply (noProductBeforeBracket_append ","); [reflexivity|exact IH].
Qed.

(** In an expression without category tags the first opening bracket,
    when there is one, is that of a doubled die. *)
Lemma ExpressionOf_firstBracketIsFlavor products e :
  ExpressionOf products false e ->
  forall depth rest,
    firstBracketIsFlavor depth (e +:+ rest) = true
    \/ firstBracketIsFlavor depth (e +:+ rest)
       = firstBracketIsFlavor depth rest.
Proof.
  induction 1 as [n f Hn Hf|n f Hn Hf|n|e Hproducts He IH|a b Ha IHa Hb IHb
                 |a b Ha IHa Hb IHb|e He IH|e c Htags He IH Hc];
    intros depth rest.
  - right. rewrite !append_associative.
    rewrite (firstBracketIsFlavor_append depth (numberToString n))
      by apply numberToString_isNotGrouping.
    rewrite (firstBracketIsFlavor_append depth "d") by reflexivity.
    apply firstBracketIsFlavor_append, numberToString_isNotGrouping.
  - left. rewrite !append_associative.
    change ("(" +:+ ?s) with (String "(" s). cbn [firstBracketIsFlavor].
    change (("(" =? "[")%char) with false. change (("(" =? "(")%char) with true.
    cbv iota.
    rewrite (firstBracketIsFlavor_append (S depth) (numberToString n))
      by apply numberToString_isNotGrouping.
    rewrite (firstBracketIsFlavor_append (S depth) "d") by reflexivity.
    rewrite (firstBracketIsFlavor_append (S depth) (numberToString f))
      by apply numberToString_isNotGrouping.
    reflexivity.
  - right. apply firstBracketIsFlavor_append, numberToString_isNotGrouping.
  - rewrite !append_associative.
    rewrite (firstBracketIsFlavor_append depth "2 * ") by reflexivity.
    apply IH.
  - rewrite !append_associative.
    destruct (IHa depth (" + " +:+ b +:+ rest)) as [Htrue|Hsame];
      [now left|].
    rewrite Hsame.
    rewrite (firstBracketIsFlavor_append depth " + ") by reflexivity.
    apply IHb.
  - rewrite !append_associative.
    destruct (IHa depth (" - " +:+ b +:+ rest)) as [Htrue|Hsame];
      [now left|].
    rewrite Hsame.
    rewrite (firstBracketIsFlavor_append depth " - ") by reflexivity.
    apply IHb.
  - rewrite !append_associative.
    change (firstBracketIsFlavor depth ("(" +:+ e +:+ ")" +:+ rest))
      with (firstBracketIsFlavor (S depth) (e +:+ ")" +:+ rest)).
    destruct (IH (S depth) (")" +:+ rest)) as [Htrue|Hsame]; [now left|].
    right. rewrite Hsame. reflexivity.
  - discriminate Htags.
Qed.

Lemma TermOf_firstBracketIsFlavor products t :
  TermOf products false t ->
  forall rest,
    firstBracketIsFlavor 0 (t +:+ rest) = true
    \/ firstBracketIsFlavor 0 (t +:+ rest) = firstBracketIsFlavor 0 rest.
Proof.
  intros [e He|e flavors He] rest.
  - apply (ExpressionOf_firstBracketIsFlavor products e He).
  - left. rewrite !append_associative.
    destruct (ExpressionOf_firstBracketIsFlavor products e He 0
                ("[" +:+ join "," flavors +:+ "]" +:+ rest))
      as [Htrue|Hsame]; [exact Htrue|].
    rewrite Hsame. reflexivity.
Qed.

Lemma PooledOf_firstBracketIsFlavor products s :
  PooledOf products false s -> firstBracketIsFlavor 0 s = true.
Proof.
  intros (terms & Hterms & ->).
  rewrite (firstBracketIsFlavor_append 0 "{") by reflexivity.
  induction Hterms as [|t terms Ht Hterms IH]; [reflexivity|].
  destruct terms as [|t' terms].
  - change (join "," [t]) with t.
    destruct (TermOf_firstBracketIsFlavor products t Ht "}")
      as [Htrue|Hsame]; [exact Htrue|]. rewrite Hsame. reflexivity.
  - rewrite join_cons, !append_associative.
    destruct (TermOf_firstBracketIsFlavor products t Ht
                ("," +:+ join "," (t' :: terms) +:+ "}"))
      as [Htrue|Hsame]; [exact Htrue|].
    rewrite Hsame.
    rewrite (firstBracketIsFlavor_append 0 ",") by reflexivity.
    exact IH.
Qed.

(** The stated grammar lies within each of the two wider ones. *)
Lemma ExpressionOf_wider products tags e :
  ExpressionOf false false e -> ExpressionOf products tags e.
Proof.
  induction 1 as [n f Hn Hf|n f Hn Hf|n|e Hproducts He IH|a b Ha IHa Hb IHb
                 |a b Ha IHa Hb IHb|e He IH|e c Htags He IH Hc].
  - now apply OfDice.
  - now apply OfDoubled.
  - apply OfConstant.
  - discriminate Hproducts.
  - now apply OfPlus.
  - now apply OfMinus.
  - now apply OfParen.
  - discriminate Htags.
Qed.

Lemma StatedFormula_PooledOf products tags s :
  StatedFormula s -> PooledOf products tags s.
Proof.
  intros (term & terms & Hterms & ->). exists (term :: terms).
  split; [|reflexivity].
  apply List.Forall_forall. intros t Ht.
  apply (proj1 (List.Forall_forall _ _) Hterms) in Ht.
  destruct Ht as [e He|e flavors He];
    [apply OfBare|apply OfFlavored]; now apply ExpressionOf_wider.
Qed.

Lemma ExpressionOf_nonEmpty products tags e :
  ExpressionOf products tags e -> nonEmpty e = true.
Proof.
  induction 1; rewrite ?nonEmpty_append, ?numberToString_nonEmpty,
    ?IHExpressionOf, ?IHExpressionOf1; reflexivity.
Qed.

Lemma StatedFormula_length s :
  StatedFormula s -> (2 < String.length s)%nat.
Proof.
  intros (term & terms & Hterms & ->).
  apply Forall_cons in Hterms as [Hterm _].
  assert (Hne : nonEmpty term = true).
  { destruct Hterm as [e He|e flavors He];
      rewrite ?nonEmpty_append, (ExpressionOf_nonEmpty false false e He);
      reflexivity. }
  pose proof (nonEmpty_length _ (nonEmpty_join "," term terms Hne)) as Hpos.
  rewrite !string_length_append.
  change (String.length "{") with 1%nat.
  change (String.length "}") with 1%nat. lia.
Qed.

(** C8: for every outcome but the critical failure the compiler
    returns the terms of the type map, in the order of the type map and
    with the persistent run last, separated by commas and between
    braces; each of them is a term of the grammar with the product by
    two and the tags of precision and splash damage.  A damage type has
    one term in a run when, in this run, a category has admitted
    partials with dice of a positive number or modifiers of a total
    other than zero, and no term otherwise; so there is at least one
    term exactly when some damage type has such a category in one of
    its runs. *)
Theorem formula_is_a_pooled_formula critRule localizeDamageType
    formatPersistentTooltip damage degree :
  degree <> CRITICAL_FAILURE ->
  let typeMap :=
    buildTypeMap (degree_eqb degree CRITICAL_SUCCESS)
      (if degree_eqb degree FAILURE then splashOnly damage else damage) in
  let terms := expectedTerms critRule degree typeMap in
  exists assembled,
    createDamageFormula critRule localizeDamageType formatPersistentTooltip
      damage (Some degree) = Some assembled
    /\ formula assembled = "{" +:+ join "," terms +:+ "}"
    /\ Forall Term terms
    /\ Forall (fun term => nonEmpty term = true) terms
    /\ PooledFormula (formula assembled)
    /\ (forall persistent' entry,
          (expectedTerm critRule degree persistent' entry = []
           \/ exists term,
                expectedTerm critRule degree persistent' entry = [term])
          /\ (expectedTerm critRule degree persistent' entry <> [] <->
              exists inclusion c,
                In inclusion (inclusionSets degree)
                /\ hasAmount inclusion c
                     (partialsOfRun persistent' (snd entry))))
    /\ (terms <> [] <->
        exists entry persistent' inclusion c,
          In entry typeMap /\ In inclusion (inclusionSets degree)
          /\ hasAmount inclusion c (partialsOfRun persistent' (snd entry)))
    /\ (terms <> [] -> InhabitedPooledFormula (formula assembled)).
Proof.
  intros Hdegree typeMap terms.
  assert (Hterms : Forall Term terms).
  { subst terms. unfold expectedTerms. apply Forall_app.
    assert (Hrun : forall persistent',
               Forall Term
                 (flat_map (expectedTerm critRule degree persistent')
                    typeMap)).
    { intros persistent'.
      destruct (instancesFromTypeMap_expected critRule localizeDamageType
                  formatPersistentTooltip typeMap degree persistent')
        as [<- _].
      apply Forall_map.
      apply instancesFromTypeMap_Term, buildTypeMap_facesPositive. }
    split; apply Hrun. }
  exists (expectedResult critRule localizeDamageType formatPersistentTooltip
            degree typeMap).
  split; [now apply createDamageFormula_expected|].
  split; [reflexivity|].
  split; [exact Hterms|].
  split.
  { apply List.Forall_forall. intros term Hterm.
    apply Term_nonEmpty.
    exact (proj1 (List.Forall_forall _ _) Hterms term Hterm). }
  split; [exists terms; split; [exact Hterms|reflexivity]|].
  split.
  { intros persistent' entry. split; [apply expectedTerm_single|].
    rewrite expectedTerm_inhabited. apply expectedExpression_inhabited. }
  split; [apply expectedTerms_inhabited|].
  intros Hne. cbn [formula expectedResult]. fold terms.
  destruct terms as [|term terms']; [congruence|].
  exists term, terms'. split; [exact Hterms|reflexivity].
Qed.

(** C8, as stated: three formulas that the stated grammar does not
    hold.  A definition with no damage compiles to [{}], with no term
    between the braces.  The critical success of a longsword is a
    product by two, which no grammar without products holds, with or
    without category tags.  The success of an alchemist's fire tags its
    splash die within the parentheses, which no grammar without
    category tags holds, with or without products. *)
Lemma formulas_outside_the_stated_grammar :
  (exists assembled,
      createDamageFormula "doublesubtotal" (fun t => t)
        (fun t => "Persistent " +:+ t) Samples.nothing (Some SUCCESS)
      = Some assembled
      /\ formula assembled = "{}"
      /\ PooledOf false false (formula assembled)
      /\ ~ StatedFormula (formula assembled))
  /\ (exists assembled,
         createDamageFormula "doublesubtotal" (fun t => t)
           (fun t => "Persistent " +:+ t) Examples.longsword
           (Some CRITICAL_SUCCESS)
         = Some assembled
         /\ formula assembled = "{(2 * (1d8 + 4) + 1d10 + 2)[slashing]}"
         /\ ~ PooledOf false true (formula assembled)
         /\ ~ StatedFormula (formula assembled))
  /\ (exists assembled,
         createDamageFormula "doublesubtotal" (fun t => t)
           (fun t => "Persistent " +:+ t) Examples.alchemistsFire
           (Some SUCCESS)
         = Some assembled
         /\ formula assembled = "{(2d6 + 3 + 1d4[splash])[fire]}"
         /\ ~ PooledOf true false (formula assembled)
         /\ ~ StatedFormula (formula assembled)).
Proof.
  split; [|split]; eexists; (split; [vm_compute; reflexivity|]);
    cbn [formula]; (split; [reflexivity|]).
  - split.
    + exists []. split; [apply List.Forall_nil|reflexivity].
    + intros H. apply StatedFormula_length in H. cbn in H. lia.
  - assert (Hout : ~ PooledOf false true
                       "{(2 * (1d8 + 4) + 1d10 + 2)[slashing]}").
    { intros H. apply PooledOf_noProductBeforeBracket in H.
      discriminate H. }
    split; [exact Hout|].
    intros H. apply Hout. now apply StatedFormula_PooledOf.
  - assert (Hout : ~ PooledOf true false "{(2d6 + 3 + 1d4[splash])[fire]}").
    { intros H. apply PooledOf_firstBracketIsFlavor in H.
      discriminate H. }
    split; [exact Hout|].
    intros H. apply Hout. now apply StatedFormula_PooledOf.
Qed.

(** * Properties of the migration *)

(** ** Arrays of references *)

Lemma indexFrom_In rule rules :
  In rule rules ->
  forall index,
  exists k : nat,
    indexFrom rule rules index = index + Z.of_nat k
    /\ rules !! k = Some rule.
Proof.
  induction rules as [|l rest IH]; intros Hin index; [destruct Hin|].
  cbn [indexFrom]. destruct (Pos.eqb_spec l rule) as [->|Hne].
  - exists 0%nat. split; [lia|reflexivity].
  - destruct Hin as [Heq|Hin]; [contradiction|].
    destruct (IH Hin (index + 1)) as (k & Hk & Hlookup).
    exists (S k). split; [lia|exact Hlookup].
Qed.

Lemma splice_indexOf rules rule :
  In rule rules -> splice rules (indexOf rules rule) rule = rules.
Proof.
  intros Hin. destruct (indexFrom_In rule rules Hin 0) as (k & Hk & Hlookup).
  unfold splice, indexOf. rewrite Hk.
  pose proof (lookup_lt_Some _ _ _ Hlookup) as Hlt.
  destruct (Z.ltb_spec (0 + Z.of_nat k) 0); [lia|].
  replace (Z.to_nat (Z.min (0 + Z.of_nat k) (Z.of_nat (length rules))))
    with k by lia.
  replace (k + 1)%nat with (S k) by lia.
  now apply take_drop_middle.
Qed.

Lemma filterRules_allocated test objects rules :
  (forall l, In l rules -> is_Some (objects !! l)) ->
  filterRules test objects rules
  = Some (List.filter (fun l => from_option test false (objects !! l)) rules).
Proof.
  induction rules as [|l rest IH]; intros Hall; [reflexivity|].
  cbn [filterRules List.filter].
  destruct (Hall l (or_introl eq_refl)) as [rule Hrule].
  rewrite Hrule, IH by (intros l' Hl'; apply Hall; now right).
  cbn. now destruct (test rule).
Qed.

Lemma modifyRule_Some f l objects rule rule' :
  objects !! l = Some rule -> f rule = Some rule' ->
  modifyRule f l objects = Some (<[l := rule']> objects).
Proof. intros Hrule Hf. unfold modifyRule. rewrite Hrule. cbn. now rewrite Hf. Qed.

Lemma assignedOnce_cons f l rest objects objects' rule rule' :
  ~ In l rest ->
  objects !! l = Some rule -> f rule = Some rule' ->
  assignedOnce f rest (<[l := rule']> objects) objects' ->
  assignedOnce f (l :: rest) objects objects'.
Proof.
  intros Hnotin Hrule Hf [Hin Hout]. split.
  - intros l0 [<-|Hl0].
    + rewrite (Hout l Hnotin), lookup_insert_eq, Hrule. cbn. now rewrite Hf.
    + rewrite (Hin l0 Hl0).
      rewrite lookup_insert_ne; [reflexivity|]. intros ->. contradiction.
  - intros l0 Hl0. rewrite (Hout l0) by (intros H; apply Hl0; now right).
    rewrite lookup_insert_ne; [reflexivity|]. intros ->. apply Hl0. now left.
Qed.

Lemma mapRules_spec f rules :
  NoDup rules ->
  forall objects,
    (forall l, In l rules ->
               exists rule rule', objects !! l = Some rule
                                  /\ f rule = Some rule') ->
    exists objects',
      mapRules f rules objects = Some (rules, objects')
      /\ assignedOnce f rules objects objects'.
Proof.
  induction 1 as [|l rest Hnotin Hnodup IH]; intros objects Hall.
  - exists objects. split; [reflexivity|]. split; [intros l []|reflexivity].
  - rewrite list_elem_of_In in Hnotin.
    destruct (Hall l (or_introl eq_refl)) as (rule & rule' & Hrule & Hf).
    destruct (IH (<[l := rule']> objects)) as (objects' & Hmap & Hassigned).
    { intros l' Hl'. rewrite lookup_insert_ne by (intros ->; contradiction).
      apply Hall. now right. }
    exists objects'. split.
    + cbn [mapRules]. rewrite (modifyRule_Some f l objects rule rule' Hrule Hf).
      cbn. now rewrite Hmap.
    + exact (assignedOnce_cons f l rest objects objects' rule rule'
               Hnotin Hrule Hf Hassigned).
Qed.

Lemma replaceRules_spec after matching :
  NoDup matching ->
  forall objects rules,
    (forall l, In l matching ->
               In l rules
               /\ exists rule rule', objects !! l = Some rule
                                     /\ after rule = Some rule') ->
    exists objects',
      replaceRules after matching matching
        {| item_objects := objects; item_rules := rules |}
      = Some {| item_objects := objects'; item_rules := rules |}
      /\ assignedOnce after matching objects objects'.
Proof.
  induction 1 as [|l rest Hnotin Hnodup IH]; intros objects rules Hall.
  - exists objects. split; [reflexivity|]. split; [intros l []|reflexivity].
  - rewrite list_elem_of_In in Hnotin.
    destruct (Hall l (or_introl eq_refl))
      as (Hlisted & rule & rule' & Hrule & Hafter).
    destruct (IH (<[l := rule']> objects) rules) as (objects' & Hloop & Hassigned).
    { intros l' Hl'. rewrite lookup_insert_ne by (intros ->; contradiction).
      apply Hall. now right. }
    exists objects'. split.
    + cbn [replaceRules item_rules item_objects]. cbv zeta.
      rewrite (splice_indexOf rules l Hlisted),
        (modifyRule_Some after l objects rule rule' Hrule Hafter).
      cbn. exact Hloop.
    + exact (assignedOnce_cons after l rest objects objects' rule rule'
               Hnotin Hrule Hafter Hassigned).
Qed.

Lemma NoDup_List_filter {A} (f : A -> bool) l :
  NoDup l -> NoDup (List.filter f l).
Proof.
  induction 1 as [|x l Hnotin Hnodup IH]; [constructor|].
  cbn [List.filter]. destruct (f x); [|exact IH].
  constructor; [|exact IH]. rewrite list_elem_of_In in Hnotin |- *.
  intros Hx. apply filter_In in Hx as [Hx _]. contradiction.
Qed.

(** One block of [updateItem]: the rules that pass the test are
    assigned to by [f] and then by [after], the others and the array are
    left as they are. *)
Lemma block_spec test f after g rules objects :
  NoDup rules ->
  (forall l, In l rules -> is_Some (objects !! l)) ->
  (forall rule, test rule = true ->
                exists rule', f rule = Some rule'
                              /\ after rule' = Some (g rule)) ->
  exists matching objects1 objects2,
    filterRules test objects rules = Some matching
    /\ mapRules f matching objects = Some (matching, objects1)
    /\ replaceRules after matching matching
         {| item_objects := objects1; item_rules := rules |}
       = Some {| item_objects := objects2; item_rules := rules |}
    /\ (forall l, In l rules ->
                  objects2 !! l
                  = (fun rule => if test rule then g rule else rule)
                    <$> objects !! l)
    /\ (forall l, ~ In l rules -> objects2 !! l = objects !! l).
Proof.
  intros Hnodup Hall Htest.
  set (matching :=
         List.filter (fun l => from_option test false (objects !! l)) rules).
  assert (Hmatching : forall l, In l matching <->
                                In l rules
                                /\ exists rule, objects !! l = Some rule
                                                /\ test rule = true).
  { intros l. unfold matching. rewrite filter_In. split.
    - intros [Hl Ht]. split; [exact Hl|].
      destruct (objects !! l) as [rule|]; [|discriminate Ht]. eauto.
    - intros (Hl & rule & Hrule & Ht). split; [exact Hl|].
      now rewrite Hrule. }
  assert (Hnodup' : NoDup matching)
    by (unfold matching; now apply NoDup_List_filter).
  destruct (mapRules_spec f matching Hnodup' objects)
    as (objects1 & Hmap & Hin1 & Hout1).
  { intros l Hl. apply Hmatching in Hl as (_ & rule & Hrule & Ht).
    destruct (Htest rule Ht) as (rule' & Hf & _). eauto. }
  destruct (replaceRules_spec after matching Hnodup' objects1 rules)
    as (objects2 & Hloop & Hin2 & Hout2).
  { intros l Hl. pose proof (Hin1 l Hl) as H1.
    apply Hmatching in Hl as (Hl & rule & Hrule & Ht).
    destruct (Htest rule Ht) as (rule' & Hf & Hafter).
    split; [exact Hl|]. exists rule', (g rule). split; [|exact Hafter].
    rewrite H1, Hrule. cbn. exact Hf. }
  exists matching, objects1, objects2.
  split; [now apply filterRules_allocated|].
  split; [exact Hmap|]. split; [exact Hloop|]. split.
  - intros l Hl. destruct (Hall l Hl) as [rule Hrule].
    rewrite Hrule. cbn. destruct (test rule) eqn:Ht.
    + assert (Hlm : In l matching) by (apply Hmatching; eauto).
      destruct (Htest rule Ht) as (rule' & Hf & Hafter).
      rewrite (Hin2 l Hlm), (Hin1 l Hlm), Hrule. cbn. rewrite Hf. cbn.
      exact Hafter.
    + assert (Hlm : ~ In l matching).
      { intros Hlm. apply Hmatching in Hlm as (_ & rule0 & Hrule0 & Ht0).
        congruence. }
      now rewrite (Hout2 l Hlm), (Hout1 l Hlm).
  - intros l Hl.
    assert (Hlm : ~ In l matching).
    { intros Hlm. apply Hmatching in Hlm as [Hlm _]. contradiction. }
    now rewrite (Hout2 l Hlm), (Hout1 l Hlm).
Qed.

(** ** [updateItem] *)

Lemma assignCraftableItems_entry rule :
  isCraftingEntryRule rule = true ->
  exists rule',
    assignCraftableItems rule = Some rule'
    /\ deleteRequiredTraits rule' = rule'
    /\ isCraftingEntryRule rule' = false
    /\ isCraftingEntryAELike rule' = false.
Proof.
  unfold isCraftingEntryRule, isCraftingEntryAELike, assignCraftableItems,
    craftableItemsOf.
  intros Htest. apply andb_true_iff in Htest as [Hkey Htraits].
  apply String.eqb_eq in Hkey.
  destruct (rule_requiredTraits rule) as [[lists|]|]; try discriminate Htraits.
  destruct (bool_decide _); cbn [mbind option_bind]; eexists;
    (split; [reflexivity|]); (split; [reflexivity|]);
    unfold isCraftingEntryRule, isCraftingEntryAELike, deleteRequiredTraits;
    cbn [rule_key rule_requiredTraits rule_path]; rewrite Hkey;
    (split; [apply andb_false_r|reflexivity]).
Qed.

Lemma migrated_idempotent rule : migrated (migrated rule) = migrated rule.
Proof.
  unfold migrated, migratedCraftingEntry. cbv zeta.
  destruct (isCraftingEntryRule rule) eqn:Hentry.
  - destruct (assignCraftableItems_entry rule Hentry)
      as (rule' & -> & _ & Hentry' & Hlike').
    change (default rule (Some rule')) with rule'.
    now rewrite Hlike', Hentry', Hlike'.
  - destruct (isCraftingEntryAELike rule) eqn:Hlike.
    + change (isCraftingEntryRule (assignPhase rule))
        with (isCraftingEntryRule rule).
      rewrite Hentry.
      change (isCraftingEntryAELike (assignPhase rule))
        with (isCraftingEntryAELike rule).
      now rewrite Hlike.
    + now rewrite Hentry, Hlike.
Qed.

Lemma updateItem_spec objects rules :
  NoDup rules ->
  (forall l, In l rules -> is_Some (objects !! l)) ->
  exists objects',
    updateItem {| item_objects := objects; item_rules := rules |}
    = Some {| item_objects := objects'; item_rules := rules |}
    /\ (forall l, In l rules -> objects' !! l = migrated <$> objects !! l)
    /\ (forall l, ~ In l rules -> objects' !! l = objects !! l).
Proof.
  intros Hnodup Hall.
  destruct (block_spec isCraftingEntryRule assignCraftableItems
              (fun rule => Some (deleteRequiredTraits rule))
              (fun rule => default rule (assignCraftableItems rule))
              rules objects Hnodup Hall)
    as (entries & objects1 & objects2 & Hfilter & Hmap & Hloop & Hin & Hout).
  { intros rule Htest.
    destruct (assignCraftableItems_entry rule Htest)
      as (rule' & Hassign & Hdelete & _).
    exists rule'. split; [exact Hassign|]. now rewrite Hassign, Hdelete. }
  assert (Hall2 : forall l, In l rules -> is_Some (objects2 !! l)).
  { intros l Hl. rewrite (Hin l Hl). destruct (Hall l Hl) as [rule ->].
    cbn. eauto. }
  destruct (block_spec isCraftingEntryAELike
              (fun rule => Some (assignPhase rule)) Some assignPhase
              rules objects2 Hnodup Hall2)
    as (likes & objects3 & objects4 & Hfilter' & Hmap' & Hloop' & Hin' & Hout').
  { intros rule _. eauto. }
  exists objects4. split; [|split].
  - unfold updateItem. cbn [item_objects item_rules]. cbv zeta.
    rewrite Hfilter. cbn [mbind option_bind]. rewrite Hmap.
    cbn [mbind option_bind]. rewrite Hloop.
    cbn [mbind option_bind item_objects item_rules].
    rewrite Hfilter'. cbn [mbind option_bind]. rewrite Hmap'.
    cbn [mbind option_bind]. exact Hloop'.
  - intros l Hl. rewrite (Hin' l Hl), (Hin l Hl).
    destruct (objects !! l); reflexivity.
  - intros l Hl. now rewrite (Hout' l Hl), (Hout l Hl).
Qed.

(** X15: [updateItem] on an item whose array of rules holds every rule
    once.  The migration returns; the array holds the same references in
    the same order; every rule of the array is migrated by itself, a
    crafting entry with an array of required traits in the first block
    and a rule that targets the crafting entries in the second; no other
    object is assigned to; and a second migration changes nothing. *)
Theorem updateItem_migrates_each_rule itemSource :
  NoDup (item_rules itemSource) ->
  (forall l, In l (item_rules itemSource) ->
             is_Some (item_objects itemSource !! l)) ->
  exists objects,
    updateItem itemSource
    = Some {| item_objects := objects; item_rules := item_rules itemSource |}
    /\ (forall l, In l (item_rules itemSource) ->
                  objects !! l = migrated <$> item_objects itemSource !! l)
    /\ (forall l, ~ In l (item_rules itemSource) ->
                  objects !! l = item_objects itemSource !! l)
    /\ updateItem
         {| item_objects := objects; item_rules := item_rules itemSource |}
       = Some {| item_objects := objects;
                 item_rules := item_rules itemSource |}.
Proof.
  destruct itemSource as [objects rules]. cbn [item_objects item_rules].
  intros Hnodup Hall.
  destruct (updateItem_spec objects rules Hnodup Hall)
    as (objects' & Hrun & Hin & Hout).
  exists objects'. split; [exact Hrun|]. split; [exact Hin|].
  split; [exact Hout|].
  assert (Hall' : forall l, In l rules -> is_Some (objects' !! l)).
  { intros l Hl. rewrite (Hin l Hl). destruct (Hall l Hl) as [rule ->].
    cbn. eauto. }
  destruct (updateItem_spec objects' rules Hnodup Hall')
    as (objects'' & Hrun' & Hin' & Hout').
  rewrite Hrun'. do 2 f_equal. apply map_eq. intros l.
  destruct (In_dec Pos.eq_dec l rules) as [Hl|Hl].
  - rewrite (Hin' l Hl), (Hin l Hl). destruct (objects !! l); cbn; [|reflexivity].
    now rewrite migrated_idempotent.
  - now rewrite (Hout' l Hl).
Qed.

(** ** Predicates of required traits *)

Lemma append_cancel_l p s t : p +:+ s = p +:+ t -> s = t.
Proof.
  induction p as [|c p IH]; [auto|]. intros H.
  change (String c (p +:+ s) = String c (p +:+ t)) in H.
  injection H as H. now apply IH.
Qed.

Lemma map_injective {A B} (f : A -> B) :
  (forall x y, f x = f y -> x = y) ->
  forall l k, map f l = map f k -> l = k.
Proof.
  intros Hf. induction l as [|x l IH]; intros [|y k] H;
    try discriminate H; [reflexivity|].
  cbn [map] in H. injection H as Hx Hl. f_equal; [now apply Hf|now apply IH].
Qed.

(** X16: the predicate keeps the required traits: lists of required
    traits that differ give predicates that differ, whether the
    predicate is written with [all], for one list, or with [any]. *)
Theorem generatePredicate_injective requiredTraits requiredTraits' :
  generatePredicateFromRequiredTraits requiredTraits
  = generatePredicateFromRequiredTraits requiredTraits' ->
  requiredTraits = requiredTraits'.
Proof.
  unfold generatePredicateFromRequiredTraits.
  destruct (Nat.eqb_spec (length requiredTraits) 1) as [Hone|Hmore],
    (Nat.eqb_spec (length requiredTraits') 1) as [Hone'|Hmore'];
    intros H; try discriminate H.
  - destruct requiredTraits as [|traits [|]]; try discriminate Hone.
    destruct requiredTraits' as [|traits' [|]]; try discriminate Hone'.
    cbn [nth] in H. injection H as H. f_equal.
    apply (map_injective (fun trait => Atom ("item:trait:" +:+ trait)));
      [|exact H].
    intros x y Hxy. apply (append_cancel_l "item:trait:"). congruence.
  - injection H as H.
    apply (map_injective
             (fun traits =>
                Conjunction
                  (map (fun trait => "item:trait:" +:+ trait) traits)));
      [|exact H].
    intros x y Hxy.
    apply (map_injective (fun trait => "item:trait:" +:+ trait));
      [|congruence].
    intros s t. apply (append_cancel_l "item:trait:").
Qed.

(** ** [updateActor] *)

Lemma Forall2_In_l {A B} (P : A -> B -> Prop) l k x :
  Forall2 P l k -> In x l -> exists y, In y k /\ P x y.
Proof.
  induction 1 as [|a b l k Hab _ IH]; intros Hx; [destruct Hx|].
  destruct Hx as [<-|Hx].
  - exists b. split; [now left|exact Hab].
  - destruct (IH Hx) as (y & Hy & Hxy). exists y. split; [now right|exact Hxy].
Qed.

Lemma Forall2_In_r {A B} (P : A -> B -> Prop) l k y :
  Forall2 P l k -> In y k -> exists x, In x l /\ P x y.
Proof.
  induction 1 as [|a b l k Hab _ IH]; intros Hy; [destruct Hy|].
  destruct Hy as [<-|Hy].
  - exists a. split; [now left|exact Hab].
  - destruct (IH Hy) as (x & Hx & Hxy). exists x. split; [now right|exact Hxy].
Qed.

Lemma assignPreparedFormulas_None craftingEntries rule :
  assignPreparedFormulas craftingEntries rule = None <->
  exists selector,
    rule_key rule = "CraftingEntry" /\ rule_selector rule = Some selector
    /\ preparedFormulasOf craftingEntries selector = None.
Proof.
  unfold assignPreparedFormulas.
  destruct (String.eqb_spec (rule_key rule) "CraftingEntry") as [Hkey|Hkey];
    cbn [negb].
  - destruct (rule_selector rule) as [selector|].
    + destruct (preparedFormulasOf craftingEntries selector) eqn:Hprepared;
        cbn [mbind option_bind]; split.
      * discriminate.
      * intros (selector' & _ & [= <-] & H). congruence.
      * intros _. eauto.
      * reflexivity.
    + split; [discriminate|]. intros (selector & _ & H & _). discriminate H.
  - split; [destruct (rule_selector rule); discriminate|].
    intros (selector & H & _). contradiction.
Qed.

Lemma assignPreparedFormulas_keeps craftingEntries rule rule' :
  assignPreparedFormulas craftingEntries rule = Some rule' ->
  rule_key rule' = rule_key rule /\ rule_selector rule' = rule_selector rule.
Proof.
  unfold assignPreparedFormulas.
  destruct (negb _), (rule_selector rule) as [selector|] eqn:Hselector;
    try (intros [= <-]; now rewrite ?Hselector).
  destruct (preparedFormulasOf craftingEntries selector);
    cbn [mbind option_bind]; [|discriminate].
  intros [= <-]. cbn [rule_key rule_selector]. auto.
Qed.

Lemma updateActor_None actorData :
  updateActor actorData = None <->
  actor_type actorData = "character"
  /\ exists selector,
       hasCraftingEntryRule actorData selector
       /\ preparedFormulasOf (crafting_entries actorData) selector = None.
Proof.
  unfold updateActor.
  destruct (String.eqb_spec (actor_type actorData) "character") as [Htype|Htype].
  - cbv zeta.
    destruct (mapM _ (actor_items actorData)) as [items|] eqn:Hitems;
      cbn [mbind option_bind]; split.
    + discriminate.
    + intros (_ & selector & (rules & rule & Hrules & Hrule & Hkey & Hsel)
              & Hprepared).
      exfalso. apply mapM_Some in Hitems.
      destruct (Forall2_In_l _ _ _ rules Hitems Hrules)
        as (rules' & _ & Hmapped).
      apply mapM_Some in Hmapped.
      destruct (Forall2_In_l _ _ _ rule Hmapped Hrule)
        as (rule' & _ & Hassigned).
      assert (Hnone : assignPreparedFormulas (crafting_entries actorData) rule
                      = None)
        by (apply assignPreparedFormulas_None; eauto).
      congruence.
    + intros _. split; [exact Htype|].
      apply mapM_None, Exists_exists in Hitems as (rules & Hrules & Hnone).
      apply mapM_None, Exists_exists in Hnone as (rule & Hrule & Hnone).
      apply assignPreparedFormulas_None in Hnone
        as (selector & Hkey & Hsel & Hprepared).
      rewrite ?list_elem_of_In in Hrules. rewrite ?list_elem_of_In in Hrule.
      exists selector. split; [|exact Hprepared].
      exists rules, rule. auto.
    + reflexivity.
  - split; [discriminate|]. intros [H _]. contradiction.
Qed.

Lemma updateActor_Some actorData actorData' :
  updateActor actorData = Some actorData' ->
  actor_type actorData = "character" ->
  actor_type actorData' = "character"
  /\ crafting_entries actorData' = None
  /\ crafting_removeEntries actorData' = true
  /\ Forall2
       (Forall2 (fun rule rule' =>
                   assignPreparedFormulas (crafting_entries actorData) rule
                   = Some rule'))
       (actor_items actorData) (actor_items actorData').
Proof.
  unfold updateActor. intros Hrun Htype.
  rewrite Htype in Hrun. change ("character" =? "character")%string with true in Hrun.
  cbv iota zeta in Hrun.
  destruct (mapM _ (actor_items actorData)) as [items|] eqn:Hitems;
    cbn [mbind option_bind] in Hrun; [|discriminate Hrun].
  injection Hrun as <-. cbn [actor_type crafting_entries crafting_removeEntries
                             actor_items].
  split; [reflexivity|]. split; [reflexivity|]. split; [reflexivity|].
  apply mapM_Some in Hitems.
  eapply Forall2_impl; [exact Hitems|].
  intros rules rules' Hrules. cbv beta in Hrules. now apply mapM_Some in Hrules.
Qed.

(** X17: the outcome of [updateActor].  An actor that is no character is
    left as it is.  For a character the migration fails exactly when an
    item has a crafting entry rule with a selector under which the
    crafting entries of the actor hold nothing; when it returns, the
    entries are removed and marked for removal, and every rule has been
    visited by itself, in place. *)
Theorem updateActor_outcome actorData :
  (actor_type actorData <> "character" ->
   updateActor actorData = Some actorData)
  /\ (updateActor actorData = None <->
      actor_type actorData = "character"
      /\ exists selector,
           hasCraftingEntryRule actorData selector
           /\ preparedFormulasOf (crafting_entries actorData) selector = None)
  /\ (forall actorData',
         actor_type actorData = "character" ->
         updateActor actorData = Some actorData' ->
         crafting_entries actorData' = None
         /\ crafting_removeEntries actorData' = true
         /\ Forall2
              (Forall2 (fun rule rule' =>
                          assignPreparedFormulas (crafting_entries actorData)
                            rule
                          = Some rule'))
              (actor_items actorData) (actor_items actorData')).
Proof.
  split; [|split].
  - intros Htype. unfold updateActor.
    now destruct (String.eqb_spec (actor_type actorData) "character").
  - apply updateActor_None.
  - intros actorData' Htype Hrun.
    destruct (updateActor_Some actorData actorData' Hrun Htype)
      as (_ & Hentries & Hremove & Hitems). auto.
Qed.

(** X18: the migration of a character is not made for a second run.
    After a run that has returned, a second run fails exactly when an
    item of the actor has a crafting entry rule with a selector: the
    entries that the rule would be read from are removed. *)
Theorem updateActor_second_run actorData actorData' :
  updateActor actorData = Some actorData' ->
  actor_type actorData = "character" ->
  updateActor actorData' = None
  <-> exists selector, hasCraftingEntryRule actorData selector.
Proof.
  intros Hrun Htype.
  destruct (updateActor_Some actorData actorData' Hrun Htype)
    as (Htype' & Hentries & _ & Hitems).
  rewrite updateActor_None, Hentries. split.
  - intros (_ & selector & (rules' & rule' & Hrules' & Hrule' & Hkey & Hsel)
            & _).
    destruct (Forall2_In_r _ _ _ rules' Hitems Hrules')
      as (rules & Hrules & Hmapped).
    destruct (Forall2_In_r _ _ _ rule' Hmapped Hrule')
      as (rule & Hrule & Hassigned).
    apply assignPreparedFormulas_keeps in Hassigned as [Hkey' Hsel'].
    exists selector, rules, rule. rewrite <- Hkey', <- Hsel'. auto.
  - intros (selector & rules & rule & Hrules & Hrule & Hkey & Hsel).
    split; [exact Htype'|]. exists selector. split; [|reflexivity].
    destruct (Forall2_In_l _ _ _ rules Hitems Hrules)
      as (rules' & Hrules' & Hmapped).
    destruct (Forall2_In_l _ _ _ rule Hmapped Hrule)
      as (rule' & Hrule' & Hassigned).
    apply assignPreparedFormulas_keeps in Hassigned as [Hkey' Hsel'].
    exists rules', rule'. rewrite Hkey', Hsel'. auto.
Qed.

(** ** Worked instances *)

Example alchemistsFire_on_success localizeDamageType formatPersistentTooltip :
  option_map formula
    (createDamageFormula "doublesubtotal" localizeDamageType
       formatPersistentTooltip Examples.alchemistsFire (Some SUCCESS))
  = Some "{(2d6 + 3 + 1d4[splash])[fire]}".
Proof. reflexivity. Qed.

Example alchemistsFire_on_critical_success localizeDamageType
    formatPersistentTooltip :
  option_map formula
    (createDamageFormula "doublesubtotal" localizeDamageType
       formatPersistentTooltip Examples.alchemistsFire (Some CRITICAL_SUCCESS))
  = Some "{(2 * (2d6 + 3 + 1d4[splash]))[fire]}".
Proof. reflexivity. Qed.

Example alchemistsFire_with_doubled_dice localizeDamageType
    formatPersistentTooltip :
  option_map formula
    (createDamageFormula "doubledice" localizeDamageType
       formatPersistentTooltip Examples.alchemistsFire (Some CRITICAL_SUCCESS))
  = Some "{((4d6[doubled]) + 2 * 3 + (2d4[doubled])[splash])[fire]}".
Proof. reflexivity. Qed.

Example alchemistsFire_on_failure localizeDamageType formatPersistentTooltip :
  option_map formula
    (createDamageFormula "doublesubtotal" localizeDamageType
       formatPersistentTooltip Examples.alchemistsFire (Some FAILURE))
  = Some "{(2d6 + 1d4[splash])[fire]}".
Proof. reflexivity. Qed.

Example longsword_breakdown_on_critical_success :
  option_map breakdown
    (createDamageFormula "doublesubtotal" (fun t => t)
       (fun t => "Persistent " +:+ t) Examples.longsword
       (Some CRITICAL_SUCCESS))
  = Some ["1d8 + 4 slashing"; "Deadly"; "Critical Specialization +2"].
Proof. reflexivity. Qed.

Lemma criticalOnly_modifiers_dropped_dice_kept_witness :
  ~ In (modifierPartial Examples.criticalBonus)
      (allPartials (buildTypeMap false Examples.longsword))
  /\ listedUnder "slashing" (dicePartial Examples.deadly d10)
       (buildTypeMap false Examples.longsword)
  /\ createDamageFormula "doublesubtotal" (fun t => t) (fun t => t)
       Examples.longsword (Some SUCCESS)
     = createDamageFormula "doublesubtotal" (fun t => t) (fun t => t)
         (withoutCriticalOnlyModifiers Examples.longsword) (Some SUCCESS).
Proof.
  destruct (criticalOnly_modifiers_dropped_dice_kept
              "doublesubtotal" (fun t => t) (fun t => t)
              Examples.longsword SUCCESS)
    as (_ & Hsame & _ & _ & Hdropped & _ & Hdice & _).
  - left. reflexivity.
  - split; [apply Hdropped; reflexivity|]. split; [|exact Hsame].
    apply (Hdice Examples.deadly d10).
    + left. reflexivity.
    + reflexivity.
    + reflexivity.
    + reflexivity.
Defined.

Lemma category_order_is_fixed_witness :
  createDamageFormula "doublesubtotal" (fun t => t) (fun t => t)
    Examples.alchemistsFire (Some SUCCESS)
  = Some (expectedResult "doublesubtotal" (fun t => t) (fun t => t) SUCCESS
            (buildTypeMap false Examples.alchemistsFire))
  /\ summedDamage "doublesubtotal"
       (groupBy category_eqb [Examples.splashPartial; Examples.plainPartial]
          category) SUCCESS
     = summedDamage "doublesubtotal"
         (groupBy category_eqb [Examples.plainPartial; Examples.splashPartial]
            category) SUCCESS.
Proof.
  destruct (category_order_is_fixed "doublesubtotal" (fun t => t)
              (fun t => t) Examples.alchemistsFire SUCCESS)
    as (Hrun & _ & _ & Hsame & _).
  - discriminate.
  - split; [exact Hrun|]. apply Hsame. apply perm_swap.
Defined.

Lemma formula_is_a_pooled_formula_witness :
  exists assembled,
    createDamageFormula "doublesubtotal" (fun t => t) (fun t => t)
      Examples.longsword (Some CRITICAL_SUCCESS) = Some assembled
    /\ formula assembled
       = "{" +:+ join ","
                   (expectedTerms "doublesubtotal" CRITICAL_SUCCESS
                      (buildTypeMap true Examples.longsword)) +:+ "}"
    /\ Forall Term
         (expectedTerms "doublesubtotal" CRITICAL_SUCCESS
            (buildTypeMap true Examples.longsword))
    /\ PooledFormula (formula assembled).
Proof.
  destruct (formula_is_a_pooled_formula "doublesubtotal" (fun t => t)
              (fun t => t) Examples.longsword CRITICAL_SUCCESS)
    as (assembled & Hrun & Hformula & Hterms & _ & Hpooled & _).
  - discriminate.
  - exists assembled. split; [exact Hrun|]. split; [exact Hformula|].
    split; [exact Hterms|exact Hpooled].
Defined.

Lemma compiling_twice_gives_the_same_result_witness :
  exists first s1 second s2,
    createDamageFormulaRun "doublesubtotal" (fun t => t) (fun t => t)
      1%positive (Some SUCCESS) Examples.store = Some (first, s1)
    /\ createDamageFormulaRun "doublesubtotal" (fun t => t) (fun t => t)
         1%positive (Some SUCCESS) s1 = Some (second, s2)
    /\ first = second
    /\ first = createDamageFormula "doublesubtotal" (fun t => t) (fun t => t)
                 Examples.longsword (Some SUCCESS)
    /\ snapshot s1 1%positive = Some Examples.longsword
    /\ snapshot s2 1%positive = Some Examples.longsword.
Proof.
  apply (compiling_twice_gives_the_same_result
           "doublesubtotal" (fun t => t) (fun t => t)
           Examples.store 1%positive Examples.longsword (Some SUCCESS)).
  vm_compute. reflexivity.
Defined.

(** ** Further worked instances *)

Lemma combinePartialTerms_order_independent_witness :
  combinePartialTerms
    [Samples.twoDiceEight; Samples.oneDieSix; Samples.penalty] false
  = combinePartialTerms
      [Samples.oneDieSix; Samples.twoDiceEight; Samples.penalty] false.
Proof.
  apply combinePartialTerms_order_independent. apply perm_swap.
Defined.

Lemma ensureValidFormulaHead_settles_witness :
  exists head,
    ensureValidFormulaHead (Some "1d6 + 2") = Some head
    /\ (head = "1d6 + 2" \/ head = "(" +:+ "1d6 + 2" +:+ ")")
    /\ isWrapped head || isSimple head = true
    /\ ensureValidFormulaHead (Some head) = Some head.
Proof.
  apply (ensureValidFormulaHead_settles "1d6 + 2"); reflexivity.
Defined.

Lemma critical_doubles_the_success_sum_witness :
  summedDamage "doublesubtotal"
    (groupBy category_eqb [Examples.plainPartial; Examples.splashPartial]
       category)
    CRITICAL_SUCCESS
  = match
      summedDamage "doublesubtotal"
        (groupBy category_eqb [Examples.plainPartial; Examples.splashPartial]
           category)
        SUCCESS
    with
    | None => None
    | Some summed =>
        Some ("2 * " +:+ (if hasOperators (Some summed)
                          then "(" +:+ summed +:+ ")"
                          else summed))
    end.
Proof.
  apply (critical_doubles_the_success_sum "doublesubtotal").
  - reflexivity.
  - intros p [<-|[<-|[]]]; reflexivity.
Defined.

Lemma parsed_term_sign_witness :
  parseTermsFromSimpleFormula
    ([Samples.minus; Samples.plus; Samples.minus; Samples.minus]
     ++ Samples.three :: [Samples.plus; Samples.twoDiceSix])
  = [negateTerm (termPartial Samples.three); termPartial Samples.twoDiceSix]
  /\ parseTermsFromSimpleFormula
       ([Samples.twoDiceSix] ++ [Samples.minus; Samples.plus; Samples.minus;
                                 Samples.minus])
     = [termPartial Samples.twoDiceSix].
Proof.
  apply (parsed_term_sign [Samples.twoDiceSix]
           [Samples.minus; Samples.plus; Samples.minus; Samples.minus]
           Samples.three [Samples.plus; Samples.twoDiceSix]).
  - repeat (apply List.Forall_cons; [reflexivity|]). apply List.Forall_nil.
  - reflexivity.
Defined.

Lemma subtracted_die_is_dropped_witness :
  combinePartialTerms
    (parseTermsFromSimpleFormula
       [Samples.minus; Samples.twoDiceSix; Samples.plus; Samples.three])
    false
  = combinePartialTerms (parseTermsFromSimpleFormula
                           [Samples.plus; Samples.three]) false.
Proof.
  apply (subtracted_die_is_dropped Samples.minus Samples.twoDiceSix
           [Samples.plus; Samples.three] 6 2 false).
  - reflexivity.
  - reflexivity.
  - reflexivity.
  - lia.
Defined.

Lemma dice_and_number_round_trip_witness :
  combinePartialTerms
    (parseTermsFromSimpleFormula
       [Samples.twoDiceSix; Samples.minus; Samples.three]) false
  = numberToString 2 +:+ "d" +:+ numberToString 6
    +:+ roll_expression Samples.minus +:+ numberToString 3.
Proof.
  apply (dice_and_number_round_trip Samples.twoDiceSix Samples.minus
           Samples.three 6 2 3).
  - reflexivity.
  - reflexivity.
  - reflexivity.
  - reflexivity.
  - reflexivity.
  - lia.
  - lia.
Defined.

Lemma generatePredicate_injective_witness :
  [["alchemical"; "bomb"]] = [["alchemical"; "bomb"]].
Proof.
  apply (generatePredicate_injective [["alchemical"; "bomb"]]
           [["alchemical"; "bomb"]]).
  reflexivity.
Defined.

Lemma updateItem_migrates_each_rule_witness :
  exists objects,
    updateItem Samples.feat
    = Some {| item_objects := objects;
              item_rules := item_rules Samples.feat |}
    /\ (forall l, In l (item_rules Samples.feat) ->
                  objects !! l = migrated <$> item_objects Samples.feat !! l)
    /\ (forall l, ~ In l (item_rules Samples.feat) ->
                  objects !! l = item_objects Samples.feat !! l)
    /\ updateItem
         {| item_objects := objects; item_rules := item_rules Samples.feat |}
       = Some {| item_objects := objects;
                 item_rules := item_rules Samples.feat |}.
Proof.
  apply (updateItem_migrates_each_rule Samples.feat).
  - apply NoDup_cons_2; [|apply NoDup_cons_2; [|apply NoDup_nil_2]].
    + intros H. apply list_elem_of_In in H. destruct H as [H|[]].
      discriminate H.
    + intros H. apply list_elem_of_In in H. destruct H.
  - intros l [<-|[<-|[]]]; eexists; reflexivity.
Defined.

Lemma updateActor_second_run_witness :
  updateActor Samples.migratedAlchemist = None.
Proof.
  apply (updateActor_second_run Samples.alchemist Samples.migratedAlchemist).
  - reflexivity.
  - reflexivity.
  - exists "bomber", [Samples.bomberEntry; Samples.bomberSlots],
      Samples.bomberEntry.
    split; [now left|]. split; [now left|]. split; reflexivity.
Defined.

Lemma breakdown_lists_every_partial_witness :
  exists first rest,
    Permutation (first :: rest)
      (listedInBreakdown SUCCESS
         (partialsOfRun false [Examples.plainPartial; Examples.splashPartial]))
    /\ ["1d6 Fire"; "Splash"]
       = (stripLeadingPlus (label first) +:+ " " +:+ "Fire")
         :: map label rest.
Proof.
  apply (breakdown_lists_every_partial "doublesubtotal"
           (fun _ => "Fire") (fun t => t) SUCCESS false "fire"
           [Examples.plainPartial; Examples.splashPartial]
           {| formula := "(1d6 + 1[splash])[fire]";
              breakdown := ["1d6 Fire"; "Splash"] |}).
  left. reflexivity.
Defined.

Lemma typeMap_damage_types_witness :
  hd_error (map fst (buildTypeMap true Examples.longsword)) = Some "slashing".
Proof.
  apply (proj1 (proj2 (proj2 (typeMap_damage_types true Examples.longsword)))).
  intros H. discriminate H.
Defined.

Lemma updateActor_outcome_witness :
  crafting_entries Samples.migratedAlchemist = None
  /\ crafting_removeEntries Samples.migratedAlchemist = true
  /\ Forall2
       (Forall2 (fun rule rule' =>
                   assignPreparedFormulas
                     (crafting_entries Samples.alchemist) rule
                   = Some rule'))
       (actor_items Samples.alchemist)
       (actor_items Samples.migratedAlchemist).
Proof.
  apply (proj2 (proj2 (updateActor_outcome Samples.alchemist))
           Samples.migratedAlchemist); reflexivity.
Defined.

(** The rules of the feat after the migration, and again after a second
    one. *)
Example feat_migrated :
  (itemSource ← updateItem Samples.feat;
   Some (item_rules itemSource,
         map (fun l => item_objects itemSource !! l) (item_rules itemSource)))
  = Some
      ([1%positive; 2%positive],
       [Some {| rule_key := "CraftingEntry"; rule_selector := Some "bomber";
                rule_requiredTraits := None;
                rule_craftableItems :=
                  Some {| pred_all := Some [Atom "item:trait:alchemical";
                                            Atom "item:trait:bomb"];
                          pred_any := None |};
                rule_preparedFormulas := None; rule_path := None;
                rule_phase := None |};
        Some {| rule_key := "ActiveEffectLike"; rule_selector := None;
                rule_requiredTraits := None; rule_craftableItems := None;
                rule_preparedFormulas := None;
                rule_path := Some "system.crafting.entries.bomber.maxSlots";
                rule_phase := Some "afterDerived" |}]).
Proof. vm_compute. reflexivity. Qed.

Example alchemist_migrated :
  updateActor Samples.alchemist = Some Samples.migratedAlchemist.
Proof. vm_compute. reflexivity. Qed.

Example doubled_dice_of_two_sizes :
  combinePartialTerms
    [Samples.oneDieSix; Samples.twoDiceEight; Samples.penalty] true
  = "(4d8[doubled]) + (2d6[doubled]) - 2 * 1".
Proof. vm_compute. reflexivity. Qed.

Example penalty_alone_loses_its_sign :
  combinePartialTerms [Samples.penalty] false = "1".
Proof. vm_compute. reflexivity. Qed.
